(** * pararius-alerts: the fetch / extract / reconcile pipeline

    A shallow embedding of [src/storage.py], [src/scraper.py] and
    [src/main.py], and the properties of the specification proved (or
    refuted) on it.

    Conventions of the embedding.
    - A listing is a Python [dict] with string keys: a [gmap string value].
      [value] covers the JSON scalars (null, booleans, numbers, strings);
      nested arrays and objects never occur in a listing.  A number is the
      integer it denotes, or NaN.  The only floats the program creates are
      [float] of a string of digits, which is modelled by the integer the
      digits denote (rounding above 2^53 and infinities are outside the
      model); a NaN can only come from the stored file, where [json.load]
      reads the token [NaN].
    - Listings that are mutated or shared live in a store ([heap]) and are
      passed around by reference ([loc]), as Python objects are.  A listing
      that has just been created and is not shared yet is passed by value and
      is allocated when it reaches the reconciler.
    - Effects are threaded through one state-and-exception monad [M] over
      [world]: the store, the clock, the network, the files, the sinks.
    - The third-party libraries (bs4, re, datetime) are interfaces: type
      classes whose operations the embedding calls and of which it assumes
      nothing but the stated laws. *)

From Stdlib Require Import ZArith Ascii String.
From stdpp Require Import base option list gmap strings pretty.

Local Open Scope string_scope.
Local Open Scope list_scope.
Local Open Scope Z_scope.

(** ** Python values and dictionaries *)

Inductive value :=
  | VNone
  | VBool (b : bool)
  | VNum (n : Z)
  | VNaN
  | VStr (s : string).

#[global] Instance value_eq_dec : EqDecision value.
Proof. solve_decision. Defined.

(** What a value is as a dictionary key: Python hashes and compares [True]
    and [1] (and [False] and [0]) as the same key.  A key is looked up by
    identity before [==], and [json.load] makes of every token [NaN] the one
    object [json.decoder.NaN]: as a key, NaN is found like any other. *)
Definition hash_key (v : value) : value :=
  match v with
  | VBool true => VNum 1
  | VBool false => VNum 0
  | _ => v
  end.

(** Python [==] and [!=] on values.  NaN is equal to nothing, itself
    included. *)
Definition py_eq (v w : value) : bool :=
  match v, w with
  | VNaN, _ | _, VNaN => false
  | _, _ => bool_decide (hash_key v = hash_key w)
  end.
Definition py_ne (v w : value) : bool := negb (py_eq v w).

Abbreviation dict := (gmap string value).

(** [d.get(k)]: the value, [None] when the key is missing. *)
Definition dict_get (d : dict) (k : string) : value := default VNone (d !! k).

(** ** Insertion-ordered dictionaries from ids to listing objects

    [{listing['id']: listing for listing in ...}] builds a Python [dict]:
    a key keeps the position of its first insertion and the value of its
    last.  Keys are stored as [hash_key]s. *)

Definition loc := nat.
Abbreviation odict := (list (value * loc)).

Fixpoint od_get (k : value) (d : odict) : option loc :=
  match d with
  | [] => None
  | (k', l) :: d' => if decide (k' = k) then Some l else od_get k d'
  end.

Fixpoint od_set (k : value) (l : loc) (d : odict) : odict :=
  match d with
  | [] => [(k, l)]
  | (k', l') :: d' =>
      if decide (k' = k) then (k', l) :: d' else (k', l') :: od_set k l d'
  end.

Definition od_mem (k : value) (d : odict) : bool :=
  bool_decide (is_Some (od_get k d)).

Definition od_keys (d : odict) : list value := d.*1.
Definition od_values (d : odict) : list loc := d.*2.

(** ** Exceptions and results *)

Inductive exn :=
  | KeyError (k : string)
  | ValueError
  | UnicodeDecodeError      (* a [ValueError] that is no [JSONDecodeError] *)
  | TypeError
  | OverflowError
  | OSError
  | RequestException.

#[global] Instance exn_eq_dec : EqDecision exn.
Proof. solve_decision. Defined.

Inductive result (A : Type) :=
  | Ok (a : A)
  | Raise (e : exn).
Arguments Ok {A} a.
Arguments Raise {A} e.

(** ** The libraries the program calls *)

(** [datetime]: a naive datetime is the number of microseconds since an
    epoch.  [fromisoformat] answers [None] where Python raises [ValueError],
    and tells a timezone-aware result from a naive one. *)
Inductive parsed :=
  | Naive (t : Z)
  | Aware.

Class DateTime := {
  isoformat : Z → string;
  fromisoformat : string → option parsed;
}.

(** [bs4] and [re]: the parsed markup, CSS selection in document order, and
    the three regular expressions of the extractor with the conversion of
    their group to a number. *)
Class Markup := {
  node : Type;
  select : string → node → list node;
  text : node → string;
  attr : node → string → option string;
  classes : node → option (list string);
  strip : string → string;
  (** group 1 of [re.search(r'€\s*([\d,.]+)', s)] *)
  re_price : string → option string;
  (** group 1 of [re.search(r'(\d+)\s*m²', s)] *)
  re_size : string → option string;
  (** group 1 of [re.search(r'(\d+)\s*rooms?', s)] *)
  re_rooms : string → option string;
  (** [float(s)] and [int(s)]: [None] where Python raises [ValueError] *)
  to_number : string → option Z;
  (** [s.replace(',', '').replace('.', '')] *)
  drop_separators : string → string;
}.

(** What the extractor relies on, of the regular expressions: the text
    used when there is no price element has no price in it, and [int] reads
    the digits that [\d+] matched (the interpreter's limit on the number of
    digits aside). *)
Class MarkupLaws `{Markup} : Prop := {
  re_price_Unknown : re_price "Unknown" = None;
  re_size_number : ∀ s g, re_size s = Some g → is_Some (to_number g);
  re_rooms_number : ∀ s g, re_rooms s = Some g → is_Some (to_number g);
}.

Definition select_one `{Markup} (sel : string) (n : node) : option node :=
  head (select sel n).

(** ** The world *)

Inductive response `{Markup} :=
  | RespOk (body : node)
  | RespFail.

Inductive event :=
  | EvGet (url : string)
  | EvSleep (seconds : Z).

#[global] Instance event_eq_dec : EqDecision event.
Proof. solve_decision. Defined.

(** A file of listings, [data/listings.json] or
    [data/latest_listings.json], by what reading it does.  The store is a
    list of records: a JSON text of another shape that has a length (a
    string, an object, a list with an element that is no object) is not
    represented. *)
Inductive file :=
  | Missing       (* there is no such file *)
  | Corrupt       (* [open] raises an [IOError], or [json.load] a
                     [JSONDecodeError]: an empty or truncated file, text
                     that is no JSON *)
  | Undecodable   (* bytes that are no text: [json.load] raises a
                     [UnicodeDecodeError] *)
  | Scalar        (* a JSON number, [true], [false] or [null], whose [len]
                     raises a [TypeError] *)
  | Content (listings : list dict).   (* a JSON list of objects *)

(** What becomes of a write, [open(.., 'w')] followed by [json.dump]. *)
Inductive written :=
  | Written       (* the file holds the new content *)
  | Refused       (* [open] raises an [IOError]: the file is as it was *)
  | Cut.          (* an [IOError] after [open] has emptied the file: what
                     is left of it does not decode *)

#[global] Instance written_eq_dec : EqDecision written.
Proof. solve_decision. Defined.

(** The keys of [config.json] the pipeline reads. *)
Record Config := {
  cities : list string;
  price_min : option (option Z);  (* [None]: no key; [Some None]: null *)
  price_max : option Z;           (* [None]: no key or null *)
  min_bedrooms : option Z;
  min_size : option Z;
  max_listings_age_days : option Z;
  request_delay_cfg : option Z;
  max_retries_cfg : option Z;
}.

(** The entries of [stats['errors']]. *)
Inductive error_note :=
  | ConfigurationError
  | ExecutionError (e : exn).

Record Stats := {
  success : bool;
  new_listings_count : nat;
  updated_listings_count : nat;
  total_listings_count : nat;
  notification_sent : bool;
  errors : list error_note;
}.

Section World.
Context `{DateTime, Markup}.

Record world := World {
  heap : list dict;                      (* the listing objects *)
  clock : nat → Z;                       (* readings of [datetime.now()] *)
  reads : nat;                           (* readings taken so far *)
  transport : nat → string → response;   (* outcome of the n-th request *)
  requests : nat;                        (* requests made so far *)
  events : list event;                   (* requests and sleeps, in order *)
  config_file : option Config;           (* [None]: missing, undecodable, {} *)
  data_dir : bool;                       (* can [data] be made a directory *)
  listings_file : file;
  latest_file : file;
  write : nat → written;                 (* what becomes of the n-th write *)
  writes : nat;                          (* writes attempted so far *)
  notifier_ok : bool;                    (* what the notification sink answers *)
  notified : list (list dict * list dict);
  run_stats : list Stats;
}.

Definition set_heap (f : list dict → list dict) (w : world) : world :=
  World (f (heap w)) (clock w) (reads w) (transport w) (requests w) (events w)
        (config_file w) (data_dir w) (listings_file w) (latest_file w) (write w)
        (writes w) (notifier_ok w) (notified w) (run_stats w).

Definition tick (w : world) : world :=
  World (heap w) (clock w) (S (reads w)) (transport w) (requests w) (events w)
        (config_file w) (data_dir w) (listings_file w) (latest_file w) (write w)
        (writes w) (notifier_ok w) (notified w) (run_stats w).

Definition log_event (e : event) (w : world) : world :=
  World (heap w) (clock w) (reads w) (transport w) (requests w)
        (events w ++ [e])
        (config_file w) (data_dir w) (listings_file w) (latest_file w) (write w)
        (writes w) (notifier_ok w) (notified w) (run_stats w).

Definition count_request (w : world) : world :=
  World (heap w) (clock w) (reads w) (transport w) (S (requests w)) (events w)
        (config_file w) (data_dir w) (listings_file w) (latest_file w) (write w)
        (writes w) (notifier_ok w) (notified w) (run_stats w).

Definition count_write (w : world) : world :=
  World (heap w) (clock w) (reads w) (transport w) (requests w) (events w)
        (config_file w) (data_dir w) (listings_file w) (latest_file w) (write w)
        (S (writes w)) (notifier_ok w) (notified w) (run_stats w).

Definition set_listings_file (f : file) (w : world) : world :=
  World (heap w) (clock w) (reads w) (transport w) (requests w) (events w)
        (config_file w) (data_dir w) f (latest_file w) (write w)
        (writes w) (notifier_ok w) (notified w) (run_stats w).

Definition set_latest_file (f : file) (w : world) : world :=
  World (heap w) (clock w) (reads w) (transport w) (requests w) (events w)
        (config_file w) (data_dir w) (listings_file w) f (write w)
        (writes w) (notifier_ok w) (notified w) (run_stats w).

Definition add_notified (n : list dict * list dict) (w : world) : world :=
  World (heap w) (clock w) (reads w) (transport w) (requests w) (events w)
        (config_file w) (data_dir w) (listings_file w) (latest_file w) (write w)
        (writes w) (notifier_ok w) (notified w ++ [n]) (run_stats w).

Definition add_run_stats (s : Stats) (w : world) : world :=
  World (heap w) (clock w) (reads w) (transport w) (requests w) (events w)
        (config_file w) (data_dir w) (listings_file w) (latest_file w) (write w)
        (writes w) (notifier_ok w) (notified w) (run_stats w ++ [s]).

(** Does the [n]-th write work. *)
Definition write_ok (w : world) (n : nat) : bool :=
  bool_decide (write w n = Written).

(** ** The monad: state and exceptions

    A raised exception keeps the state reached: what was mutated before the
    exception stays mutated. *)

Definition M (A : Type) : Type := world → result A * world.

Definition ret {A} (a : A) : M A := fun w => (Ok a, w).
Definition raise {A} (e : exn) : M A := fun w => (Raise e, w).
Definition bind {A B} (m : M A) (f : A → M B) : M B :=
  fun w => match m w with
           | (Ok a, w') => f a w'
           | (Raise e, w') => (Raise e, w')
           end.
Definition try_except {A} (m : M A) (handler : exn → M A) : M A :=
  fun w => match m w with
           | (Ok a, w') => (Ok a, w')
           | (Raise e, w') => handler e w'
           end.
Definition modify (f : world → world) : M unit := fun w => (Ok tt, f w).
Definition gets {A} (f : world → A) : M A := fun w => (Ok (f w), w).

End World.

Notation "'let*' x ':=' m 'in' k" := (bind m (fun x => k))
  (at level 10, x name, m at level 100, k at level 200,
   format "'[v' 'let*'  x  :=  m  'in'  '/' k ']'").

(** ** Listing objects in the store *)

Section Objects.
Context `{DateTime, Markup}.

(** The object behind a reference.  The references the program holds are
    those of allocated objects; a reference outside the store reads as an
    object without keys. *)
Definition obj (h : list dict) (l : loc) : dict := default ∅ (h !! l).

(** [listing[k]] *)
Definition getitem (l : loc) (k : string) : M value :=
  fun w => match obj (heap w) l !! k with
           | Some v => (Ok v, w)
           | None => (Raise (KeyError k), w)
           end.

(** [listing.get(k)] *)
Definition get (l : loc) (k : string) : M value :=
  gets (fun w => dict_get (obj (heap w) l) k).

(** [listing.get(k, default)] *)
Definition get_default (l : loc) (k : string) (d : value) : M value :=
  gets (fun w => default d (obj (heap w) l !! k)).

(** [listing[k] = v] *)
Definition setitem (l : loc) (k : string) (v : value) : M unit :=
  modify (set_heap (fun h => <[l := <[k := v]> (obj h l)]> h)).

(** A new object; its reference is the next free one. *)
Definition alloc (d : dict) : M loc :=
  fun w => (Ok (length (heap w)), set_heap (fun h => h ++ [d]) w).

Fixpoint alloc_all (ds : list dict) : M (list loc) :=
  match ds with
  | [] => ret []
  | d :: ds' =>
      let* l := alloc d in
      let* ls := alloc_all ds' in
      ret (l :: ls)
  end.

(** [datetime.now()] *)
Definition now : M Z :=
  fun w => (Ok (clock w (reads w)), tick w).

End Objects.

(** ** [storage.py]: class [ListingStorage] *)

Record ListingStorage := {
  max_age_days : Z;
}.

Section Storage.
Context `{DateTime, Markup}.
Variable self : ListingStorage.

(** [timedelta(days=d)], in microseconds.  Python refuses a magnitude above
    999999999 days. *)
Definition timedelta_days (d : Z) : M Z :=
  if bool_decide (-999999999 ≤ d ≤ 999999999)
  then ret (d * 86400000000)
  else raise OverflowError.

Definition _is_listing_updated (new_listing existing_listing : loc) : M bool :=
  let* p := get new_listing "price" in
  let* p' := get existing_listing "price" in
  if py_ne p p' then ret true else
  let* a := get new_listing "available" in
  let* a' := get existing_listing "available" in
  if py_ne a a' then ret true else
  let* d := get new_listing "description" in
  let* d' := get existing_listing "description" in
  if py_ne d d' then ret true else
  ret false.

(** The default of [listing.get('first_seen', datetime.now().isoformat())]
    is evaluated whether or not the key is there.  [ValueError] and
    [TypeError] are caught: an unparseable string, a value that is not a
    string, a timezone-aware datetime subtracted from a naive one.  The
    [OverflowError] of [timedelta] is not. *)
Definition _is_listing_too_old (listing : loc) : M bool :=
  try_except
    (let* t0 := now in
     let* v := get_default listing "first_seen" (VStr (isoformat t0)) in
     let* first_seen :=
       match v with
       | VStr s => match fromisoformat s with
                   | Some p => ret p
                   | None => raise ValueError
                   end
       | _ => raise TypeError
       end in
     let* max_age := timedelta_days (max_age_days self) in
     let* t1 := now in
     match first_seen with
     | Naive fs => ret (bool_decide (max_age < t1 - fs))
     | Aware => raise TypeError
     end)
    (fun e => match e with
              | ValueError | UnicodeDecodeError | TypeError => ret false
              | _ => raise e
              end).

(** [{listing['id']: listing for listing in listings}] *)
Fixpoint index_by_id (listings : list loc) (acc : odict) : M odict :=
  match listings with
  | [] => ret acc
  | listing :: rest =>
      let* i := getitem listing "id" in
      index_by_id rest (od_set (hash_key i) listing acc)
  end.

(** The body of the loop over [new_by_id.items()].  The two [getitem]s
    before each [append] are the subscripts of the logged message. *)
Definition classify (existing_by_id : odict)
    (st : odict * list loc * list loc) (item : value * loc)
    : M (odict * list loc * list loc) :=
  let '(new_by_id, added_listings, updated_listings) := st in
  let '(listing_id, new_listing) := item in
  match od_get listing_id existing_by_id with
  | None =>
      let* _ := getitem new_listing "title" in
      let* _ := getitem new_listing "url" in
      ret (new_by_id, added_listings ++ [new_listing], updated_listings)
  | Some existing_listing =>
      let* upd := _is_listing_updated new_listing existing_listing in
      if upd then
        let* fs := getitem existing_listing "first_seen" in
        let* _ := setitem new_listing "first_seen" fs in
        let* t := now in
        let* _ := setitem new_listing "last_updated" (VStr (isoformat t)) in
        let* _ := getitem new_listing "title" in
        let* _ := getitem new_listing "url" in
        ret (new_by_id, added_listings, updated_listings ++ [new_listing])
      else
        ret (od_set listing_id existing_listing new_by_id,
             added_listings, updated_listings)
  end.

(** The loop assigns only to the key it is visiting, so the items still to
    come are those of the dictionary as it was when the loop started. *)
Fixpoint classify_all (existing_by_id : odict) (items : odict)
    (st : odict * list loc * list loc) : M (odict * list loc * list loc) :=
  match items with
  | [] => ret st
  | item :: rest =>
      let* st' := classify existing_by_id st item in
      classify_all existing_by_id rest st'
  end.

(** The comprehension building [preserved_listings]; [and] evaluates
    [_is_listing_too_old] only for ids missing from [new_by_id]. *)
Fixpoint preserve (new_by_id : odict) (items : odict) : M (list loc) :=
  match items with
  | [] => ret []
  | (listing_id, listing) :: rest =>
      if od_mem listing_id new_by_id then preserve new_by_id rest
      else
        let* old := _is_listing_too_old listing in
        let* tl := preserve new_by_id rest in
        ret (if old then tl else listing :: tl)
  end.

Definition compare_listings (new_listings existing_listings : list loc)
    : M (list loc * list loc * list loc) :=
  let* existing_by_id := index_by_id existing_listings [] in
  let* new_by_id := index_by_id new_listings [] in
  let* st := classify_all existing_by_id new_by_id (new_by_id, [], []) in
  let '(new_by_id, added_listings, updated_listings) := st in
  let* preserved_listings := preserve new_by_id existing_by_id in
  let all_current_listings := od_values new_by_id ++ preserved_listings in
  ret (added_listings, updated_listings, all_current_listings).

End Storage.

(** The store on disk.  Every attempt to write is counted. *)
Section StorageFiles.
Context `{DateTime, Markup}.
Variable self : ListingStorage.

(** [json.load] builds new objects.  [JSONDecodeError] and [IOError] are
    caught; the [UnicodeDecodeError] of [json.load] and the [TypeError] of
    [len(listings)] in the logged message are not. *)
Definition load_listings : M (list loc) :=
  fun w => match listings_file w with
           | Content listings => alloc_all listings w
           | Missing | Corrupt => (Ok [], w)
           | Undecodable => (Raise UnicodeDecodeError, w)
           | Scalar => (Raise TypeError, w)
           end.

(** [IOError] is caught, wherever in the [with] block it is raised. *)
Definition save_listings (listings : list loc) : M bool :=
  fun w =>
    match write w (writes w) with
    | Written =>
        (Ok true,
         set_listings_file (Content (obj (heap w) <$> listings))
           (count_write w))
    | Refused => (Ok false, count_write w)
    | Cut => (Ok false, set_listings_file Corrupt (count_write w))
    end.

Definition save_latest_listings (listings : list dict) : M bool :=
  fun w =>
    match write w (writes w) with
    | Written => (Ok true, set_latest_file (Content listings) (count_write w))
    | Refused => (Ok false, count_write w)
    | Cut => (Ok false, set_latest_file Corrupt (count_write w))
    end.

(** [[listing for listing in listings if not self._is_listing_too_old(listing)]] *)
Fixpoint keep_young (listings : list loc) : M (list loc) :=
  match listings with
  | [] => ret []
  | listing :: rest =>
      let* old := _is_listing_too_old self listing in
      let* tl := keep_young rest in
      ret (if old then tl else listing :: tl)
  end.

Definition clean_old_listings : M nat :=
  let* listings := load_listings in
  let original_count := length listings in
  let* listings := keep_young listings in
  let removed_count := (original_count - length listings)%nat in
  if bool_decide (0 < removed_count)%nat then
    let* _ := save_listings listings in
    ret removed_count
  else ret removed_count.

End StorageFiles.

(** ** [scraper.py]: class [ParariusScraper] *)

Record ParariusScraper := {
  config : Config;
  request_delay : Z;
  max_retries : Z;
}.

(** [__init__] *)
Definition ParariusScraper_init (cfg : Config) : ParariusScraper :=
  {| config := cfg;
     request_delay := default 5 (request_delay_cfg cfg);
     max_retries := default 3 (max_retries_cfg cfg) |}.

Definition BASE_URL : string := "https://www.pararius.com/apartments".

(** Python's truth value of an optional number: [None] and [0] are false. *)
Definition truthy (x : option Z) : bool :=
  match x with
  | Some n => bool_decide (n ≠ 0)
  | None => false
  end.

(** [s.split('/')[-1]] *)
Fixpoint last_segment_go (s acc : string) : string :=
  match s with
  | EmptyString => acc
  | String c s' =>
      if Ascii.eqb c "/"%char then last_segment_go s' EmptyString
      else last_segment_go s' (acc +:+ String c EmptyString)
  end.
Definition last_segment (s : string) : string := last_segment_go s EmptyString.

(** [sub in s] *)
Definition contains (sub s : string) : bool :=
  bool_decide (is_Some (String.index 0 sub s)).

Section Scraper.
Context `{DateTime, Markup}.
Variable self : ParariusScraper.

(** [requests.get(url, headers=...)] followed by [raise_for_status()] and
    the parse of the body. *)
Definition requests_get (url : string) : M node :=
  fun w =>
    let w' := count_request (log_event (EvGet url) w) in
    match transport w (requests w) url with
    | RespOk body => (Ok body, w')
    | RespFail => (Raise RequestException, w')
    end.

(** [time.sleep(seconds)] refuses a negative length. *)
Definition sleep (seconds : Z) : M unit :=
  if bool_decide (seconds < 0) then raise ValueError
  else modify (log_event (EvSleep seconds)).

(** What one turn of the retry loop decides. *)
Inductive flow (A : Type) :=
  | Return (a : A)
  | Continue.
Arguments Return {A} a.
Arguments Continue {A}.

(** The loop [for attempt in range(self.max_retries)] from [attempt] on,
    with [remaining] turns to go. *)
Fixpoint attempts (url : string) (remaining : nat) (attempt : Z)
    : M (option node) :=
  match remaining with
  | O => ret None
  | S remaining' =>
      let* r :=
        try_except
          (let* soup := requests_get url in
           let* _ := sleep (request_delay self) in
           ret (Return (Some soup)))
          (fun e =>
             match e with
             | RequestException =>
                 if bool_decide (attempt = max_retries self - 1)
                 then ret (Return None)
                 else
                   let* _ := sleep (request_delay self * 2) in
                   ret Continue
             | _ => raise e
             end) in
      match r with
      | Return soup => ret soup
      | Continue => attempts url remaining' (attempt + 1)
      end
  end.

Definition _make_request (url : string) : M (option node) :=
  attempts url (Z.to_nat (max_retries self)) 0.

Definition _build_search_url (city : string) (page : Z) : string :=
  let url := BASE_URL +:+ "/" +:+ city in
  let params := [] in
  let min_price := default (Some 0) (price_min (config self)) in
  let max_price := price_max (config self) in
  let params :=
    match min_price, max_price with
    | Some mn, Some mx => params ++ [pretty mn +:+ "-" +:+ pretty mx]
    | _, _ =>
        if truthy min_price
        then params ++ [pretty (default 0 min_price) +:+ "+"]
        else if truthy max_price
        then params ++ ["0-" +:+ pretty (default 0 max_price)]
        else params
    end in
  let params :=
    if truthy (min_bedrooms (config self))
    then params ++ [pretty (default 0 (min_bedrooms (config self)))
                    +:+ "-bedrooms"]
    else params in
  let params :=
    if truthy (min_size (config self))
    then params ++ [pretty (default 0 (min_size (config self))) +:+ "-m2"]
    else params in
  let url :=
    match params with
    | [] => url
    | _ => url +:+ "/" +:+ String.concat "/" params
    end in
  let url :=
    if bool_decide (page > 1) then url +:+ "/page-" +:+ pretty page else url in
  url.

(** [any(name in cls for cls in item_class)] *)
Definition any_class (name : string) (item_class : list string) : bool :=
  existsb (contains name) item_class.

(** The body of the loop over the feature items. *)
Definition feature (features : dict) (item : node) : M dict :=
  let item_class := default [] (classes item) in
  let item_text := strip (text item) in
  if any_class "surface-area" item_class then
    match re_size item_text with
    | Some g =>
        match to_number g with
        | Some n => ret (<["size" := VNum n]> features)
        | None => raise ValueError
        end
    | None => ret (<["size" := VNone]> features)
    end
  else if any_class "number-of-rooms" item_class then
    match re_rooms item_text with
    | Some g =>
        match to_number g with
        | Some n => ret (<["rooms" := VNum n]> features)
        | None => raise ValueError
        end
    | None => ret (<["rooms" := VNone]> features)
    end
  else if any_class "interior" item_class then
    ret (<["interior" := VStr item_text]> features)
  else ret features.

Fixpoint features_of (items : list node) (features : dict) : M dict :=
  match items with
  | [] => ret features
  | item :: rest =>
      let* features := feature features item in
      features_of rest features
  end.

(** The [try] block of [_extract_listing_data]. *)
Definition extract_listing (listing_element : node) : M dict :=
  match select_one "a.listing-search-item__link--title" listing_element with
  | None => ret ∅
  | Some listing_link =>
      let* href :=
        match attr listing_link "href" with
        | Some href => ret href
        | None => raise (KeyError "href")
        end in
      let url := "https://www.pararius.com" +:+ href in
      let listing_id := last_segment url in
      let title := strip (text listing_link) in
      let price_elem :=
        select_one ".listing-search-item__price" listing_element in
      let price_text :=
        match price_elem with
        | Some p => strip (text p)
        | None => "Unknown"
        end in
      let* price :=
        match re_price price_text with
        | Some g =>
            match to_number (drop_separators g) with
            | Some n => ret (VNum n)
            | None => raise ValueError
            end
        | None => ret VNone
        end in
      let location_elem :=
        match select_one "div.listing-search-item__sub-title"
                listing_element with
        | Some d => Some d
        | None =>
            head (filter
                    (fun div =>
                       contains "sub-title"
                         (String.concat " " (default [] (classes div))) = true)
                    (select "div" listing_element))
        end in
      let location :=
        match location_elem with
        | Some d => strip (text d)
        | None => "Unknown"
        end in
      let* features :=
        features_of (select ".illustrated-features__item" listing_element)
          ∅ in
      let image_url :=
        match select_one "img.picture__image" listing_element with
        | Some img =>
            match attr img "src" with
            | Some src => VStr src
            | None => VNone
            end
        | None => VNone
        end in
      let agency :=
        match select_one
                ".listing-search-item__info .listing-search-item__link"
                listing_element with
        | Some a => strip (text a)
        | None => "Unknown"
        end in
      let* first_seen := now in
      let* last_updated := now in
      ret (<["id" := VStr listing_id]>
           (<["url" := VStr url]>
           (<["title" := VStr title]>
           (<["price" := price]>
           (<["size" := dict_get features "size"]>
           (<["rooms" := dict_get features "rooms"]>
           (<["location" := VStr location]>
           (<["interior" :=
                default (VStr "Unknown") (features !! "interior")]>
           (<["image_url" := image_url]>
           (<["agency" := VStr agency]>
           (<["first_seen" := VStr (isoformat first_seen)]>
           (<["last_updated" := VStr (isoformat last_updated)]>
            ∅))))))))))))
  end.

(** [except Exception]: whatever is raised, the answer is the empty
    dictionary. *)
Definition _extract_listing_data (listing_element : node) : M dict :=
  try_except (extract_listing listing_element) (fun _ => ret ∅).

(** [for listing_element in listing_elements]: an empty dictionary is
    false and is left out. *)
Fixpoint extract_each (listing_elements : list node) (all_listings : list dict)
    : M (list dict) :=
  match listing_elements with
  | [] => ret all_listings
  | listing_element :: rest =>
      let* listing_data := _extract_listing_data listing_element in
      if bool_decide (listing_data = ∅) then extract_each rest all_listings
      else extract_each rest (all_listings ++ [listing_data])
  end.

(** [for page in range(1, max_pages + 1)], over the pages still to visit. *)
Fixpoint scrape_pages (city : string) (pages : list Z)
    (all_listings : list dict) : M (list dict) :=
  match pages with
  | [] => ret all_listings
  | page :: rest =>
      let url := _build_search_url city page in
      let* soup := _make_request url in
      match soup with
      | None => ret all_listings
      | Some soup =>
          let listing_elements :=
            select ".search-list__item .listing-search-item" soup in
          match listing_elements with
          | [] => ret all_listings
          | _ =>
              let* all_listings :=
                extract_each listing_elements all_listings in
              match select_one ".pagination__link--next" soup with
              | None => ret all_listings
              | Some _ => scrape_pages city rest all_listings
              end
          end
      end
  end.

Definition scrape_city (city : string) (max_pages : Z) : M (list dict) :=
  scrape_pages city (seqZ 1 max_pages) [].

Fixpoint scrape_cities (cs : list string) (all_listings : list dict)
    : M (list dict) :=
  match cs with
  | [] => ret all_listings
  | city :: rest =>
      let* city_listings := scrape_city city 5 in
      scrape_cities rest (all_listings ++ city_listings)
  end.

Definition scrape_all_cities : M (list dict) :=
  scrape_cities (cities (config self)) [].

End Scraper.

(** The page of one listing. *)

(** [s.rstrip(':')] *)
Fixpoint rstrip_colon (s : string) : string :=
  match s with
  | EmptyString => EmptyString
  | String c s' =>
      let r := rstrip_colon s' in
      if Ascii.eqb c ":" && bool_decide (r = "") then EmptyString
      else String c r
  end.

(** What [get_listing_details] answers for a listing page.  The
    characteristics are a dictionary from labels to values, the images a
    list. *)
Record Details := {
  details_url : string;
  details_title : string;
  details_price : value;
  details_description : string;
  details_characteristics : gmap string string;
  details_available : string;
  details_images : list string;
  details_scraped_at : string;
}.

Section ListingDetails.
Context `{DateTime, Markup}.
Variable self : ParariusScraper.

(** The body of the loop over the characteristics. *)
Definition characteristic (characteristics : gmap string string) (elem : node)
    : gmap string string :=
  match select_one ".listing-features__label" elem,
        select_one ".listing-features__value" elem with
  | Some label_elem, Some value_elem =>
      let label := rstrip_colon (strip (text label_elem)) in
      let value := strip (text value_elem) in
      <[label := value]> characteristics
  | _, _ => characteristics
  end.

(** The [try] block of [get_listing_details]. *)
Definition extract_details (url : string) (soup : node) : M Details :=
  let title :=
    match select_one "h1" soup with
    | Some title_elem => strip (text title_elem)
    | None => "Unknown"
    end in
  let price_text :=
    match select_one ".listing-detail-summary__price" soup with
    | Some price_elem => strip (text price_elem)
    | None => "Unknown"
    end in
  let* price :=
    match re_price price_text with
    | Some g =>
        match to_number (drop_separators g) with
        | Some n => ret (VNum n)
        | None => raise ValueError
        end
    | None => ret VNone
    end in
  let description :=
    match select_one ".listing-detail-description__additional" soup with
    | Some description_elem => strip (text description_elem)
    | None => ""
    end in
  let characteristics :=
    foldl characteristic ∅
      (select ".listing-features__list .listing-features__feature" soup) in
  let available :=
    match select_one ".listing-detail-summary__item--available" soup with
    | Some available_elem => strip (text available_elem)
    | None => "Unknown"
    end in
  let images :=
    omap (fun img => attr img "src")
      (select ".listing-detail-media__images img" soup) in
  let* scraped_at := now in
  ret {| details_url := url;
         details_title := title;
         details_price := price;
         details_description := description;
         details_characteristics := characteristics;
         details_available := available;
         details_images := images;
         details_scraped_at := isoformat scraped_at |}.

(** [get_listing_details]; [None] is the empty dictionary.  The request is
    made outside the [try]. *)
Definition get_listing_details (url : string) : M (option Details) :=
  let* soup := _make_request self url in
  match soup with
  | None => ret None
  | Some soup =>
      try_except
        (let* details := extract_details url soup in ret (Some details))
        (fun _ => ret None)
  end.

End ListingDetails.

(** ** [main.py] *)

Section Main.
Context `{DateTime, Markup}.

Definition initial_stats : Stats :=
  {| success := false; new_listings_count := 0; updated_listings_count := 0;
     total_listings_count := 0; notification_sent := false; errors := [] |}.

(** The notification sink: [send_notification] catches whatever goes wrong
    inside and answers a boolean; [save_notification_history] catches
    everything too.  What the sink was given is recorded. *)
Definition send_notification (added updated : list loc) : M bool :=
  fun w =>
    (Ok (notifier_ok w),
     add_notified (obj (heap w) <$> added, obj (heap w) <$> updated) w).

(** [save_run_stats] appends to the history of runs. *)
Definition save_run_stats (stats : Stats) : M unit :=
  modify (add_run_stats stats).

(** [ListingStorage()]: [__init__] makes the directory [data], where
    [mkdir] raises an [OSError] when that cannot be done, and reads the
    maximum age. *)
Definition ListingStorage_init (cfg : Config) : M ListingStorage :=
  fun w =>
    if data_dir w
    then (Ok {| max_age_days := default 30 (max_listings_age_days cfg) |}, w)
    else (Raise OSError, w).

(** The statements of the [try] block after the configuration is loaded;
    the answer is [stats] as it stands when the block ends.  [stats] is
    written only after the last statement that can raise, so when the block
    raises [stats] is still the initial one. *)
Definition run (cfg : Config) : M Stats :=
  let scraper := ParariusScraper_init cfg in
  let* storage := ListingStorage_init cfg in
  let* removed_count := clean_old_listings storage in
  let* existing_listings := load_listings in
  let* new_scraped_listings := scrape_all_cities scraper in
  let* _ := save_latest_listings new_scraped_listings in
  let* new_scraped_listings := alloc_all new_scraped_listings in
  let* r := compare_listings storage new_scraped_listings existing_listings in
  let '(added_listings, updated_listings, all_current_listings) := r in
  let* _ := save_listings all_current_listings in
  let* notification_sent :=
    match added_listings, updated_listings with
    | [], [] => ret false
    | _, _ => send_notification added_listings updated_listings
    end in
  ret {| success := true;
         new_listings_count := length added_listings;
         updated_listings_count := length updated_listings;
         total_listings_count := length all_current_listings;
         notification_sent := notification_sent;
         errors := [] |}.

(** [main]: the exit code. *)
Definition main : M Z :=
  let* start_time := now in
  let* stats :=
    try_except
      (fun w =>
         match config_file w with
         | None =>
             (Ok {| success := false; new_listings_count := 0;
                    updated_listings_count := 0; total_listings_count := 0;
                    notification_sent := false;
                    errors := [ConfigurationError] |}, w)
         | Some cfg => run cfg w
         end)
      (fun e =>
         ret {| success := false; new_listings_count := 0;
                updated_listings_count := 0; total_listings_count := 0;
                notification_sent := false; errors := [ExecutionError e] |})
    in
  let* end_time := now in
  let* _ := save_run_stats stats in
  ret (if success stats then 0 else 1).

End Main.

(** ** Instances of the libraries, to run the model

    [Iso8601] reads and writes the timestamps [datetime.isoformat] writes,
    [YYYY-MM-DDTHH:MM:SS] with an optional [.ffffff] and, for an aware
    datetime, an offset [+HH:MM]; time is counted in microseconds from
    1970-01-01T00:00:00.  [Html] is a tree of elements and texts with the
    selectors the scraper uses (a tag, a class, both, and the descendant
    combinator), and the three regular expressions on ASCII digits and
    ASCII white space. *)

Module Iso8601.

Definition days_from_civil (y m d : Z) : Z :=
  let y := if bool_decide (m ≤ 2) then y - 1 else y in
  let era := y `div` 400 in
  let yoe := y - era * 400 in
  let mp := if bool_decide (m > 2) then m - 3 else m + 9 in
  let doy := (153 * mp + 2) `div` 5 + d - 1 in
  let doe := yoe * 365 + yoe `div` 4 - yoe `div` 100 + doy in
  era * 146097 + doe - 719468.

Definition civil_from_days (z : Z) : Z * Z * Z :=
  let z := z + 719468 in
  let era := z `div` 146097 in
  let doe := z - era * 146097 in
  let yoe :=
    (doe - doe `div` 1460 + doe `div` 36524 - doe `div` 146096) `div` 365 in
  let doy := doe - (365 * yoe + yoe `div` 4 - yoe `div` 100) in
  let mp := (5 * doy + 2) `div` 153 in
  let d := doy - (153 * mp + 2) `div` 5 + 1 in
  let m := if bool_decide (mp < 10) then mp + 3 else mp - 9 in
  let y := yoe + era * 400 in
  (if bool_decide (m ≤ 2) then y + 1 else y, m, d).

Definition days_in_month (y m : Z) : Z :=
  days_from_civil (if bool_decide (m = 12) then y + 1 else y)
                  (if bool_decide (m = 12) then 1 else m + 1) 1
  - days_from_civil y m 1.

Fixpoint zeros (n : nat) : string :=
  match n with
  | O => ""
  | S n' => "0" +:+ zeros n'
  end.

Definition pad (width : nat) (n : Z) : string :=
  let s := pretty n in
  zeros (width - String.length s) +:+ s.

Definition day_us : Z := 86400000000.

Definition isoformat (t : Z) : string :=
  let '(y, m, d) := civil_from_days (t `div` day_us) in
  let us := t `mod` day_us in
  let secs := us `div` 1000000 in
  let frac := us `mod` 1000000 in
  pad 4 y +:+ "-" +:+ pad 2 m +:+ "-" +:+ pad 2 d +:+ "T" +:+
  pad 2 (secs `div` 3600) +:+ ":" +:+ pad 2 ((secs `div` 60) `mod` 60) +:+ ":"
  +:+ pad 2 (secs `mod` 60) +:+
  (if bool_decide (frac = 0) then "" else "." +:+ pad 6 frac).

Definition is_digit (c : ascii) : bool :=
  let n := N_of_ascii c in bool_decide (48 ≤ n ≤ 57)%N.

Fixpoint digits_go (s : string) (acc : Z) : option Z :=
  match s with
  | EmptyString => Some acc
  | String c s' =>
      if is_digit c
      then digits_go s' (10 * acc + (Z.of_N (N_of_ascii c) - 48))
      else None
  end.

(** A non-empty string of decimal digits. *)
Definition number (s : string) : option Z :=
  match s with
  | EmptyString => None
  | _ => digits_go s 0
  end.

Definition field (from len : nat) (s : string) : option Z :=
  number (substring from len s).

Definition is_sign (s : string) : bool :=
  bool_decide (s = "+" ∨ s = "-").

Definition fromisoformat (s : string) : option parsed :=
  y ← field 0 4 s; m ← field 5 2 s; d ← field 8 2 s;
  hh ← field 11 2 s; mm ← field 14 2 s; ss ← field 17 2 s;
  guard (substring 4 1 s = "-" ∧ substring 7 1 s = "-" ∧
         substring 13 1 s = ":" ∧ substring 16 1 s = ":");;
  guard (1 ≤ y ∧ 1 ≤ m ≤ 12 ∧ 1 ≤ d ≤ days_in_month y m ∧
         hh < 24 ∧ mm < 60 ∧ ss < 60);;
  let whole :=
    days_from_civil y m d * day_us + ((hh * 60 + mm) * 60 + ss) * 1000000 in
  let len := String.length s in
  if bool_decide (len = 19%nat) then Some (Naive whole)
  else if bool_decide (len = 26%nat ∧ substring 19 1 s = ".") then
    us ← field 20 6 s; Some (Naive (whole + us))
  else if bool_decide (len = 25%nat ∧ is_sign (substring 19 1 s) = true ∧
                       substring 22 1 s = ":") then
    _ ← field 20 2 s; _ ← field 23 2 s; Some Aware
  else if bool_decide (len = 32%nat ∧ substring 19 1 s = "." ∧
                       is_sign (substring 26 1 s) = true ∧
                       substring 29 1 s = ":") then
    _ ← field 20 6 s; _ ← field 27 2 s; _ ← field 30 2 s; Some Aware
  else None.

End Iso8601.

#[global] Instance iso8601 : DateTime :=
  {| isoformat := Iso8601.isoformat;
     fromisoformat := Iso8601.fromisoformat |}.

Module Html.

#[warnings="-register-all"] Inductive tree :=
  | Text (s : string)
  | Elem (tag : string) (attrs : list (string * string)) (children : list tree).

(** An element of a document: the tree below it and the elements above it,
    the nearest first. *)
Definition element : Type := list tree * tree.

Definition document (t : tree) : element := ([], t).

Fixpoint descendants (above : list tree) (t : tree) : list element :=
  match t with
  | Text _ => []
  | Elem _ _ children =>
      (fix go (cs : list tree) : list element :=
         match cs with
         | [] => []
         | c :: cs' =>
             match c with
             | Text _ => go cs'
             | Elem _ _ _ =>
                 (t :: above, c) :: descendants (t :: above) c ++ go cs'
             end
         end) children
  end.

Fixpoint text_of (t : tree) : string :=
  match t with
  | Text s => s
  | Elem _ _ children =>
      (fix go (cs : list tree) : string :=
         match cs with
         | [] => ""
         | c :: cs' => text_of c +:+ go cs'
         end) children
  end.

Definition tag_of (t : tree) : string :=
  match t with
  | Text _ => ""
  | Elem tag _ _ => tag
  end.

Fixpoint assoc (k : string) (l : list (string * string)) : option string :=
  match l with
  | [] => None
  | (k', v) :: l' => if decide (k' = k) then Some v else assoc k l'
  end.

Definition attr_of (t : tree) (k : string) : option string :=
  match t with
  | Text _ => None
  | Elem _ attrs _ => assoc k attrs
  end.

Definition is_space (c : ascii) : bool :=
  let n := N_of_ascii c in
  bool_decide ((9 ≤ n ≤ 13)%N ∨ (28 ≤ n ≤ 32)%N).

(** Split at the characters [sep] accepts, dropping empty pieces. *)
Fixpoint split_go (sep : ascii → bool) (s : string) (word : string)
    : list string :=
  match s with
  | EmptyString => if decide (word = "") then [] else [word]
  | String c s' =>
      if sep c
      then (if decide (word = "") then [] else [word]) ++ split_go sep s' ""
      else split_go sep s' (word +:+ String c EmptyString)
  end.

Definition words (s : string) : list string := split_go is_space s "".

Definition classes_of (t : tree) : option (list string) :=
  words <$> attr_of t "class".

(** A compound selector: [tag], [.class] or [tag.class]. *)
Definition compound (sel : string) : string * option string :=
  match String.index 0 "." sel with
  | Some i =>
      (substring 0 i sel,
       Some (substring (S i) (String.length sel - S i) sel))
  | None => (sel, None)
  end.

Definition matches (sel : string) (t : tree) : bool :=
  let '(tag, cls) := compound sel in
  match t with
  | Text _ => false
  | Elem _ _ _ =>
      bool_decide (tag = "" ∨ tag_of t = tag) &&
      match cls with
      | Some c => bool_decide (c ∈ default [] (classes_of t))
      | None => true
      end
  end.

(** The descendant combinator, from the innermost compound outwards. *)
Fixpoint above_match (sels : list string) (above : list tree) : bool :=
  match sels with
  | [] => true
  | sel :: sels' =>
      (fix find (ts : list tree) : bool :=
         match ts with
         | [] => false
         | t :: ts' =>
             if matches sel t then above_match sels' ts' else find ts'
         end) above
  end.

Definition selects (sel : string) (e : element) : bool :=
  match reverse (split_go (fun c => Ascii.eqb c " ") sel "") with
  | [] => false
  | last :: before => matches last e.2 && above_match before e.1
  end.

Definition select (sel : string) (e : element) : list element :=
  filter (fun d => selects sel d = true) (descendants e.1 e.2).

Fixpoint drop_spaces (s : string) : string :=
  match s with
  | EmptyString => EmptyString
  | String c s' => if is_space c then drop_spaces s' else s
  end.

Definition strip (s : string) : string :=
  String.rev (drop_spaces (String.rev (drop_spaces s))).

Fixpoint strip_prefix (p s : string) : option string :=
  match p, s with
  | EmptyString, _ => Some s
  | String a p', String b s' =>
      if Ascii.eqb a b then strip_prefix p' s' else None
  | _, _ => None
  end.

(** The longest prefix of characters [P] accepts, and what follows. *)
Fixpoint span (P : ascii → bool) (s : string) : string * string :=
  match s with
  | EmptyString => (EmptyString, EmptyString)
  | String c s' =>
      if P c then let '(a, b) := span P s' in (String c a, b)
      else (EmptyString, s)
  end.

(** [re.search]: the match at the leftmost position that has one. *)
Fixpoint search {A} (at_start : string → option A) (s : string) : option A :=
  match at_start s with
  | Some a => Some a
  | None =>
      match s with
      | EmptyString => None
      | String _ s' => search at_start s'
      end
  end.

Definition is_price_char (c : ascii) : bool :=
  Iso8601.is_digit c || Ascii.eqb c "," || Ascii.eqb c ".".

Definition price_at (s : string) : option string :=
  rest ← strip_prefix "€" s;
  let '(g, _) := span is_price_char (drop_spaces rest) in
  if decide (g = "") then None else Some g.

Definition digits_then (unit : string) (s : string) : option string :=
  let '(g, rest) := span Iso8601.is_digit s in
  if decide (g = "") then None
  else _ ← strip_prefix unit (drop_spaces rest); Some g.

Definition re_price : string → option string := search price_at.
Definition re_size : string → option string := search (digits_then "m²").
Definition re_rooms : string → option string := search (digits_then "room").

Fixpoint drop_separators (s : string) : string :=
  match s with
  | EmptyString => EmptyString
  | String c s' =>
      if Ascii.eqb c "," || Ascii.eqb c "." then drop_separators s'
      else String c (drop_separators s')
  end.

(** Every character of [s] is one [P] accepts. *)
Fixpoint all_chars (P : ascii → bool) (s : string) : bool :=
  match s with
  | EmptyString => true
  | String c s' => P c && all_chars P s'
  end.

End Html.

#[global] Instance html : Markup :=
  {| node := Html.element;
     select := Html.select;
     text := fun e => Html.text_of e.2;
     attr := fun e => Html.attr_of e.2;
     classes := fun e => Html.classes_of e.2;
     strip := Html.strip;
     re_price := Html.re_price;
     re_size := Html.re_size;
     re_rooms := Html.re_rooms;
     to_number := Iso8601.number;
     drop_separators := Html.drop_separators |}.

(** * The vocabulary of the statements

    What the theorems below speak of: the weakest precondition of a
    computation in [M], the functions of the store that the monadic code
    computes, the invariant of the classification loop and the
    postconditions of the loops. *)

Section Vocabulary.
Context `{DateTime, Markup}.

(** [wp E m Q w]: run from [w], [m] returns a value and a world that
    satisfy [Q], or it raises and [E] holds.  With [E := True] this is
    partial correctness, with [E := False] it says that [m] returns. *)
Definition wp {A} (E : Prop) (m : M A) (Q : A → world → Prop) (w : world)
    : Prop :=
  match m w with
  | (Ok a, w') => Q a w'
  | (Raise _, _) => E
  end.

Definition listing_id (h : list dict) (l : loc) : option value :=
  hash_key <$> obj h l !! "id".

Definition has_id (h : list dict) (l : loc) : Prop :=
  is_Some (obj h l !! "id").

Definition is_updated (new_listing existing_listing : dict) : bool :=
  py_ne (dict_get new_listing "price") (dict_get existing_listing "price")
  || py_ne (dict_get new_listing "available")
           (dict_get existing_listing "available")
  || py_ne (dict_get new_listing "description")
           (dict_get existing_listing "description").

(** A record none of whose compared fields is NaN. *)
Definition comparable (d : dict) : Prop :=
  dict_get d "price" ≠ VNaN ∧ dict_get d "available" ≠ VNaN ∧
  dict_get d "description" ≠ VNaN.

(** The index [index_by_id] builds, as a function of the store. *)
Fixpoint index_of (h : list dict) (ls : list loc) (acc : odict)
    : option odict :=
  match ls with
  | [] => Some acc
  | l :: ls' =>
      match obj h l !! "id" with
      | Some i => index_of h ls' (od_set (hash_key i) l acc)
      | None => None
      end
  end.

(** The world after [n] more readings of the clock. *)
Fixpoint ticks (n : nat) (w : world) : world :=
  match n with
  | O => w
  | S n' => tick (ticks n' w)
  end.

(** The fields the messages and the update read. *)
Definition loggable (h : list dict) (l : loc) : Prop :=
  is_Some (obj h l !! "title") ∧ is_Some (obj h l !! "url").

Definition well_formed (h : list dict) (new existing : list loc) : Prop :=
  (∀ l, l ∈ new → loggable h l) ∧
  (∀ e, e ∈ existing → is_Some (obj h e !! "first_seen")).

(** A [first_seen] the age test cannot use: not a string, a string that
    is not a timestamp, or the timestamp of an aware datetime. *)
Definition unusable (v : value) : Prop :=
  match v with
  | VStr s => fromisoformat s = None ∨ fromisoformat s = Some Aware
  | _ => True
  end.

(** What reaches the notification sink. *)
Definition notification (h : list dict) (added updated : list loc)
    : list (list dict * list dict) :=
  match added, updated with
  | [], [] => []
  | _, _ => [(obj h <$> added, obj h <$> updated)]
  end.

End Vocabulary.

(** ** The age test and the loops that use it *)

Section Verdict.
Context `{DateTime, Markup}.
Variable self : ListingStorage.

(** The answer of [_is_listing_too_old] for an object, given the reading
    [t0] used for the default and the reading [t1] used for the age. *)
Definition too_old_verdict (d : dict) (t0 t1 : Z) : result bool :=
  match default (VStr (isoformat t0)) (d !! "first_seen") with
  | VStr s =>
      match fromisoformat s with
      | None => Ok false
      | Some p =>
          if bool_decide (-999999999 ≤ max_age_days self ≤ 999999999) then
            match p with
            | Naive fs =>
                Ok (bool_decide (max_age_days self * 86400000000 < t1 - fs))
            | Aware => Ok false
            end
          else Raise OverflowError
      end
  | _ => Ok false
  end.

(** The readings of the clock [_is_listing_too_old] takes: one for the
    default of [first_seen] and, once [first_seen] is parsed and the
    [timedelta] built, one for the age. *)
Definition too_old_readings (d : dict) (t0 : Z) : nat :=
  match default (VStr (isoformat t0)) (d !! "first_seen") with
  | VStr s =>
      match fromisoformat s with
      | Some _ =>
          if bool_decide (-999999999 ≤ max_age_days self ≤ 999999999)
          then 2 else 1
      | None => 1
      end
  | _ => 1
  end.

End Verdict.

Section Posts.
Context `{DateTime, Markup}.
Variable self : ListingStorage.

(** Between [w] and [w'] the age test of [e] ran from the reading [n] of
    the clock on, and answered [b]: its readings are readings taken between
    the two. *)
Definition tested (w w' : world) (e : loc) (n : nat) (b : bool) : Prop :=
  (reads w ≤ n)%nat ∧
  (n + too_old_readings self (obj (heap w) e) (clock w n) ≤ reads w')%nat ∧
  too_old_verdict self (obj (heap w) e) (clock w n) (clock w (S n)) = Ok b.

(** What [preserve] keeps: a sublist of the stored records whose id is not
    new; each of these is tested, is kept when the test answers [False] and,
    the stored objects being distinct, only then. *)
Definition preserve_post (nb items : odict) (w : world)
    (pl : list loc) (w' : world) : Prop :=
  (∃ j, w' = ticks j w) ∧
  (∃ sub, pl = od_values sub ∧ sub `sublist_of` items ∧
          ∀ k e, (k, e) ∈ sub → k ∉ od_keys nb) ∧
  (∀ k e, (k, e) ∈ items → k ∉ od_keys nb →
     ∃ n b, tested w w' e n b ∧
            (b = false → e ∈ pl) ∧
            (NoDup (od_values items) → e ∈ pl → b = false)) ∧
  (∀ e, e ∈ pl → ∃ k n, (k, e) ∈ items ∧ (k ∉ od_keys nb) ∧
     tested w w' e n false).

(** What [keep_young] keeps. *)
Definition keep_young_post (ls : list loc) (w : world)
    (kept : list loc) (w' : world) : Prop :=
  (∃ j, w' = ticks j w) ∧
  kept `sublist_of` ls ∧
  (∀ l, l ∈ kept → ∃ n,
     too_old_verdict self (obj (heap w) l) (clock w n) (clock w (S n))
     = Ok false).

(** The inputs on which [compare_listings] returns: every record has an
    id, every new record the fields of the logged messages, every stored
    record a [first_seen], and the maximum age is one [timedelta] takes. *)
Definition reconcilable (h : list dict) (new existing : list loc) : Prop :=
  (∀ l, l ∈ new ++ existing → has_id h l) ∧
  well_formed h new existing ∧
  -999999999 ≤ max_age_days self ≤ 999999999.

End Posts.

(** ** The invariant of the classification loop

    [w0] is the world when the loop starts, [items] the new index it runs
    over, [visited] the items it has been through. *)

Section LoopInvariant.
Context `{DateTime, Markup}.
Variables new_listings existing_listings : list loc.
Variable w0 : world.
Variables existing_by_id items : odict.

Local Abbreviation h0 := (heap w0).

(** What the loop has done to a listing it put in [added_listings]. *)
Definition added_ok (nb : odict) (w : world) (l : loc) : Prop :=
  l ∈ new_listings ∧
  ∃ k, listing_id h0 l = Some k ∧ od_get k existing_by_id = None ∧
       od_get k nb = Some l ∧ obj (heap w) l = obj h0 l.

(** What it has done to one it put in [updated_listings]. *)
Definition updated_ok (nb : odict) (w : world) (l : loc) : Prop :=
  l ∈ new_listings ∧
  ∃ k e fs n,
    listing_id h0 l = Some k ∧ od_get k existing_by_id = Some e ∧
    od_get k nb = Some l ∧
    is_updated (obj h0 l) (obj h0 e) = true ∧
    obj h0 e !! "first_seen" = Some fs ∧
    (reads w0 ≤ n < reads w)%nat ∧
    obj (heap w) l =
      <["last_updated" := VStr (isoformat (clock w0 n))]>
        (<["first_seen" := fs]> (obj h0 l)).

(** Where an item that has been visited went. *)
Definition classified (nb : odict) (a u : list loc) (k : value) (l : loc)
    : Prop :=
  match od_get k existing_by_id with
  | None => l ∈ a
  | Some e =>
      if is_updated (obj h0 l) (obj h0 e) then l ∈ u
      else od_get k nb = Some e
  end.

Record Inv (visited : odict) (st : odict * list loc * list loc) (w : world)
    : Prop := {
  inv_clock : clock w = clock w0;
  inv_reads : (reads w0 ≤ reads w)%nat;
  inv_id : ∀ l, obj (heap w) l !! "id" = obj h0 l !! "id";
  inv_frame : ∀ l, (∀ k, listing_id h0 l = Some k → k ∉ od_keys visited) →
                obj (heap w) l = obj h0 l;
  inv_keys : od_keys st.1.1 = od_keys items;
  inv_entries : ∀ k l, (k, l) ∈ st.1.1 →
      listing_id h0 l = Some k ∧ (l ∈ new_listings ∨ l ∈ existing_listings);
  inv_todo : ∀ k l, (k, l) ∈ items → k ∉ od_keys visited →
      od_get k st.1.1 = Some l;
  inv_added : ∀ l, l ∈ st.1.2 → added_ok st.1.1 w l;
  inv_updated : ∀ l, l ∈ st.2 → updated_ok st.1.1 w l;
  inv_visited : ∀ l, l ∈ st.1.2 ++ st.2 →
      ∃ k, k ∈ od_keys visited ∧ listing_id h0 l = Some k;
  inv_classified : ∀ k l, (k, l) ∈ visited →
      classified st.1.1 st.1.2 st.2 k l;
  inv_kept : ∀ k l e, (k, l) ∈ visited →
      od_get k existing_by_id = Some e →
      is_updated (obj h0 l) (obj h0 e) = false →
      obj (heap w) e = obj h0 e;
}.

End LoopInvariant.

Section ComparePost.
Context `{DateTime, Markup}.
Variable self : ListingStorage.

(** Everything the run of [compare_listings] establishes: the two indexes,
    the invariant of the classification loop at its end, and what the
    comprehension kept. *)
Definition compare_post (new existing : list loc) (w : world)
    (r : list loc * list loc * list loc) (w' : world) : Prop :=
  ∃ eb nb0 nb w1 pl,
    index_of (heap w) existing [] = Some eb ∧
    index_of (heap w) new [] = Some nb0 ∧
    Inv new existing w eb nb0 nb0 (nb, r.1.1, r.1.2) w1 ∧
    preserve_post self nb eb w1 pl w' ∧
    r.2 = od_values nb ++ pl.

End ComparePost.

(** ** The search URL in words *)

(** The URL as the specification words it: a segment is there when its
    setting is set. *)
Definition spec_price_segment (cfg : Config) : option string :=
  match price_min cfg, price_max cfg with
  | Some (Some mn), Some mx => Some (pretty mn +:+ "-" +:+ pretty mx)
  | Some (Some mn), None => Some (pretty mn +:+ "+")
  | _, Some mx => Some ("0-" +:+ pretty mx)
  | _, None => None
  end.

Definition spec_page_segment (page : Z) : option string :=
  if bool_decide (1 < page) then Some ("page-" +:+ pretty page) else None.

Definition url_of_segments (city : string) (segments : list (option string))
    : string :=
  foldl (fun url segment =>
           match segment with
           | Some s => url +:+ "/" +:+ s
           | None => url
           end)
        (BASE_URL +:+ "/" +:+ city) segments.

Definition spec_search_url (cfg : Config) (city : string) (page : Z)
    : string :=
  url_of_segments city
    [spec_price_segment cfg;
     (fun n => pretty n +:+ "-bedrooms") <$> min_bedrooms cfg;
     (fun n => pretty n +:+ "-m2") <$> min_size cfg;
     spec_page_segment page].

(** The same with the settings read as the code reads them: a number that
    is 0 counts as not set, except that a minimum price that is absent is
    the number 0 next to a maximum. *)
Definition nonzero (x : option Z) : option Z :=
  match x with
  | Some n => if bool_decide (n = 0) then None else Some n
  | None => None
  end.

Definition amended_price_segment (cfg : Config) : option string :=
  match price_min cfg, price_max cfg with
  | Some (Some mn), Some mx => Some (pretty mn +:+ "-" +:+ pretty mx)
  | None, Some mx => Some ("0-" +:+ pretty mx)
  | Some None, Some mx => (fun n => "0-" +:+ pretty n) <$> nonzero (Some mx)
  | Some (Some mn), None => (fun n => pretty n +:+ "+") <$> nonzero (Some mn)
  | _, None => None
  end.

Definition amended_search_url (cfg : Config) (city : string) (page : Z)
    : string :=
  url_of_segments city
    [amended_price_segment cfg;
     (fun n => pretty n +:+ "-bedrooms") <$> nonzero (min_bedrooms cfg);
     (fun n => pretty n +:+ "-m2") <$> nonzero (min_size cfg);
     spec_page_segment page].

(** ** The events of the fetcher *)

Section Attempts.
Variable self : ParariusScraper.

(** The events of [k] attempts that fail and are followed by another. *)
Fixpoint failed_attempts (url : string) (k : nat) : list event :=
  match k with
  | O => []
  | S k' =>
      EvGet url :: EvSleep (request_delay self * 2) :: failed_attempts url k'
  end.

End Attempts.

(** ** The two halves of [run] *)

Section Halves.
Context `{DateTime, Markup}.

(** The statements of [run] up to and including the call of
    [compare_listings] ... *)
Definition reconcile (cfg : Config)
    : M (list loc * list loc * list loc) :=
  let scraper := ParariusScraper_init cfg in
  let* storage := ListingStorage_init cfg in
  let* removed_count := clean_old_listings storage in
  let* existing_listings := load_listings in
  let* new_scraped_listings := scrape_all_cities scraper in
  let* _ := save_latest_listings new_scraped_listings in
  let* new_scraped_listings := alloc_all new_scraped_listings in
  compare_listings storage new_scraped_listings existing_listings.

(** ... and the statements after it. *)
Definition persist_and_notify (r : list loc * list loc * list loc) : M Stats :=
  let '(added_listings, updated_listings, all_current_listings) := r in
  let* _ := save_listings all_current_listings in
  let* notification_sent :=
    match added_listings, updated_listings with
    | [], [] => ret false
    | _, _ => send_notification added_listings updated_listings
    end in
  ret {| success := true;
         new_listings_count := length added_listings;
         updated_listings_count := length updated_listings;
         total_listings_count := length all_current_listings;
         notification_sent := notification_sent;
         errors := [] |}.

End Halves.

(** ** What a computation leaves alone *)

Section Footprint.
Context `{DateTime, Markup}.

(** [keeps f m]: whether [m] returns or raises, the part [f] of the world
    is after it what it was before. *)
Definition keeps {A B} (f : world → B) (m : M A) : Prop :=
  ∀ w, f (m w).2 = f w.

End Footprint.

(** ** Records and stores *)

(** The keys of a record the extractor makes. *)
Definition listing_keys : list string :=
  ["id"; "url"; "title"; "price"; "size"; "rooms"; "location"; "interior";
   "image_url"; "agency"; "first_seen"; "last_updated"].

(** A dictionary with the keys of a record and no other. *)
Definition record (d : dict) : Prop :=
  ∀ key, is_Some (d !! key) ↔ key ∈ listing_keys.

(** A file that [load_listings] reads without raising. *)
Definition readable (f : file) : Prop := f ≠ Undecodable ∧ f ≠ Scalar.

(** A store [main] can work with: the file is readable and each record in
    it has an ['id'] and a ['first_seen']. *)
Definition usable_store (f : file) : Prop :=
  match f with
  | Missing | Corrupt => True
  | Content stored =>
      ∀ d, d ∈ stored → is_Some (d !! "id") ∧ is_Some (d !! "first_seen")
  | Undecodable | Scalar => False
  end.

(** The entry of a run that failed, with the note of what went wrong. *)
Definition failed_run (note : error_note) : Stats :=
  {| success := false; new_listings_count := 0; updated_listings_count := 0;
     total_listings_count := 0; notification_sent := false;
     errors := [note] |}.

(** * Concrete inputs *)

Module Inputs.

(** The clock says 2024-01-01T00:00:00 at its first reading and one
    microsecond more at each reading after. *)
Definition clock_2024 (n : nat) : Z := 1704067200000000 + Z.of_nat n.

Definition listing (id : string) (price : Z) (first_seen : string) : dict :=
  list_to_map
    [("id", VStr id);
     ("url", VStr ("https://www.pararius.com/apartment-for-rent/rotterdam/"
                   +:+ id));
     ("title", VStr "Flat"); ("price", VNum price);
     ("first_seen", VStr first_seen); ("last_updated", VStr first_seen)].

Definition offline : nat → string → response := fun _ _ => RespFail.

(** The directory [data] can be made; [disk] says which writes work, and
    those that do not are refused at the [open]. *)
Definition world_of (h : list dict) (net : nat → string → response)
    (cfg : option Config) (store : file) (disk : nat → bool) : world :=
  World h clock_2024 0 net 0 [] cfg true store Missing
    (fun n => if disk n then Written else Refused) 0 true [] [].

(** A store object by object: [a] and [b] are stored, [a] is re-seen with
    another price and [c] is new. *)
Definition objects : list dict :=
  [listing "a" 1000 "2023-12-20T08:00:00";
   listing "b" 1200 "2023-12-25T08:00:00";
   listing "a" 1100 "2024-01-01T00:00:00";
   listing "c" 900 "2024-01-01T00:00:00"].

Definition memory : world := world_of objects offline None Missing (fun _ => true).

Definition storage : ListingStorage := {| max_age_days := 30 |}.

(** The run of [compare_listings] on [memory]: [c] is added, [a] is
    updated, [b] is kept from the store. *)
Definition reconciled : world :=
  (compare_listings storage [2; 3]%nat [0; 1]%nat memory).2.

(** A store with one record seen a year ago, and nothing crawled. *)
Definition stale : world :=
  world_of [listing "z" 500 "2023-01-01T00:00:00"] offline None Missing
    (fun _ => true).

(** A results page with one listing and no next page. *)
Definition results_page (id price : string) : Html.tree :=
  Html.Elem "html" []
    [Html.Elem "ul" [("class", "search-list")]
       [Html.Elem "li" [("class", "search-list__item")]
          [Html.Elem "section" [("class", "listing-search-item")]
             [Html.Elem "a"
                [("class", "listing-search-item__link--title");
                 ("href", "/apartment-for-rent/rotterdam/" +:+ id)]
                [Html.Text "Flat"];
              Html.Elem "div" [("class", "listing-search-item__price")]
                [Html.Text price]]]]].

Definition online (id price : string) : nat → string → response :=
  fun _ _ => RespOk (Html.document (results_page id price)).

Definition rotterdam : Config :=
  {| cities := ["rotterdam"]; price_min := None; price_max := None;
     min_bedrooms := None; min_size := None; max_listings_age_days := None;
     request_delay_cfg := None; max_retries_cfg := None |}.

(** The store holds [a], first seen a year ago; the crawl finds [a]
    again, at the same price. *)
Definition revisited : world :=
  world_of [] (online "a" "€ 1,000 per month") (Some rotterdam)
    (Content [listing "a" 1000 "2023-01-01T00:00:00"]) (fun _ => true).

(** The same store, where every write fails after the [open]. *)
Definition interrupted : world :=
  World [] clock_2024 0 offline 0 [] (Some rotterdam) true
    (Content [listing "a" 1000 "2023-01-01T00:00:00"]) Missing
    (fun _ => Cut) 0 true [] [].

(** A store that is no text. *)
Definition binary : world :=
  world_of [] offline (Some rotterdam) Undecodable (fun _ => true).

(** C5 as it is stated, for the run of [main] from [w]: a stored record
    whose id is the id of a crawled record is in the store after the run,
    with its [first_seen]. *)
Definition reseen_keeps_first_seen (w : world) : Prop :=
  ∀ stored crawled d f,
    listings_file w = Content stored → d ∈ stored →
    latest_file (main w).2 = Content crawled → f ∈ crawled →
    d !! "id" = f !! "id" →
    ∃ stored' d',
      listings_file (main w).2 = Content stored' ∧ d' ∈ stored' ∧
      d' !! "id" = d !! "id" ∧ d' !! "first_seen" = d !! "first_seen".

(** The configuration of the specification's example. *)
Definition example_scraper : ParariusScraper :=
  ParariusScraper_init
    {| cities := ["rotterdam"]; price_min := Some (Some 800);
       price_max := Some 1500; min_bedrooms := Some 2; min_size := Some 50;
       max_listings_age_days := None; request_delay_cfg := None;
       max_retries_cfg := None |}.

(** Settings that are set, to 0. *)
Definition zero_bedrooms : ParariusScraper :=
  ParariusScraper_init
    {| cities := ["rotterdam"]; price_min := None; price_max := None;
       min_bedrooms := Some 0; min_size := None;
       max_listings_age_days := None; request_delay_cfg := None;
       max_retries_cfg := None |}.

Definition zero_minimum_price : ParariusScraper :=
  ParariusScraper_init
    {| cities := ["rotterdam"]; price_min := Some (Some 0);
       price_max := None; min_bedrooms := None; min_size := None;
       max_listings_age_days := None; request_delay_cfg := None;
       max_retries_cfg := None |}.

(** A scraper with the default delay of 5 and the default 3 attempts, and
    a network on which every request fails. *)
Definition default_scraper : ParariusScraper := ParariusScraper_init rotterdam.

(** A listing fragment with a title link and no price element. *)
Definition priceless_fragment : Html.tree :=
  Html.Elem "section" [("class", "listing-search-item")]
    [Html.Elem "a"
       [("class", "listing-search-item__link--title");
        ("href", "/apartment-for-rent/rotterdam/p1")]
       [Html.Text "Flat"]].

Definition priceless : Html.element := Html.document priceless_fragment.

Definition priceless_link : Html.element :=
  ([priceless_fragment],
   Html.Elem "a"
     [("class", "listing-search-item__link--title");
      ("href", "/apartment-for-rent/rotterdam/p1")]
     [Html.Text "Flat"]).

(** The crawl finds one listing and no write works. *)
Definition read_only : world :=
  world_of [] (online "a" "€ 1,000 per month") (Some rotterdam) Missing
    (fun _ => false).

(** C9 as it is stated, for the run of [main] from [w]. *)
Definition write_failure_surfaces (w : world) : Prop :=
  (∀ n, write_ok w n = false) → (main w).1 ≠ Ok 0.

(** A stored record without ['first_seen'] and a new record with its id
    and another price. *)
Definition undated : world :=
  world_of
    [list_to_map [("id", VStr "a"); ("price", VNum 1000)];
     listing "a" 1100 "2024-01-01T00:00:00"]
    offline None Missing (fun _ => true).

(** A store with one record, whose price is NaN. *)
Definition priced_nan : world :=
  world_of [<["price" := VNaN]> (listing "n" 0 "2023-12-25T08:00:00")]
    offline None Missing (fun _ => true).

(** C2 as it is stated, for the list [S] of records of [w]. *)
Definition reconciles_to_itself (w : world) (S : list loc) : Prop :=
  Forall (has_id (heap w)) S → NoDup (listing_id (heap w) <$> S) →
  ∃ all_current,
    (compare_listings storage S S w).1 = Ok ([], [], all_current) ∧
    length all_current = length S.

(** A record without ['id']. *)
Definition anonymous : world :=
  world_of [list_to_map [("title", VStr "Flat")]] offline None Missing
    (fun _ => true).

(** Two new records with the id [a], at two prices. *)
Definition duplicated : world :=
  world_of [listing "a" 1000 "2024-01-01T00:00:00";
            listing "a" 1100 "2024-01-01T00:00:00"]
    offline None Missing (fun _ => true).

(** [a] is stored; the crawl finds it again at the same price, under
    another title. *)
Definition retitled : world :=
  world_of [listing "a" 1000 "2023-12-20T08:00:00";
            <["title" := VStr "Loft"]> (listing "a" 1000 "2024-01-01T00:00:00")]
    offline None Missing (fun _ => true).

(** A scraper with a negative delay, and one that is allowed no request. *)
Definition hasty : ParariusScraper :=
  ParariusScraper_init
    {| cities := ["rotterdam"]; price_min := None; price_max := None;
       min_bedrooms := None; min_size := None; max_listings_age_days := None;
       request_delay_cfg := Some (-1); max_retries_cfg := None |}.

Definition idle : ParariusScraper :=
  ParariusScraper_init
    {| cities := ["rotterdam"]; price_min := None; price_max := None;
       min_bedrooms := None; min_size := None; max_listings_age_days := None;
       request_delay_cfg := None; max_retries_cfg := Some 0 |}.

(** C7 as it is stated, for a page no request of which succeeds. *)
Definition gives_up_quietly (self : ParariusScraper) (url : string)
    (w : world) : Prop :=
  (∀ i, transport w i url = RespFail) →
  ∃ w', _make_request self url w = (Ok None, w').

(** Listing fragments: one without title link, one whose title link has no
    [href], one whose price has separators and no digit. *)
Definition linkless : Html.element :=
  Html.document
    (Html.Elem "section" [("class", "listing-search-item")]
       [Html.Elem "div" [("class", "listing-search-item__price")]
          [Html.Text "€ 1,000 per month"]]).

Definition hrefless : Html.element :=
  Html.document
    (Html.Elem "section" [("class", "listing-search-item")]
       [Html.Elem "a" [("class", "listing-search-item__link--title")]
          [Html.Text "Flat"]]).

Definition garbled : Html.element :=
  Html.document
    (Html.Elem "section" [("class", "listing-search-item")]
       [Html.Elem "a"
          [("class", "listing-search-item__link--title");
           ("href", "/apartment-for-rent/rotterdam/g1")]
          [Html.Text "Flat"];
        Html.Elem "div" [("class", "listing-search-item__price")]
          [Html.Text "€ ,"]]).

(** The page of a listing, and a network that serves it. *)
Definition details_page : Html.tree :=
  Html.Elem "html" []
    [Html.Elem "h1" [] [Html.Text " Flat Coolsingel "];
     Html.Elem "div" [("class", "listing-detail-summary__price")]
       [Html.Text "€ 1,450 per month"];
     Html.Elem "dl" [("class", "listing-features__list")]
       [Html.Elem "div" [("class", "listing-features__feature")]
          [Html.Elem "dt" [("class", "listing-features__label")]
             [Html.Text "Size:"];
           Html.Elem "dd" [("class", "listing-features__value")]
             [Html.Text "75 m²"]]];
     Html.Elem "div" [("class", "listing-detail-media__images")]
       [Html.Elem "img" [("src", "/images/1.jpg")] [];
        Html.Elem "img" [("alt", "no source")] []]].

Definition browsing : world :=
  world_of [] (fun _ _ => RespOk (Html.document details_page)) None Missing
    (fun _ => true).

End Inputs.

(** * Proofs *)

(** ** Ordered dictionaries *)

Lemma od_get_set_eq k l (d : odict) : od_get k (od_set k l d) = Some l.
Proof.
  induction d as [|[k' l'] d IH]; csimpl.
  - by rewrite decide_True.
  - destruct (decide (k' = k)) as [->|Hne]; csimpl.
    + by rewrite decide_True.
    + by rewrite decide_False.
Qed.

Lemma od_get_set_ne k k' l (d : odict) :
  k ≠ k' → od_get k' (od_set k l d) = od_get k' d.
Proof.
  intros Hne. induction d as [|[k1 l1] d IH]; csimpl.
  - by rewrite decide_False.
  - destruct (decide (k1 = k)) as [->|Hne1]; csimpl.
    + by rewrite !decide_False.
    + destruct (decide (k1 = k')); [done|apply IH].
Qed.

Lemma od_get_None k (d : odict) : od_get k d = None ↔ k ∉ od_keys d.
Proof.
  unfold od_keys. induction d as [|[k' l'] d IH]; csimpl.
  - split; [intros _; apply not_elem_of_nil|done].
  - rewrite not_elem_of_cons. destruct (decide (k' = k)) as [->|Hne].
    + split; [done|intros [? _]; done].
    + rewrite IH. split; [intros ?; by split|by intros [_ ?]].
Qed.

Lemma od_get_Some_elem k l (d : odict) : od_get k d = Some l → (k, l) ∈ d.
Proof.
  induction d as [|[k' l'] d IH]; csimpl; [done|].
  destruct (decide (k' = k)) as [->|Hne].
  - intros [= ->]. apply elem_of_cons; by left.
  - intros Hg. apply elem_of_cons; right; by apply IH.
Qed.

Lemma od_elem_get k l (d : odict) :
  NoDup (od_keys d) → (k, l) ∈ d → od_get k d = Some l.
Proof.
  unfold od_keys. induction d as [|[k' l'] d IH]; csimpl.
  - intros _ Hin. by apply elem_of_nil in Hin.
  - intros [Hnotin Hnd]%NoDup_cons [Heq|Hin]%elem_of_cons.
    + injection Heq as -> ->. case_decide; congruence.
    + destruct (decide (k' = k)) as [->|Hne]; [|by apply IH].
      exfalso. apply Hnotin. apply list_elem_of_fmap. by exists (k, l).
Qed.

Lemma od_keys_set_in k l (d : odict) :
  k ∈ od_keys d → od_keys (od_set k l d) = od_keys d.
Proof.
  unfold od_keys. induction d as [|[k' l'] d IH]; csimpl.
  - intros Hin. by apply elem_of_nil in Hin.
  - intros Hin. destruct (decide (k' = k)) as [->|Hne]; csimpl; [done|].
    apply elem_of_cons in Hin as [?|Hin]; [congruence|]. by rewrite IH.
Qed.

Lemma od_keys_set_notin k l (d : odict) :
  k ∉ od_keys d → od_keys (od_set k l d) = od_keys d ++ [k].
Proof.
  unfold od_keys. induction d as [|[k' l'] d IH]; csimpl; [done|].
  intros [Hne Hnotin]%not_elem_of_cons.
  rewrite decide_False by congruence. csimpl. by rewrite IH.
Qed.

Lemma od_set_NoDup k l (d : odict) :
  NoDup (od_keys d) → NoDup (od_keys (od_set k l d)).
Proof.
  intros Hnd. destruct (decide (k ∈ od_keys d)) as [Hin|Hnotin].
  - by rewrite od_keys_set_in.
  - rewrite od_keys_set_notin by done.
    apply NoDup_app. split_and!; [done| |apply NoDup_singleton].
    intros x Hx ->%list_elem_of_singleton. done.
Qed.

Lemma od_set_elem k l k1 l1 (d : odict) :
  NoDup (od_keys d) →
  (k1, l1) ∈ od_set k l d → (k1 = k ∧ l1 = l) ∨ (k1 ≠ k ∧ (k1, l1) ∈ d).
Proof.
  intros Hnd Hin.
  apply od_elem_get in Hin; [|by apply od_set_NoDup].
  destruct (decide (k = k1)) as [->|Hne].
  - rewrite od_get_set_eq in Hin. left. by injection Hin as ->.
  - rewrite od_get_set_ne in Hin by done. right. split; [done|].
    by apply od_get_Some_elem.
Qed.

Lemma od_mem_true k (d : odict) : od_mem k d = true ↔ k ∈ od_keys d.
Proof.
  unfold od_mem. rewrite bool_decide_eq_true.
  destruct (od_get k d) eqn:Hg.
  - split; [intros _|by eauto].
    destruct (decide (k ∈ od_keys d)) as [|Hn]; [done|].
    apply od_get_None in Hn. congruence.
  - split; [by intros [? ?]|]. intros Hin. by apply od_get_None in Hg.
Qed.

Lemma od_set_id k l (d : odict) : od_get k d = Some l → od_set k l d = d.
Proof.
  induction d as [|[k' l'] d IH]; csimpl; [done|].
  destruct (decide (k' = k)) as [->|Hne].
  - by intros [= ->].
  - intros Hg. by rewrite IH.
Qed.

Lemma od_values_keys {A} (f : loc → A) (g : value → A) (d : odict) :
  (∀ k l, (k, l) ∈ d → f l = g k) → f <$> od_values d = g <$> od_keys d.
Proof.
  unfold od_values, od_keys. induction d as [|[k l] d IH]; csimpl; [done|].
  intros Hd. rewrite (Hd k l) by (apply elem_of_cons; by left).
  f_equal. apply IH. intros k' l' Hin. apply Hd, elem_of_cons. by right.
Qed.

(** ** Running the monad *)

Section Reasoning.
Context `{DateTime, Markup}.

Lemma wp_ret {A} E (a : A) Q w : Q a w → wp E (ret a) Q w.
Proof. done. Qed.

Lemma wp_bind {A B} E (m : M A) (f : A → M B) Q w :
  wp E m (fun a w' => wp E (f a) Q w') w → wp E (bind m f) Q w.
Proof. unfold wp, bind. by destruct (m w) as [[a|e] w']. Qed.

Lemma wp_mono {A} E (m : M A) (Q Q' : A → world → Prop) w :
  (∀ a w', Q a w' → Q' a w') → wp E m Q w → wp E m Q' w.
Proof. unfold wp. intros HQ. destruct (m w) as [[a|e] w']; auto. Qed.

Lemma wp_run {A} E (m : M A) Q w a w' :
  wp E m Q w → m w = (Ok a, w') → Q a w'.
Proof. unfold wp. intros Hwp Hm. by rewrite Hm in Hwp. Qed.

Lemma wp_total {A} (m : M A) Q w :
  wp False m Q w → ∃ a w', m w = (Ok a, w') ∧ Q a w'.
Proof. unfold wp. destruct (m w) as [[a|e] w']; [eauto|done]. Qed.

Lemma wp_getitem E l k Q w :
  (∀ v, obj (heap w) l !! k = Some v → Q v w) →
  (obj (heap w) l !! k = None → E) →
  wp E (getitem l k) Q w.
Proof. unfold wp, getitem. destruct (obj (heap w) l !! k); auto. Qed.

Lemma wp_get E l k Q w :
  Q (dict_get (obj (heap w) l) k) w → wp E (get l k) Q w.
Proof. done. Qed.

Lemma wp_setitem E l k v Q w :
  Q tt (set_heap (fun h => <[l := <[k := v]> (obj h l)]> h) w) →
  wp E (setitem l k v) Q w.
Proof. done. Qed.

Lemma wp_now E Q w : Q (clock w (reads w)) (tick w) → wp E now Q w.
Proof. done. Qed.

(** ** Objects *)

Lemma obj_insert_eq (h : list dict) l d :
  (l < length h)%nat → obj (<[l := d]> h) l = d.
Proof. intros Hl. unfold obj. by rewrite list_lookup_insert_eq. Qed.

Lemma obj_insert_ne (h : list dict) l l' d :
  l ≠ l' → obj (<[l := d]> h) l' = obj h l'.
Proof. intros Hl. unfold obj. by rewrite list_lookup_insert_ne. Qed.

Lemma obj_allocated (h : list dict) l k v :
  obj h l !! k = Some v → (l < length h)%nat.
Proof.
  unfold obj. destruct (h !! l) eqn:Hl; csimpl.
  - intros _. by eapply lookup_lt_Some.
  - by rewrite lookup_empty.
Qed.

(** ** What the two predicates compute *)

Lemma _is_listing_updated_run n e w :
  _is_listing_updated n e w
  = (Ok (is_updated (obj (heap w) n) (obj (heap w) e)), w).
Proof.
  unfold _is_listing_updated, is_updated, bind, get, gets, ret.
  repeat (destruct (py_ne _ _); [done|]). done.
Qed.

Lemma py_ne_refl v : v ≠ VNaN → py_ne v v = false.
Proof.
  intros Hv. unfold py_ne, py_eq.
  destruct v; try done; by rewrite bool_decide_eq_true_2.
Qed.

Lemma py_ne_self v : py_ne v v = true → v = VNaN.
Proof.
  destruct (decide (v = VNaN)) as [|Hv]; [done|].
  by rewrite py_ne_refl.
Qed.

Lemma py_ne_NaN v : py_ne v VNaN = true.
Proof. by destruct v. Qed.

Lemma is_updated_refl d : comparable d → is_updated d d = false.
Proof.
  intros (Hp & Ha & Hd). unfold is_updated. by rewrite !py_ne_refl.
Qed.

(** A record that differs from itself differs from every record: one of
    its compared fields is NaN. *)
Lemma is_updated_self d d' : is_updated d d = true → is_updated d' d = true.
Proof.
  unfold is_updated. intros Hd.
  apply orb_true_iff in Hd as [Hd|Hd]; [apply orb_true_iff in Hd as [Hd|Hd]|];
    apply py_ne_self in Hd; rewrite Hd, py_ne_NaN; by rewrite ?orb_true_r.
Qed.

Lemma is_updated_NaN d :
  ¬ comparable d → is_updated d d = true.
Proof.
  intros Hd. unfold is_updated.
  destruct (decide (dict_get d "price" = VNaN)) as [->|Hp]; [done|].
  destruct (decide (dict_get d "available" = VNaN)) as [->|Ha];
    [by rewrite orb_true_r|].
  destruct (decide (dict_get d "description" = VNaN)) as [->|Hs];
    [by rewrite orb_true_r|].
  by destruct Hd.
Qed.

End Reasoning.

Lemma od_set_notin k l (d : odict) :
  k ∉ od_keys d → od_set k l d = d ++ [(k, l)].
Proof.
  unfold od_keys. induction d as [|[k' l'] d IH]; csimpl; [done|].
  intros [Hne Hnotin]%not_elem_of_cons.
  rewrite decide_False by congruence. by rewrite IH.
Qed.

(** ** Indexing by id *)

Section IndexById.
Context `{DateTime, Markup}.

Lemma index_by_id_run ls acc w :
  index_by_id ls acc w =
  (match index_of (heap w) ls acc with
   | Some d => Ok d
   | None => Raise (KeyError "id")
   end, w).
Proof.
  revert acc. induction ls as [|l ls IH]; intros acc; [done|].
  csimpl. unfold bind, getitem.
  destruct (obj (heap w) l !! "id") as [i|]; [apply IH|done].
Qed.

Lemma index_of_total h ls acc :
  (∀ l, l ∈ ls → is_Some (obj h l !! "id")) → is_Some (index_of h ls acc).
Proof.
  revert acc. induction ls as [|l ls IH]; intros acc Hid; csimpl; [by eauto|].
  destruct (Hid l) as [i ->]; [apply elem_of_cons; by left|].
  apply IH. intros l' Hl'. apply Hid, elem_of_cons. by right.
Qed.

Lemma index_of_NoDup h ls acc d :
  index_of h ls acc = Some d → NoDup (od_keys acc) → NoDup (od_keys d).
Proof.
  revert acc. induction ls as [|l ls IH]; intros acc; csimpl.
  - by intros [= ->].
  - destruct (obj h l !! "id") as [i|]; [|done].
    intros Hd Hnd. eapply IH; [done|]. by apply od_set_NoDup.
Qed.

Lemma index_of_elem h ls acc d k l :
  index_of h ls acc = Some d → NoDup (od_keys acc) → (k, l) ∈ d →
  (k, l) ∈ acc ∨ (l ∈ ls ∧ listing_id h l = Some k).
Proof.
  revert acc. induction ls as [|l' ls IH]; intros acc; csimpl.
  - intros [= ->] _ Hin. by left.
  - destruct (obj h l' !! "id") as [i|] eqn:Hi; [|done].
    intros Hd Hnd Hin.
    destruct (IH _ Hd (od_set_NoDup _ _ _ Hnd) Hin) as [Hset|[Hl Hk]].
    + apply od_set_elem in Hset as [[-> ->]|[_ Hacc]]; [|by left|done].
      right. split; [apply elem_of_cons; by left|].
      unfold listing_id. by rewrite Hi.
    + right. split; [apply elem_of_cons; by right|done].
Qed.

Lemma index_of_keys_mono h ls acc d k :
  index_of h ls acc = Some d → k ∈ od_keys acc → k ∈ od_keys d.
Proof.
  revert acc. induction ls as [|l' ls IH]; intros acc; csimpl.
  - by intros [= ->].
  - destruct (obj h l' !! "id") as [i|]; [|done].
    intros Hd Hin. eapply IH; [done|].
    destruct (decide (hash_key i ∈ od_keys acc)).
    + by rewrite od_keys_set_in.
    + rewrite od_keys_set_notin by done. apply elem_of_app. by left.
Qed.

Lemma index_of_covers h ls acc d l :
  index_of h ls acc = Some d → l ∈ ls →
  ∃ k, listing_id h l = Some k ∧ k ∈ od_keys d.
Proof.
  revert acc. induction ls as [|l' ls IH]; intros acc; csimpl.
  - intros _ Hin. by apply elem_of_nil in Hin.
  - destruct (obj h l' !! "id") as [i|] eqn:Hi; [|done].
    intros Hd [->|Hin]%elem_of_cons; [|by eapply IH].
    exists (hash_key i). split; [unfold listing_id; by rewrite Hi|].
    eapply index_of_keys_mono; [done|].
    destruct (decide (hash_key i ∈ od_keys acc)).
    + by rewrite od_keys_set_in.
    + rewrite od_keys_set_notin by done.
      apply elem_of_app; right. by apply list_elem_of_singleton.
Qed.

(** A list of listings with pairwise distinct ids is indexed in its own
    order. *)
Lemma index_of_distinct h ls acc d :
  index_of h ls acc = Some d →
  NoDup ((Some <$> od_keys acc) ++ (listing_id h <$> ls)) →
  od_values d = od_values acc ++ ls.
Proof.
  revert acc. induction ls as [|l ls IH]; intros acc; csimpl.
  - intros [= ->] _. by rewrite app_nil_r.
  - destruct (obj h l !! "id") as [i|] eqn:Hi; [|done].
    intros Hd Hnd.
    assert (Hid : listing_id h l = Some (hash_key i))
      by (unfold listing_id; by rewrite Hi).
    rewrite Hid in Hnd.
    assert (Hnotin : hash_key i ∉ od_keys acc).
    { apply NoDup_app in Hnd as (_ & Hdisj & _). intros Hin.
      apply (Hdisj (Some (hash_key i))).
      - apply list_elem_of_fmap. eauto.
      - apply elem_of_cons. by left. }
    rewrite od_set_notin in Hd by done.
    rewrite (IH _ Hd).
    + unfold od_values. rewrite fmap_app. csimpl. by rewrite <- app_assoc.
    + unfold od_keys. rewrite !fmap_app. csimpl.
      rewrite <- app_assoc. done.
Qed.

End IndexById.

(** ** The age test *)

Section TooOld.
Context `{DateTime, Markup}.
Variable self : ListingStorage.

Lemma heap_ticks n w : heap (ticks n w) = heap w.
Proof. induction n; [done|]. by csimpl. Qed.

Lemma clock_ticks n w : clock (ticks n w) = clock w.
Proof. induction n; [done|]. by csimpl. Qed.

Lemma reads_ticks n w : reads (ticks n w) = (n + reads w)%nat.
Proof. induction n; [done|]. csimpl. by rewrite IHn. Qed.

Lemma ticks_ticks n m w : ticks n (ticks m w) = ticks (n + m) w.
Proof. induction n; [done|]. csimpl. by rewrite IHn. Qed.

Lemma too_old_readings_bounds d t0 :
  (1 ≤ too_old_readings self d t0 ≤ 2)%nat.
Proof. unfold too_old_readings. repeat case_match; lia. Qed.

Lemma _is_listing_too_old_readings l w :
  _is_listing_too_old self l w =
  (too_old_verdict self (obj (heap w) l) (clock w (reads w))
     (clock w (S (reads w))),
   ticks (too_old_readings self (obj (heap w) l) (clock w (reads w))) w).
Proof.
  unfold _is_listing_too_old, too_old_verdict, too_old_readings, try_except,
    bind, now, get_default, gets, timedelta_days. csimpl.
  destruct (default _ _) as [| |?| |s]; try done.
  destruct (fromisoformat s) as [p|]; [|done].
  unfold ret, raise. case_bool_decide; [|done]. by destruct p.
Qed.

Lemma _is_listing_too_old_run l w :
  ∃ j, (1 ≤ j ≤ 2)%nat ∧
    _is_listing_too_old self l w =
    (too_old_verdict self (obj (heap w) l) (clock w (reads w))
       (clock w (S (reads w))), ticks j w).
Proof.
  eexists. split; [|apply _is_listing_too_old_readings].
  apply too_old_readings_bounds.
Qed.

Lemma wp_is_listing_too_old E l Q w :
  (∀ j b, (1 ≤ j ≤ 2)%nat →
     j = too_old_readings self (obj (heap w) l) (clock w (reads w)) →
     too_old_verdict self (obj (heap w) l) (clock w (reads w))
       (clock w (S (reads w))) = Ok b →
     Q b (ticks j w)) →
  (E ∨ -999999999 ≤ max_age_days self ≤ 999999999) →
  wp E (_is_listing_too_old self l) Q w.
Proof.
  intros HQ HE. unfold wp. rewrite _is_listing_too_old_readings.
  pose proof (too_old_readings_bounds (obj (heap w) l) (clock w (reads w)))
    as Hj.
  destruct (too_old_verdict _ _ _) as [b|e] eqn:Hv; [by apply HQ|].
  destruct HE as [HE|HE]; [done|]. exfalso.
  unfold too_old_verdict in Hv.
  rewrite bool_decide_eq_true_2 in Hv by done.
  by repeat case_match.
Qed.

End TooOld.

(** ** The records kept from the store *)

Section Preserve.
Context `{DateTime, Markup}.
Variable self : ListingStorage.

Lemma od_values_elem (d : odict) k l : (k, l) ∈ d → l ∈ od_values d.
Proof. intros Hin. unfold od_values. apply list_elem_of_fmap. by exists (k, l). Qed.

Lemma wp_preserve E nb items w :
  (E ∨ -999999999 ≤ max_age_days self ≤ 999999999) →
  wp E (preserve self nb items) (preserve_post self nb items w) w.
Proof.
  intros HE. revert w. induction items as [|[k e] items IH]; intros w.
  - apply wp_ret. split_and!.
    + by exists 0%nat.
    + exists []. split_and!; [done|done|]. intros ?? Hin.
      by apply elem_of_nil in Hin.
    + intros ?? Hin. by apply elem_of_nil in Hin.
    + intros ? Hin. by apply elem_of_nil in Hin.
  - csimpl. destruct (od_mem k nb) eqn:Hmem.
    + apply od_mem_true in Hmem.
      eapply wp_mono; [|apply IH].
      intros pl w' (Hj & (sub & -> & Hsub & Hsubk) & HA & HB). split_and!.
      * done.
      * exists sub. split_and!; [done|by apply sublist_cons|done].
      * intros k' e' [Heq|Hin]%elem_of_cons Hk'.
        -- injection Heq as -> ->. done.
        -- destruct (HA k' e' Hin Hk') as (n & b & Ht & Hyoung & Hold).
           exists n, b. split_and!; [done|done|].
           intros [_ Hnd]%NoDup_cons. by apply Hold.
      * intros e' He'. destruct (HB e' He') as (k' & n & Hin & ?).
        exists k', n. split; [apply elem_of_cons; by right|done].
    + assert (Hk : k ∉ od_keys nb).
      { intros Hin%od_mem_true. congruence. }
      apply wp_bind, wp_is_listing_too_old; [|done].
      intros j b Hj Hjr Hv. apply wp_bind.
      eapply wp_mono; [|apply IH].
      intros pl w' ([j' ->] & (sub & -> & Hsub & Hsubk) & HA & HB).
      unfold tested in HA, HB.
      rewrite heap_ticks, clock_ticks in HA, HB.
      assert (Hsubv : ∀ x, x ∈ od_values sub → x ∈ od_values items).
      { intros x Hx. unfold od_values in *.
        apply list_elem_of_fmap in Hx as ([k1 x1] & -> & Hx).
        apply list_elem_of_fmap. exists (k1, x1). split; [done|].
        by eapply elem_of_sublist. }
      apply wp_ret. split_and!.
      * exists (j' + j)%nat. by rewrite ticks_ticks.
      * destruct b.
        -- exists sub. split_and!; [done|by apply sublist_cons|done].
        -- exists ((k, e) :: sub). split_and!; [done|by apply sublist_skip|].
           intros k' e' [Heq|Hin]%elem_of_cons; [|by eapply Hsubk].
           by injection Heq as -> ->.
      * intros k' e' [Heq|Hin]%elem_of_cons Hk'.
        -- injection Heq as -> ->. exists (reads w), b. split_and!.
           ++ unfold tested. rewrite !reads_ticks. split_and!; [lia|lia|done].
           ++ intros ->. apply elem_of_cons. by left.
           ++ intros [Hnotin _]%NoDup_cons Hin. destruct b; [|done].
              exfalso. by apply Hnotin, Hsubv.
        -- destruct (HA k' e' Hin Hk')
             as (n & b' & (Hn1 & Hn2 & Hv') & Hyoung & Hold).
           rewrite reads_ticks in Hn1.
           exists n, b'. split_and!.
           ++ unfold tested. split_and!; [lia|done|done].
           ++ intros Hb. specialize (Hyoung Hb).
              destruct b; [done|]. apply elem_of_cons. by right.
           ++ intros [Hnotin Hnd]%NoDup_cons Hin'. apply Hold; [done|].
              destruct b; [done|].
              apply elem_of_cons in Hin' as [->|?]; [|done].
              exfalso. apply Hnotin. by eapply od_values_elem.
      * intros e' He'.
        assert ((e' = e ∧ b = false) ∨ e' ∈ od_values sub) as [[-> ->]|Hin].
        { destruct b; [by right|].
          apply elem_of_cons in He' as [->|?]; [by left|by right]. }
        -- exists k, (reads w). split_and!; [|done|].
           ++ apply elem_of_cons. by left.
           ++ unfold tested. rewrite !reads_ticks. split_and!; [lia|lia|done].
        -- destruct (HB e' Hin) as (k' & n & Hin' & Hk' & Hn1 & Hn2 & Hv').
           rewrite reads_ticks in Hn1.
           exists k', n. split_and!; [|done|].
           ++ apply elem_of_cons. by right.
           ++ unfold tested. split_and!; [lia|done|done].
Qed.

End Preserve.

(** ** The classification loop *)

Section Classify.
Context `{DateTime, Markup}.
Variable self : ListingStorage.
Variable E : Prop.
Variables new_listings existing_listings : list loc.
Variable w0 : world.
Variables existing_by_id items : odict.

Local Abbreviation h0 := (heap w0).
Local Abbreviation inv :=
  (Inv new_listings existing_listings w0 existing_by_id items).

Hypothesis Heb : ∀ k e, (k, e) ∈ existing_by_id →
  e ∈ existing_listings ∧ listing_id h0 e = Some k.
Hypothesis Hitems_nd : NoDup (od_keys items).
Hypothesis Hitems : ∀ k l, (k, l) ∈ items →
  l ∈ new_listings ∧ listing_id h0 l = Some k.
Hypothesis Hwf : E ∨ well_formed h0 new_listings existing_listings.

Lemma Inv_init : inv [] (items, [], []) w0.
Proof.
  split; csimpl; try done.
  - intros k l Hin. destruct (Hitems k l Hin). split; [done|by left].
  - intros k l Hin _. by apply od_elem_get.
  - intros l Hin. by apply elem_of_nil in Hin.
  - intros l Hin. by apply elem_of_nil in Hin.
  - intros l Hin. by apply elem_of_nil in Hin.
  - intros k l Hin. by apply elem_of_nil in Hin.
Qed.

Lemma wp_is_listing_updated n e Q w :
  Q (is_updated (obj (heap w) n) (obj (heap w) e)) w →
  wp E (_is_listing_updated n e) Q w.
Proof. unfold wp. by rewrite _is_listing_updated_run. Qed.

Lemma items_key_fresh visited k l todo :
  items = visited ++ (k, l) :: todo → k ∉ od_keys visited.
Proof.
  intros Heq Hin. pose proof Hitems_nd as Hnd. rewrite Heq in Hnd.
  unfold od_keys in *. rewrite fmap_app in Hnd.
  apply NoDup_app in Hnd as (_ & Hdisj & _).
  apply (Hdisj k Hin). csimpl. apply elem_of_cons. by left.
Qed.

Lemma od_keys_snoc (d : odict) k l : od_keys (d ++ [(k, l)]) = od_keys d ++ [k].
Proof. unfold od_keys. by rewrite fmap_app. Qed.

Lemma classify_step visited k l todo st w :
  items = visited ++ (k, l) :: todo →
  inv visited st w →
  wp E (classify existing_by_id st (k, l))
     (fun st' w' => inv (visited ++ [(k, l)]) st' w') w.
Proof.
  intros Heq HI. destruct st as [[nb a] u].
  destruct HI as [Hclock Hreads Hid Hframe Hkeys Hentries Htodo Hadded
                  Hupdated Hvisited Hclassified Hkept].
  csimpl in *.
  pose proof (items_key_fresh _ _ _ _ Heq) as Hfresh.
  assert (Hin : (k, l) ∈ items).
  { rewrite Heq. apply elem_of_app. right. apply elem_of_cons. by left. }
  destruct (Hitems k l Hin) as [Hlnew Hlid].
  assert (Hl0 : obj (heap w) l = obj h0 l).
  { apply Hframe. intros k' Hk'. congruence. }
  assert (Hlnb : od_get k nb = Some l) by (by apply Htodo).
  assert (Hnb_nd : NoDup (od_keys nb)) by (by rewrite Hkeys).
  assert (Hother : ∀ l', l' ∈ a ++ u → l' ≠ l).
  { intros l' Hl' ->. destruct (Hvisited l Hl') as (k' & Hk' & Hid').
    congruence. }
  assert (Hsnoc : ∀ k', k' ∈ od_keys visited →
                        k' ∈ od_keys (visited ++ [(k, l)])).
  { intros k' Hk'. rewrite od_keys_snoc. apply elem_of_app. by left. }
  assert (Hlast : k ∈ od_keys (visited ++ [(k, l)])).
  { rewrite od_keys_snoc. apply elem_of_app. right.
    by apply list_elem_of_singleton. }
  unfold classify.
  destruct (od_get k existing_by_id) as [e|] eqn:Hge.
  - (* a listing that is stored already *)
    destruct (Heb k e (od_get_Some_elem _ _ _ Hge)) as [Heex Heid].
    assert (He0 : obj (heap w) e = obj h0 e).
    { apply Hframe. intros k' Hk'. congruence. }
    assert (Hknb : k ∈ od_keys nb).
    { destruct (decide (k ∈ od_keys nb)) as [|Hn]; [done|].
      apply od_get_None in Hn. congruence. }
    assert (Hkey_ne : ∀ l' k', l' ∈ a ++ u → listing_id h0 l' = Some k' →
                               k' ≠ k).
    { intros l' k' Hl' Hk' ->. destruct (Hvisited l' Hl') as (k'' & ? & ?).
      congruence. }
    apply wp_bind, wp_is_listing_updated. rewrite Hl0, He0.
    destruct (is_updated (obj h0 l) (obj h0 e)) eqn:Hupd.
    + (* a compared field differs *)
      apply wp_bind, wp_getitem.
      2:{ intros Hnone. destruct Hwf as [?|[_ Hfs]]; [done|].
          destruct (Hfs e Heex) as [? Hs]. rewrite He0 in Hnone.
          congruence. }
      intros fs Hfs. rewrite He0 in Hfs.
      apply wp_bind, wp_setitem, wp_bind, wp_now, wp_bind, wp_setitem.
      match goal with |- wp _ _ _ ?w1 => set (w' := w1) end.
      assert (Hlen : (l < length (heap w))%nat).
      { unfold listing_id in Hlid. apply fmap_Some in Hlid as (i & Hi & _).
        rewrite <- Hl0 in Hi. by eapply obj_allocated. }
      assert (Hobj_l : obj (heap w') l =
                <["last_updated" := VStr (isoformat (clock w0 (reads w)))]>
                  (<["first_seen" := fs]> (obj h0 l))).
      { subst w'. csimpl. rewrite obj_insert_eq by (by rewrite length_insert).
        rewrite obj_insert_eq by done. by rewrite Hl0, Hclock. }
      assert (Hobj_o : ∀ l', l' ≠ l → obj (heap w') l' = obj (heap w) l').
      { intros l' Hne. subst w'. csimpl. by rewrite !obj_insert_ne. }
      assert (Hclock' : clock w' = clock w0) by done.
      assert (Hreads' : reads w' = S (reads w)) by done.
      clearbody w'.
      apply wp_bind, wp_getitem; [intros _ _|].
      2:{ intros Hnone. destruct Hwf as [?|[Hlog _]]; [done|].
          destruct (Hlog l Hlnew) as [[? Ht] _]. rewrite Hobj_l in Hnone.
          rewrite !lookup_insert_ne in Hnone by done. congruence. }
      apply wp_bind, wp_getitem; [intros _ _|].
      2:{ intros Hnone. destruct Hwf as [?|[Hlog _]]; [done|].
          destruct (Hlog l Hlnew) as [_ [? Ht]]. rewrite Hobj_l in Hnone.
          rewrite !lookup_insert_ne in Hnone by done. congruence. }
      apply wp_ret. split; csimpl; try done.
      * lia.
      * intros l'. destruct (decide (l' = l)) as [->|Hne].
        -- rewrite Hobj_l. by rewrite !lookup_insert_ne.
        -- rewrite Hobj_o by done. apply Hid.
      * intros l' Hl'. rewrite Hobj_o.
        -- apply Hframe. intros k' Hk' Hin'. by apply (Hl' k' Hk'), Hsnoc.
        -- intros ->. by apply (Hl' k Hlid).
      * intros k' l' Hin' Hk'. apply Htodo; [done|].
        intros Hin''. by apply Hk', Hsnoc.
      * intros l' Hl'. destruct (Hadded l' Hl') as (? & k' & ? & ? & ? & Ho).
        split; [done|]. exists k'. split_and!; [done..|].
        rewrite Hobj_o; [done|]. apply Hother, elem_of_app. by left.
      * intros l' [Hl' | ->%list_elem_of_singleton]%elem_of_app.
        -- destruct (Hupdated l' Hl')
             as (? & k' & e' & fs' & n & ? & ? & ? & ? & ? & ? & Ho).
           split; [done|]. exists k', e', fs', n.
           split_and!; try done; try lia.
           rewrite Hobj_o; [done|]. apply Hother, elem_of_app. by right.
        -- split; [done|]. exists k, e, fs, (reads w).
           split_and!; try done; lia.
      * intros l' [Hl'|[Hl' | ->%list_elem_of_singleton]%elem_of_app]%elem_of_app.
        -- destruct (Hvisited l') as (k' & ? & ?).
           { apply elem_of_app. by left. }
           exists k'. split; [by apply Hsnoc|done].
        -- destruct (Hvisited l') as (k' & ? & ?).
           { apply elem_of_app. by right. }
           exists k'. split; [by apply Hsnoc|done].
        -- by exists k.
      * intros k' l' [Hin'|Heq']%elem_of_app.
        -- specialize (Hclassified k' l' Hin'). unfold classified in *.
           destruct (od_get k' existing_by_id); [|done].
           destruct (is_updated _ _); [|done]. apply elem_of_app. by left.
        -- apply list_elem_of_singleton in Heq'. injection Heq' as -> ->.
           unfold classified. rewrite Hge, Hupd. apply elem_of_app. right.
           by apply list_elem_of_singleton.
      * intros k' l' e' [Hin'|Heq']%elem_of_app Hge' Hupd'.
        -- rewrite Hobj_o; [by eapply Hkept|]. intros ->.
           destruct (Heb k' l (od_get_Some_elem _ _ _ Hge')) as [_ Hk'].
           apply Hfresh. unfold od_keys. apply list_elem_of_fmap.
           exists (k', l'). split; [csimpl; congruence|done].
        -- apply list_elem_of_singleton in Heq'. injection Heq' as -> ->.
           congruence.
    + (* nothing differs: the stored listing takes the place of the new *)
      apply wp_ret. split; csimpl; try done.
      * intros l' Hl'. apply Hframe. intros k' Hk' Hin'.
        by apply (Hl' k' Hk'), Hsnoc.
      * by rewrite od_keys_set_in.
      * intros k' l' [[-> ->]|[_ Hin']]%od_set_elem; [|by apply Hentries|done].
        split; [done|by right].
      * intros k' l' Hin' Hk'. rewrite od_get_set_ne.
        -- apply Htodo; [done|]. intros Hin''. by apply Hk', Hsnoc.
        -- intros ->. done.
      * intros l' Hl'. destruct (Hadded l' Hl') as (? & k' & Hk' & ? & ? & Ho).
        split; [done|]. exists k'. split_and!; [done..| |done].
        rewrite od_get_set_ne; [done|]. intros ->.
        eapply Hkey_ne; [|done..]. apply elem_of_app. by left.
      * intros l' Hl'. destruct (Hupdated l' Hl')
          as (? & k' & e' & fs' & n & Hk' & ? & ? & ? & ? & ? & Ho).
        split; [done|]. exists k', e', fs', n.
        split_and!; try done; try lia.
        rewrite od_get_set_ne; [done|]. intros ->.
        eapply Hkey_ne; [|done..]. apply elem_of_app. by right.
      * intros l' Hl'. destruct (Hvisited l' Hl') as (k' & ? & ?).
        exists k'. split; [by apply Hsnoc|done].
      * intros k' l' [Hin'|Heq']%elem_of_app.
        -- specialize (Hclassified k' l' Hin'). unfold classified in *.
           destruct (od_get k' existing_by_id); [|done].
           destruct (is_updated _ _); [done|].
           rewrite od_get_set_ne; [done|]. intros Hkk. apply Hfresh.
           unfold od_keys. apply list_elem_of_fmap. exists (k', l').
           split; [by rewrite Hkk|done].
        -- apply list_elem_of_singleton in Heq'. injection Heq' as -> ->.
           unfold classified. rewrite Hge, Hupd. apply od_get_set_eq.
      * intros k' l' e' [Hin'|Heq']%elem_of_app Hge' Hupd'.
        -- by eapply Hkept.
        -- apply list_elem_of_singleton in Heq'. injection Heq' as -> ->.
           congruence.
  - (* a new listing *)
    apply wp_bind, wp_getitem; [intros _ _|].
    2:{ intros Hnone. destruct Hwf as [?|[Hlog _]]; [done|].
        destruct (Hlog l Hlnew) as [[? Ht] _]. rewrite Hl0 in Hnone.
        congruence. }
    apply wp_bind, wp_getitem; [intros _ _|].
    2:{ intros Hnone. destruct Hwf as [?|[Hlog _]]; [done|].
        destruct (Hlog l Hlnew) as [_ [? Ht]]. rewrite Hl0 in Hnone.
        congruence. }
    apply wp_ret. split; csimpl; try done.
    + intros l' Hl'. apply Hframe. intros k' Hk' Hin'.
      by apply (Hl' k' Hk'), Hsnoc.
    + intros k' l' Hin' Hk'. apply Htodo; [done|].
      intros Hin''. by apply Hk', Hsnoc.
    + intros l' [Hl' | ->%list_elem_of_singleton]%elem_of_app; [by apply Hadded|].
      split; [done|]. by exists k.
    + intros l' [[Hl' | ->%list_elem_of_singleton]%elem_of_app|Hl']%elem_of_app.
      * destruct (Hvisited l') as (k' & ? & ?).
        { apply elem_of_app. by left. }
        exists k'. split; [by apply Hsnoc|done].
      * by exists k.
      * destruct (Hvisited l') as (k' & ? & ?).
        { apply elem_of_app. by right. }
        exists k'. split; [by apply Hsnoc|done].
    + intros k' l' [Hin'|Heq']%elem_of_app.
      * specialize (Hclassified k' l' Hin'). unfold classified in *.
        destruct (od_get k' existing_by_id); [done|].
        apply elem_of_app; by left.
      * apply list_elem_of_singleton in Heq'. injection Heq' as -> ->.
        unfold classified. rewrite Hge. apply elem_of_app. right.
        by apply list_elem_of_singleton.
    + intros k' l' e' [Hin'|Heq']%elem_of_app Hge' Hupd'.
      * by eapply Hkept.
      * apply list_elem_of_singleton in Heq'. injection Heq' as -> ->.
        congruence.
Qed.

Lemma classify_all_wp visited todo st w :
  items = visited ++ todo →
  inv visited st w →
  wp E (classify_all existing_by_id todo st)
     (fun st' w' => inv items st' w') w.
Proof.
  revert visited st w. induction todo as [|[k l] todo IH];
    intros visited st w Heq HI.
  - apply wp_ret. rewrite app_nil_r in Heq. by rewrite <- Heq in HI.
  - csimpl. apply wp_bind.
    eapply wp_mono; [|by eapply classify_step].
    intros st' w' HI'. apply (IH (visited ++ [(k, l)])); [|done].
    by rewrite <- app_assoc.
Qed.

End Classify.

(** ** The reconciler as a whole *)

Section Compare.
Context `{DateTime, Markup}.
Variable self : ListingStorage.

Lemma wp_index_by_id E ls Q w :
  (∀ d, index_of (heap w) ls [] = Some d → Q d w) →
  (E ∨ ∀ l, l ∈ ls → has_id (heap w) l) →
  wp E (index_by_id ls []) Q w.
Proof.
  intros HQ HE. unfold wp. rewrite index_by_id_run.
  destruct (index_of (heap w) ls []) as [d|] eqn:Hd; [by apply HQ|].
  destruct HE as [?|Hid]; [done|].
  destruct (index_of_total (heap w) ls [] Hid) as [? ?]. congruence.
Qed.

Lemma compare_listings_wp E new existing w :
  (E ∨ reconcilable self (heap w) new existing) →
  wp E (compare_listings self new existing) (compare_post self new existing w) w.
Proof.
  intros HE. unfold compare_listings.
  apply wp_bind, wp_index_by_id.
  2:{ destruct HE as [?|(Hid & _)]; [by left|right].
      intros l Hl. apply Hid, elem_of_app. by right. }
  intros eb Heb. apply wp_bind, wp_index_by_id.
  2:{ destruct HE as [?|(Hid & _)]; [by left|right].
      intros l Hl. apply Hid, elem_of_app. by left. }
  intros nb0 Hnb0. apply wp_bind.
  assert (Hnd0 : NoDup (od_keys (@nil (value * loc)))) by apply NoDup_nil_2.
  assert (Hebs : ∀ k e, (k, e) ∈ eb →
            e ∈ existing ∧ listing_id (heap w) e = Some k).
  { intros k e Hin.
    destruct (index_of_elem _ _ _ _ _ _ Heb Hnd0 Hin) as [Hnil|?]; [|done].
    by apply elem_of_nil in Hnil. }
  assert (Hnbs : ∀ k l, (k, l) ∈ nb0 →
            l ∈ new ∧ listing_id (heap w) l = Some k).
  { intros k l Hin.
    destruct (index_of_elem _ _ _ _ _ _ Hnb0 Hnd0 Hin) as [Hnil|?]; [|done].
    by apply elem_of_nil in Hnil. }
  assert (Hnb_nd : NoDup (od_keys nb0)) by (by eapply index_of_NoDup).
  assert (Hwf : E ∨ well_formed (heap w) new existing).
  { destruct HE as [?|(_ & ? & _)]; [by left|by right]. }
  eapply wp_mono;
    [|apply (classify_all_wp E new existing w eb nb0 Hebs Hnb_nd Hnbs Hwf []);
      [done|by apply Inv_init]].
  intros [[nb a] u] w1 HI. apply wp_bind.
  eapply wp_mono; [|apply wp_preserve].
  2:{ destruct HE as [?|(_ & _ & ?)]; [by left|by right]. }
  intros pl w' Hpl. apply wp_ret.
  by exists eb, nb0, nb, w1, pl.
Qed.

End Compare.

(** * The claims about the reconciler *)

Section Reconciler.
Context `{DateTime, Markup}.
Variable self : ListingStorage.

Lemma index_of_sound h ls d k l :
  index_of h ls [] = Some d → (k, l) ∈ d →
  l ∈ ls ∧ listing_id h l = Some k.
Proof.
  intros Hd Hin.
  destruct (index_of_elem _ _ _ _ _ _ Hd (NoDup_nil_2) Hin) as [Hnil|?];
    [|done].
  by apply elem_of_nil in Hnil.
Qed.

Lemma index_of_NoDup_nil h ls d :
  index_of h ls [] = Some d → NoDup (od_keys d).
Proof. intros Hd. eapply index_of_NoDup; [done|]. apply NoDup_nil_2. Qed.

Lemma compare_listings_partial new existing w r w' :
  compare_listings self new existing w = (Ok r, w') →
  compare_post self new existing w r w'.
Proof.
  intros Hrun. eapply wp_run; [|done].
  apply (compare_listings_wp self True). by left.
Qed.

Lemma compare_listings_total new existing w :
  reconcilable self (heap w) new existing →
  ∃ r w', compare_listings self new existing w = (Ok r, w').
Proof.
  intros Hrec.
  destruct (wp_total _ _ _ (compare_listings_wp self False new existing w
                              (or_intror Hrec))) as (r & w' & Hrun & _).
  eauto.
Qed.

Lemma sublist_od_keys (sub d : odict) :
  sub `sublist_of` d → od_keys sub `sublist_of` od_keys d.
Proof. intros Hsub. unfold od_keys. by apply fmap_sublist. Qed.

(** C1.  Whenever [compare_listings] returns [(added, updated,
    all_current)]: no id of [added] is the id of a stored record, every id
    of [updated] is the id of a new and of a stored record, ids are what they
    were before the call, and the ids of [all_current] are pairwise
    distinct.  It does return on every input whose records have the fields
    the code subscripts. *)
Theorem compare_listings_ids new existing w :
  (∀ added updated all_current w',
     compare_listings self new existing w
       = (Ok (added, updated, all_current), w') →
     (∀ l e, l ∈ added → e ∈ existing →
        listing_id (heap w) l ≠ listing_id (heap w) e) ∧
     (∀ l, l ∈ updated →
        (∃ n, n ∈ new ∧ listing_id (heap w) n = listing_id (heap w) l) ∧
        (∃ e, e ∈ existing ∧ listing_id (heap w) e = listing_id (heap w) l)) ∧
     (∀ l, listing_id (heap w') l = listing_id (heap w) l) ∧
     (∀ l, l ∈ all_current → is_Some (listing_id (heap w') l)) ∧
     NoDup (listing_id (heap w') <$> all_current)) ∧
  (reconcilable self (heap w) new existing →
   ∃ r w', compare_listings self new existing w = (Ok r, w')).
Proof.
  split; [|apply compare_listings_total].
  intros a u c w' Hrun.
  destruct (compare_listings_partial _ _ _ _ _ Hrun)
    as (eb & nb0 & nb & w1 & pl & Heb & Hnb0 & HI & Hpl & Hc).
  csimpl in *. subst c.
  destruct HI as [Hclock Hreads Hid Hframe Hkeys Hentries Htodo Hadded
                  Hupdated Hvisited Hclassified Hkept].
  destruct Hpl as ([j ->] & (sub & -> & Hsub & Hsubk) & _ & _).
  csimpl in *.
  assert (Hids : ∀ l, listing_id (heap (ticks j w1)) l = listing_id (heap w) l).
  { intros l. unfold listing_id. by rewrite heap_ticks, Hid. }
  assert (Hsubs : ∀ k e, (k, e) ∈ sub → listing_id (heap w) e = Some k).
  { intros k e Hin. eapply index_of_sound; [exact Heb|].
    by eapply elem_of_sublist. }
  split_and!.
  - intros l e Hl He Heq.
    destruct (Hadded l Hl) as (_ & k & Hk & Hnone & _).
    destruct (index_of_covers _ _ _ _ _ Heb He) as (k' & Hk' & Hin').
    apply od_get_None in Hnone. congruence.
  - intros l Hl.
    destruct (Hupdated l Hl) as (Hnew & k & e & fs & n & Hk & Hge & _).
    split; [by exists l|].
    exists e. apply od_get_Some_elem in Hge.
    destruct (index_of_sound _ _ _ _ _ Heb Hge). split; [done|congruence].
  - done.
  - intros l [Hl|Hl]%elem_of_app; rewrite Hids.
    + unfold od_values in Hl.
      apply list_elem_of_fmap in Hl as ([k l'] & -> & Hin). csimpl.
      destruct (Hentries k l' Hin) as [-> _]. by eexists.
    + unfold od_values in Hl.
      apply list_elem_of_fmap in Hl as ([k l'] & -> & Hin). csimpl.
      rewrite (Hsubs k l' Hin). by eexists.
  - rewrite (list_fmap_ext _ (listing_id (heap w)) _ (fun _ l _ => Hids l)).
    rewrite fmap_app.
    rewrite (od_values_keys (listing_id (heap w)) Some nb)
      by (intros k l Hin; by destruct (Hentries k l Hin)).
    rewrite (od_values_keys (listing_id (heap w)) Some sub) by done.
    rewrite <- fmap_app. apply (NoDup_fmap_2 _).
    apply NoDup_app. split_and!.
    + rewrite Hkeys. by eapply index_of_NoDup_nil.
    + intros k Hk Hk'. unfold od_keys in Hk'.
      apply list_elem_of_fmap in Hk' as ([k' e] & -> & Hin).
      by apply (Hsubk k' e Hin).
    + eapply sublist_NoDup; [|by apply sublist_od_keys].
      by eapply index_of_NoDup_nil.
Qed.

Lemma NoDup_fmap_eq {A B} (f : A → B) (l : list A) x y :
  NoDup (f <$> l) → x ∈ l → y ∈ l → f x = f y → x = y.
Proof.
  intros Hnd [i Hi]%list_elem_of_lookup [j Hj]%list_elem_of_lookup Hxy.
  assert (i = j) as ->.
  { eapply NoDup_lookup; [exact Hnd| |].
    - by rewrite list_lookup_fmap, Hi.
    - rewrite list_lookup_fmap, Hj. csimpl. by rewrite Hxy. }
  congruence.
Qed.

Lemma index_of_complete h ls d k l :
  index_of h ls [] = Some d → NoDup (listing_id h <$> ls) →
  l ∈ ls → listing_id h l = Some k → (k, l) ∈ d.
Proof.
  intros Hd Hnd Hl Hk.
  destruct (index_of_covers _ _ _ _ _ Hd Hl) as (k' & Hk' & Hin).
  assert (k' = k) as -> by congruence.
  unfold od_keys in Hin. apply list_elem_of_fmap in Hin as ([k1 l'] & Heq & Hin).
  csimpl in Heq. subst k1.
  destruct (index_of_sound _ _ _ _ _ Hd Hin) as [Hl' Hk1].
  assert (l' = l) as ->; [|done].
  eapply NoDup_fmap_eq; [exact Hnd|done..|congruence].
Qed.

Lemma classify_all_same (d items : odict) a u w :
  (∀ k l, (k, l) ∈ items →
     od_get k d = Some l ∧ comparable (obj (heap w) l)) →
  classify_all d items (d, a, u) w = (Ok (d, a, u), w).
Proof.
  induction items as [|[k l] items IH]; intros Hitems; [done|].
  destruct (Hitems k l) as [Hget Hcmp]; [apply elem_of_cons; by left|].
  csimpl. unfold bind at 1. unfold classify. rewrite Hget.
  unfold bind at 1. rewrite _is_listing_updated_run, is_updated_refl by done.
  unfold ret at 1. rewrite od_set_id by done.
  apply IH. intros k' l' Hin. apply Hitems, elem_of_cons. by right.
Qed.

Lemma preserve_all_present (nb items : odict) w :
  (∀ k l, (k, l) ∈ items → k ∈ od_keys nb) →
  preserve self nb items w = (Ok [], w).
Proof.
  induction items as [|[k l] items IH]; intros Hitems; [done|].
  csimpl. rewrite (proj2 (od_mem_true k nb))
    by (eapply Hitems, elem_of_cons; by left).
  apply IH. intros k' l' Hin. eapply Hitems, elem_of_cons. by right.
Qed.

(** C2, as the code has it.  Reconciling a list of records with pairwise
    distinct ids with itself, no compared field (price, availability,
    description) of a record being NaN, adds nothing, updates nothing and
    answers the list itself as [all_current], so the number of records is
    unchanged; nothing in the world changes either.  A record with a NaN in
    a compared field differs from itself: whenever the call returns, that
    record is in [updated]. *)
Theorem compare_listings_idempotent (S : list loc) w :
  Forall (has_id (heap w)) S →
  NoDup (listing_id (heap w) <$> S) →
  (Forall (fun l => comparable (obj (heap w) l)) S →
   compare_listings self S S w = (Ok ([], [], S), w) ∧
   ∃ all_current,
     (compare_listings self S S w).1 = Ok ([], [], all_current) ∧
     length all_current = length S) ∧
  (∀ added updated all_current w' l,
     compare_listings self S S w = (Ok (added, updated, all_current), w') →
     l ∈ S → ¬ comparable (obj (heap w) l) → l ∈ updated).
Proof.
  intros Hid Hnd. split.
  - intros Hcmp.
    assert (Hrun : compare_listings self S S w = (Ok ([], [], S), w)).
    { destruct (index_of_total (heap w) S []) as [d Hd].
      { intros l Hl. by apply (proj1 (Forall_forall _ _) Hid). }
      pose proof (index_of_NoDup_nil _ _ _ Hd) as Hdnd.
      pose proof (index_of_distinct _ _ _ _ Hd Hnd) as Hvals. csimpl in Hvals.
      unfold compare_listings.
      unfold bind at 1. rewrite index_by_id_run, Hd.
      unfold bind at 1. rewrite index_by_id_run, Hd.
      unfold bind at 1. rewrite classify_all_same.
      2:{ intros k l Hin. split; [by apply od_elem_get|].
          apply (proj1 (Forall_forall _ _) Hcmp).
          by destruct (index_of_sound _ _ _ _ _ Hd Hin). }
      unfold bind at 1. rewrite preserve_all_present.
      - unfold ret. by rewrite app_nil_r, Hvals.
      - intros k l Hin. unfold od_keys. apply list_elem_of_fmap.
        by exists (k, l). }
    split; [done|]. exists S. by rewrite Hrun.
  - intros a u c w' l Hrun Hl Hnan.
    destruct (compare_listings_partial _ _ _ _ _ Hrun)
      as (eb & nb0 & nb & w1 & pl & Heb & Hnb0 & HI & Hpl & Hc).
    csimpl in *.
    destruct HI as [Hclock Hreads Hids Hframe Hkeys Hentries Htodo Hadded
                    Hupdated Hvisited Hclassified Hkept].
    assert (eb = nb0) as -> by congruence.
    destruct (proj1 (Forall_forall _ _) Hid l Hl) as [i Hi].
    assert (Hk : listing_id (heap w) l = Some (hash_key i))
      by (unfold listing_id; by rewrite Hi).
    assert (Hin : (hash_key i, l) ∈ nb0) by (by eapply index_of_complete).
    specialize (Hclassified _ _ Hin). unfold classified in Hclassified.
    rewrite (od_elem_get _ l nb0) in Hclassified;
      [|by eapply index_of_NoDup_nil|done].
    by rewrite is_updated_NaN in Hclassified.
Qed.

(** C3.  A record that [compare_listings] puts in [updated] is a new
    record whose id is also the id of a stored record [e] from which a
    compared field differs; the same object is in [all_current]; after the
    call its [first_seen] is the one [e] had, its [last_updated] is a reading
    of the clock taken during the call, and every other field is as the
    crawl produced it.  With ids distinct within each input, every such new
    record is put in [updated]. *)
Theorem compare_listings_update_keeps_first_seen
    new existing w added updated all_current w' :
  compare_listings self new existing w
    = (Ok (added, updated, all_current), w') →
  (∀ l, l ∈ updated →
     l ∈ new ∧ l ∈ all_current ∧
     ∃ e fs n,
       e ∈ existing ∧ listing_id (heap w) e = listing_id (heap w) l ∧
       is_updated (obj (heap w) l) (obj (heap w) e) = true ∧
       obj (heap w) e !! "first_seen" = Some fs ∧
       (reads w ≤ n < reads w')%nat ∧
       obj (heap w') l !! "first_seen" = Some fs ∧
       obj (heap w') l !! "last_updated"
         = Some (VStr (isoformat (clock w n))) ∧
       ∀ key, key ≠ "first_seen" → key ≠ "last_updated" →
              obj (heap w') l !! key = obj (heap w) l !! key) ∧
  (NoDup (listing_id (heap w) <$> new) →
   NoDup (listing_id (heap w) <$> existing) →
   ∀ l e, l ∈ new → e ∈ existing →
     is_Some (listing_id (heap w) l) →
     listing_id (heap w) l = listing_id (heap w) e →
     is_updated (obj (heap w) l) (obj (heap w) e) = true →
     l ∈ updated).
Proof.
  intros Hrun.
  destruct (compare_listings_partial _ _ _ _ _ Hrun)
    as (eb & nb0 & nb & w1 & pl & Heb & Hnb0 & HI & Hpl & Hc).
  csimpl in *. subst all_current.
  destruct HI as [Hclock Hreads Hid Hframe Hkeys Hentries Htodo Hadded
                  Hupdated Hvisited Hclassified Hkept].
  destruct Hpl as ([j ->] & _). csimpl in *.
  split.
  - intros l Hl.
    destruct (Hupdated l Hl)
      as (Hnew & k & e & fs & n & Hk & Hge & Hgn & Hupd & Hfs & Hn & Hobj).
    split; [done|]. split.
    { apply elem_of_app. left. unfold od_values. apply list_elem_of_fmap.
      exists (k, l). split; [done|]. by apply od_get_Some_elem. }
    exists e, fs, n. apply od_get_Some_elem in Hge.
    destruct (index_of_sound _ _ _ _ _ Heb Hge) as [He Hek].
    rewrite heap_ticks, reads_ticks, Hobj.
    split_and!; try done; try lia.
    + congruence.
    + by rewrite lookup_insert_ne, lookup_insert_eq.
    + by rewrite lookup_insert_eq.
    + intros key Hk1 Hk2. by rewrite !lookup_insert_ne.
  - intros Hndn Hnde l e Hl He [k Hk] Hsame Hupd.
    assert (Hln : (k, l) ∈ nb0) by (by eapply index_of_complete).
    assert (Hle : (k, e) ∈ eb).
    { eapply index_of_complete; [exact Heb|done..|congruence]. }
    specialize (Hclassified k l Hln). unfold classified in Hclassified.
    rewrite (od_elem_get k e eb) in Hclassified;
      [|by eapply index_of_NoDup_nil|done].
    by rewrite Hupd in Hclassified.
Qed.

Lemma too_old_verdict_young d t0 t1 s fs :
  d !! "first_seen" = Some (VStr s) → fromisoformat s = Some (Naive fs) →
  t1 - fs ≤ max_age_days self * 86400000000 →
  too_old_verdict self d t0 t1 ≠ Ok true.
Proof.
  intros Hd Hs Hage. unfold too_old_verdict. rewrite Hd. csimpl. rewrite Hs.
  case_bool_decide; [|done]. rewrite bool_decide_eq_false_2 by lia. done.
Qed.

Lemma too_old_verdict_old d t0 t1 s fs :
  d !! "first_seen" = Some (VStr s) → fromisoformat s = Some (Naive fs) →
  max_age_days self * 86400000000 < t1 - fs →
  too_old_verdict self d t0 t1 ≠ Ok false.
Proof.
  intros Hd Hs Hage. unfold too_old_verdict. rewrite Hd. csimpl. rewrite Hs.
  case_bool_decide; [|done]. rewrite bool_decide_eq_true_2 by lia. done.
Qed.

Lemma too_old_verdict_unusable d t0 t1 v :
  d !! "first_seen" = Some v → unusable v →
  too_old_verdict self d t0 t1 ≠ Ok true.
Proof.
  intros Hd Hv. unfold too_old_verdict. rewrite Hd. csimpl.
  destruct v as [| | | |s]; try done.
  destruct Hv as [-> | ->]; [done|]. by case_bool_decide.
Qed.

Lemma too_old_verdict_missing d t0 t1 :
  d !! "first_seen" = None →
  too_old_verdict self d t0 t1
  = too_old_verdict self (<["first_seen" := VStr (isoformat t0)]> d) t0 t1.
Proof.
  intros Hd. unfold too_old_verdict. by rewrite Hd, lookup_insert_eq.
Qed.

(** C4, as the code has it.  Take a stored record [e] whose id no new
    record has, the ids of the stored records being pairwise distinct.  If
    it is in [all_current] it is there unchanged.  With a [first_seen] that
    parses, its age is counted at a reading of the clock taken during the
    call: it is in [all_current] when, and only when, that reading is no
    further from [first_seen] than the maximum age.  With a [first_seen]
    that cannot be used it is in [all_current].  Without a [first_seen] it
    is tested as the record with a reading of the clock taken during the
    call as its [first_seen].  Nothing here counts the records left out. *)
Theorem compare_listings_keeps_young
    new existing w added updated all_current w' e k :
  compare_listings self new existing w
    = (Ok (added, updated, all_current), w') →
  NoDup (listing_id (heap w) <$> existing) →
  e ∈ existing → listing_id (heap w) e = Some k →
  Forall (fun n => listing_id (heap w) n ≠ Some k) new →
  (e ∈ all_current → obj (heap w') e = obj (heap w) e) ∧
  (∀ s fs, obj (heap w) e !! "first_seen" = Some (VStr s) →
     fromisoformat s = Some (Naive fs) →
     ∃ n, (reads w < n < reads w')%nat ∧
       (e ∈ all_current ↔
        clock w n - fs ≤ max_age_days self * 86400000000)) ∧
  (∀ v, obj (heap w) e !! "first_seen" = Some v → unusable v →
     e ∈ all_current) ∧
  (obj (heap w) e !! "first_seen" = None →
     ∃ n b, (reads w ≤ n < reads w')%nat ∧
       too_old_verdict self
         (<["first_seen" := VStr (isoformat (clock w n))]> (obj (heap w) e))
         (clock w n) (clock w (S n)) = Ok b ∧
       (e ∈ all_current ↔ b = false)).
Proof.
  intros Hrun Hnde He Hk Hnew.
  destruct (compare_listings_partial _ _ _ _ _ Hrun)
    as (eb & nb0 & nb & w1 & pl & Heb & Hnb0 & HI & Hpl & Hc).
  csimpl in *. subst all_current.
  destruct HI as [Hclock Hreads Hid Hframe Hkeys Hentries Htodo Hadded
                  Hupdated Hvisited Hclassified Hkept].
  destruct Hpl as ([j ->] & _ & HA & _). csimpl in *.
  assert (Hknb : k ∉ od_keys nb).
  { rewrite Hkeys. intros Hin. unfold od_keys in Hin.
    apply list_elem_of_fmap in Hin as ([k1 n] & Heq & Hin).
    csimpl in Heq. subst k1.
    destruct (index_of_sound _ _ _ _ _ Hnb0 Hin) as [Hn Hnk].
    by apply (proj1 (Forall_forall _ _) Hnew n Hn). }
  assert (Hobj : obj (heap w1) e = obj (heap w) e).
  { apply Hframe. intros k' Hk'. rewrite <- Hkeys. congruence. }
  assert (Hin : (k, e) ∈ eb) by (by eapply index_of_complete).
  assert (Hpl : e ∈ od_values nb ++ pl → e ∈ pl).
  { intros [Hnb|?]%elem_of_app; [|done]. exfalso.
    unfold od_values in Hnb.
    apply list_elem_of_fmap in Hnb as ([k1 e1] & Heq & Hnb).
    csimpl in Heq. subst e1. destruct (Hentries k1 e Hnb) as [Hk1 _].
    apply Hknb. unfold od_keys. apply list_elem_of_fmap. exists (k1, e).
    split; [csimpl; congruence|done]. }
  assert (Hnd : NoDup (od_values eb)).
  { pose proof (index_of_distinct _ _ _ _ Heb Hnde) as Hvals.
    csimpl in Hvals. rewrite Hvals. by eapply NoDup_fmap_1. }
  destruct (HA k e Hin Hknb) as (n & b & (Hn1 & Hn2 & Hv) & Hyoung & Hold).
  rewrite Hobj, Hclock in Hn2, Hv. rewrite reads_ticks in Hn2.
  pose proof (too_old_readings_bounds self (obj (heap w) e) (clock w n))
    as Hj.
  assert (Hiff : e ∈ od_values nb ++ pl ↔ b = false).
  { split.
    - intros Hc. apply Hold; [done|by apply Hpl].
    - intros Hb. apply elem_of_app. right. by apply Hyoung. }
  split_and!.
  - intros _. by rewrite heap_ticks.
  - intros s fs Hfs Hs.
    unfold too_old_readings in Hn2. unfold too_old_verdict in Hv.
    rewrite Hfs in Hn2, Hv. csimpl in Hn2. csimpl in Hv.
    rewrite Hs in Hn2, Hv.
    case_bool_decide; [|done]. injection Hv as <-.
    exists (S n). rewrite reads_ticks. split; [lia|].
    rewrite Hiff, bool_decide_eq_false. lia.
  - intros v Hv' Hun. apply Hiff. destruct b; [|done].
    by apply (too_old_verdict_unusable _ _ _ _ Hv' Hun) in Hv.
  - intros Hnone. exists n, b. rewrite reads_ticks.
    split_and!; [lia|lia| |done].
    by rewrite <- too_old_verdict_missing.
Qed.

(** C10.  When the only new record and the only stored record have the same
    id and prices that differ, and the stored one has no ['first_seen'],
    [compare_listings] raises [KeyError('first_seen')].  The age test on a
    record without ['first_seen'] does not: it answers as for the record
    with the clock's reading as its [first_seen], and never raises a
    [KeyError]. *)
Theorem compare_listings_missing_first_seen w :
  (∀ n e i i',
     obj (heap w) n !! "id" = Some i → obj (heap w) e !! "id" = Some i' →
     hash_key i = hash_key i' →
     py_ne (dict_get (obj (heap w) n) "price")
           (dict_get (obj (heap w) e) "price") = true →
     obj (heap w) e !! "first_seen" = None →
     compare_listings self [n] [e] w = (Raise (KeyError "first_seen"), w)) ∧
  (∀ l, obj (heap w) l !! "first_seen" = None →
     (∃ j, _is_listing_too_old self l w =
           (too_old_verdict self
              (<["first_seen" := VStr (isoformat (clock w (reads w)))]>
                 (obj (heap w) l))
              (clock w (reads w)) (clock w (S (reads w))), ticks j w)) ∧
     ∀ key, (_is_listing_too_old self l w).1 ≠ Raise (KeyError key)).
Proof.
  split.
  - intros n e i i' Hi Hi' Hii Hprice Hnone.
    assert (Hix : ∀ l v, obj (heap w) l !! "id" = Some v →
              index_by_id [l] [] w = (Ok [(hash_key v, l)], w)).
    { intros l v Hl. rewrite index_by_id_run. csimpl. by rewrite Hl. }
    assert (Hcl : classify [(hash_key i', e)] ([(hash_key i, n)], [], [])
                    (hash_key i, n) w = (Raise (KeyError "first_seen"), w)).
    { unfold classify. csimpl. rewrite Hii, decide_True by done.
      unfold bind at 1. rewrite _is_listing_updated_run.
      unfold is_updated. rewrite Hprice. csimpl.
      unfold bind at 1. unfold getitem. by rewrite Hnone. }
    unfold compare_listings.
    unfold bind at 1. rewrite (Hix e i') by done.
    unfold bind at 1. rewrite (Hix n i) by done.
    unfold bind at 1. unfold classify_all. unfold bind at 1.
    by rewrite Hcl.
  - intros l Hnone.
    destruct (_is_listing_too_old_run self l w) as (j & _ & Hrun).
    rewrite too_old_verdict_missing in Hrun by done.
    split; [by exists j|].
    intros key. rewrite Hrun. csimpl. unfold too_old_verdict.
    repeat case_match; done.
Qed.

End Reconciler.

(** * The claims about the scraper *)

(** ** The search URL *)

Section SearchUrl.
Context `{DateTime, Markup}.

Lemma append_assoc (a b c : string) : (a +:+ b) +:+ c = a +:+ (b +:+ c).
Proof.
  induction a as [|x a IH]; [done|].
  change (String x ((a +:+ b) +:+ c) = String x (a +:+ (b +:+ c))).
  by f_equal.
Qed.

Lemma truthy_nonzero x : truthy x = bool_decide (is_Some (nonzero x)).
Proof.
  destruct x as [n|]; [|done]. unfold truthy, nonzero.
  destruct (decide (n = 0)) as [->|Hn]; [done|].
  rewrite (bool_decide_eq_true_2 (n ≠ 0)) by done.
  rewrite (bool_decide_eq_false_2 (n = 0)) by done.
  by rewrite bool_decide_eq_true_2 by eauto.
Qed.

(** C6, as the code has it.  [_build_search_url] is the function
    [amended_search_url] of the city, the configuration and the page: base
    path and city, then the price segment, the bedrooms segment and the size
    segment where the setting is set and not 0 (an absent minimum price
    being 0 next to a maximum), then the page segment when the page is above
    1.  On the configuration of the specification's example it gives the two
    URLs of the example. *)
Theorem build_search_url_segments (self : ParariusScraper) city page :
  _build_search_url self city page
    = amended_search_url (config self) city page ∧
  (price_min (config self) = Some (Some 800) →
   price_max (config self) = Some 1500 →
   min_bedrooms (config self) = Some 2 → min_size (config self) = Some 50 →
   _build_search_url self "rotterdam" 1 =
     "https://www.pararius.com/apartments/rotterdam/800-1500/2-bedrooms/50-m2"
   ∧ _build_search_url self "rotterdam" 3 =
     "https://www.pararius.com/apartments/rotterdam/800-1500/2-bedrooms/50-m2/page-3").
Proof.
  split.
  - unfold _build_search_url, amended_search_url, amended_price_segment,
      url_of_segments, spec_page_segment.
    rewrite !truthy_nonzero.
    replace (bool_decide (page > 1)) with (bool_decide (1 < page))
      by (apply bool_decide_ext; lia).
    destruct (price_min (config self)) as [[mn|]|],
      (price_max (config self)) as [mx|],
      (min_bedrooms (config self)) as [b|],
      (min_size (config self)) as [sz|];
      unfold nonzero; csimpl; repeat case_bool_decide; csimpl;
      try (exfalso; by eauto using is_Some_None);
      rewrite ?append_assoc; try reflexivity;
      try (exfalso; match goal with Hn : ¬ is_Some _ |- _ => by destruct Hn end).
  - intros Hmn Hmx Hb Hs. unfold _build_search_url.
    rewrite Hmn, Hmx, Hb, Hs. by vm_compute.
Qed.

End SearchUrl.

(** ** The fetcher *)

Section Fetcher.
Context `{DateTime, Markup}.
Variable self : ParariusScraper.

Lemma requests_get_fail url w :
  transport w (requests w) url = RespFail →
  requests_get url w
  = (Raise RequestException, count_request (log_event (EvGet url) w)).
Proof. unfold requests_get. by intros ->. Qed.

Lemma requests_get_ok url w body :
  transport w (requests w) url = RespOk body →
  requests_get url w = (Ok body, count_request (log_event (EvGet url) w)).
Proof. unfold requests_get. by intros ->. Qed.

Lemma sleep_ok d w : 0 ≤ d → sleep d w = (Ok tt, log_event (EvSleep d) w).
Proof. intros Hd. unfold sleep. by rewrite bool_decide_eq_false_2 by lia. Qed.

Lemma attempts_fail_step url m attempt w :
  0 ≤ request_delay self →
  transport w (requests w) url = RespFail →
  attempts self url (S m) attempt w =
  if bool_decide (attempt = max_retries self - 1)
  then (Ok None, count_request (log_event (EvGet url) w))
  else attempts self url m (attempt + 1)
         (log_event (EvSleep (request_delay self * 2))
            (count_request (log_event (EvGet url) w))).
Proof.
  intros Hd Hfail. cbn [attempts]. unfold bind at 1. unfold try_except.
  unfold bind at 1. rewrite requests_get_fail by done.
  case_bool_decide; [done|].
  unfold bind at 1. by rewrite sleep_ok by lia.
Qed.

Lemma attempts_ok_step url m attempt w body :
  0 ≤ request_delay self →
  transport w (requests w) url = RespOk body →
  attempts self url (S m) attempt w =
  (Ok (Some body),
   log_event (EvSleep (request_delay self))
     (count_request (log_event (EvGet url) w))).
Proof.
  intros Hd Hok. cbn [attempts]. unfold bind at 1. unfold try_except.
  unfold bind at 1. rewrite requests_get_ok with (body := body) by done.
  unfold bind at 1. by rewrite sleep_ok by lia.
Qed.

Lemma attempts_all_fail url m attempt w :
  0 ≤ request_delay self →
  attempt = max_retries self - Z.of_nat (S m) →
  (∀ i, (i < S m)%nat → transport w (requests w + i)%nat url = RespFail) →
  ∃ w', attempts self url (S m) attempt w = (Ok None, w') ∧
        events w' = events w ++ failed_attempts self url m ++ [EvGet url] ∧
        requests w' = (requests w + S m)%nat.
Proof.
  intros Hd. revert attempt w. induction m as [|m IH]; intros attempt w Ha Hf.
  - rewrite attempts_fail_step by (try done; by rewrite <- (Hf 0%nat), Nat.add_0_r by lia).
    rewrite bool_decide_eq_true_2 by lia.
    eexists. split; [done|]. csimpl. split; [done|lia].
  - rewrite attempts_fail_step by (try done; by rewrite <- (Hf 0%nat), Nat.add_0_r by lia).
    rewrite bool_decide_eq_false_2 by lia.
    edestruct (IH (attempt + 1)) as (w' & -> & Hev & Hreq); [lia| |].
    2:{ eexists. split; [done|]. rewrite Hev, Hreq. csimpl.
        split; [by rewrite <- !app_assoc|lia]. }
    intros i Hi. csimpl. rewrite <- (Hf (S i)) by lia. f_equal. lia.
Qed.

Lemma attempts_then_success url k : ∀ remaining attempt w body,
  0 ≤ request_delay self →
  attempt = max_retries self - Z.of_nat remaining →
  (k < remaining)%nat →
  (∀ i, (i < k)%nat → transport w (requests w + i)%nat url = RespFail) →
  transport w (requests w + k)%nat url = RespOk body →
  ∃ w', attempts self url remaining attempt w = (Ok (Some body), w') ∧
        events w' = events w ++ failed_attempts self url k
                      ++ [EvGet url; EvSleep (request_delay self)] ∧
        requests w' = (requests w + S k)%nat.
Proof.
  induction k as [|k IH]; intros remaining attempt w body Hd Ha Hk Hf Hok.
  - destruct remaining as [|m]; [lia|].
    rewrite Nat.add_0_r in Hok.
    rewrite attempts_ok_step with (body := body) by done.
    eexists. split; [done|]. csimpl. split; [by rewrite <- !app_assoc|lia].
  - destruct remaining as [|m]; [lia|].
    rewrite attempts_fail_step by (try done; by rewrite <- (Hf 0%nat), Nat.add_0_r by lia).
    rewrite bool_decide_eq_false_2 by lia.
    edestruct (IH m (attempt + 1)) as (w' & -> & Hev & Hreq);
      [done|lia|lia| | |].
    3:{ eexists. split; [done|]. rewrite Hev, Hreq. csimpl.
        split; [by rewrite <- !app_assoc|lia]. }
    + intros i Hi. csimpl. rewrite <- (Hf (S i)) by lia. f_equal. lia.
    + csimpl. rewrite <- Hok. f_equal. lia.
Qed.

Lemma attempts_bound url remaining : ∀ attempt w,
  (requests w ≤ requests (attempts self url remaining attempt w).2
   ≤ requests w + remaining)%nat.
Proof.
  induction remaining as [|m IH]; intros attempt w; [csimpl; lia|].
  cbn [attempts].
  unfold bind, try_except, requests_get, sleep, ret, raise, modify.
  destruct (transport w (requests w) url) as [body|];
    repeat case_bool_decide; csimpl; try lia.
  match goal with |- context [attempts self url m ?a ?w1] =>
    specialize (IH a w1); destruct (attempts self url m a w1) as [[r|e] w2]
  end; csimpl in *; lia.
Qed.


End Fetcher.

(** ** The field extractor *)

Lemma span_all_chars P s : Html.all_chars P (Html.span P s).1 = true.
Proof.
  induction s as [|c s IH]; [done|]. cbn [Html.span].
  destruct (P c) eqn:Hc; [|done].
  destruct (Html.span P s) as [a b]. cbn in *. by rewrite Hc, IH.
Qed.

Lemma digits_go_all_chars s acc :
  Html.all_chars Iso8601.is_digit s = true → is_Some (Iso8601.digits_go s acc).
Proof.
  revert acc. induction s as [|c s IH]; intros acc; [by eexists|].
  cbn [Html.all_chars Iso8601.digits_go]. intros [Hc Hs]%andb_true_iff.
  rewrite Hc. by apply IH.
Qed.

Lemma search_Some {A} (at_start : string → option A) s a :
  Html.search at_start s = Some a → ∃ s', at_start s' = Some a.
Proof.
  induction s as [|c s IH]; cbn [Html.search].
  - destruct (at_start "") eqn:Hs; [|done]. intros [= ->]. eauto.
  - destruct (at_start (String c s)) eqn:Hs; [|done]. intros [= ->]. eauto.
Qed.

Lemma digits_then_number unit s g :
  Html.digits_then unit s = Some g → is_Some (Iso8601.number g).
Proof.
  unfold Html.digits_then. pose proof (span_all_chars Iso8601.is_digit s) as Hall.
  destruct (Html.span Iso8601.is_digit s) as [a b]. cbn in Hall.
  destruct (decide (a = "")) as [|Hne]; [done|].
  destruct (Html.strip_prefix unit (Html.drop_spaces b)); [|done].
  intros [= <-]. unfold Iso8601.number.
  destruct a; [done|]. by apply digits_go_all_chars.
Qed.

#[global] Instance html_laws : MarkupLaws.
Proof.
  split.
  - reflexivity.
  - intros s g [s' Hs']%search_Some. by eapply digits_then_number.
  - intros s g [s' Hs']%search_Some. by eapply digits_then_number.
Qed.

Section Extractor.
Context `{DateTime, Markup, !MarkupLaws}.

Lemma feature_returns features item w :
  ∃ features', feature features item w = (Ok features', w).
Proof.
  unfold feature.
  destruct (any_class "surface-area" _).
  { destruct (re_size _) as [g|] eqn:Hg; [|by eexists].
    destruct (re_size_number _ _ Hg) as [n ->]. by eexists. }
  destruct (any_class "number-of-rooms" _).
  { destruct (re_rooms _) as [g|] eqn:Hg; [|by eexists].
    destruct (re_rooms_number _ _ Hg) as [n ->]. by eexists. }
  destruct (any_class "interior" _); by eexists.
Qed.

Lemma features_of_returns items features w :
  ∃ features', features_of items features w = (Ok features', w).
Proof.
  revert features. induction items as [|item items IH]; intros features.
  - by eexists.
  - cbn [features_of]. unfold bind.
    destruct (feature_returns features item w) as [f' ->]. apply IH.
Qed.

(** C8.  [_extract_listing_data] always returns a dictionary.  For a
    fragment with a title link that has an [href], and with no price element
    or a price text in which the pattern finds nothing, the dictionary is a
    record whose [price] is [None]. *)
Theorem extract_listing_data_price_null listing_element w :
  (∃ d w', _extract_listing_data listing_element w = (Ok d, w')) ∧
  (∀ listing_link href,
     select_one "a.listing-search-item__link--title" listing_element
       = Some listing_link →
     attr listing_link "href" = Some href →
     match select_one ".listing-search-item__price" listing_element with
     | Some price_elem => re_price (strip (text price_elem)) = None
     | None => True
     end →
     ∃ d, _extract_listing_data listing_element w = (Ok d, ticks 2 w) ∧
          d !! "price" = Some VNone ∧
          d !! "id"
            = Some (VStr (last_segment ("https://www.pararius.com" +:+ href)))).
Proof.
  split.
  - unfold _extract_listing_data, try_except.
    destruct (extract_listing listing_element w) as [[d|e] w']; by eauto.
  - intros listing_link href Hlink Hhref Hprice.
    unfold _extract_listing_data, try_except, extract_listing.
    rewrite Hlink, Hhref. unfold bind at 1. unfold ret at 1.
    assert (re_price
              match select_one ".listing-search-item__price" listing_element
              with
              | Some p => strip (text p)
              | None => "Unknown"
              end = None) as ->.
    { destruct (select_one ".listing-search-item__price" listing_element);
        [done|apply re_price_Unknown]. }
    unfold bind at 1. unfold ret at 1. unfold bind at 1.
    destruct (features_of_returns
                (select ".illustrated-features__item" listing_element) ∅ w)
      as [features ->].
    unfold bind, now, ret. csimpl. eexists. split; [done|].
    split; [|by rewrite lookup_insert_eq].
    do 3 (rewrite lookup_insert_ne by done). by rewrite lookup_insert_eq.
Qed.

End Extractor.

(** * The claims about the pipeline *)

(** ** Eviction and re-seen records *)

Section Eviction.
Context `{DateTime, Markup}.
Variable self : ListingStorage.

Lemma sublist_same_length {A} (l1 l2 : list A) :
  l1 `sublist_of` l2 → length l1 = length l2 → l1 = l2.
Proof.
  induction 1 as [|x l1 l2 Hsub IH|x l1 l2 Hsub IH]; csimpl; intros Hlen.
  - done.
  - f_equal. apply IH. lia.
  - apply sublist_length in Hsub. lia.
Qed.

Lemma alloc_all_run ds w :
  alloc_all ds w
  = (Ok (seq (length (heap w)) (length ds)), set_heap (fun h => h ++ ds) w).
Proof.
  revert w. induction ds as [|d ds IH]; intros w.
  - cbn [alloc_all]. unfold ret, set_heap. rewrite app_nil_r.
    by destruct w.
  - cbn [alloc_all]. unfold bind at 1. unfold alloc.
    unfold bind at 1. rewrite IH. unfold ret. csimpl.
    rewrite length_app. csimpl. rewrite Nat.add_1_r.
    unfold set_heap. csimpl. by rewrite <- app_assoc.
Qed.

Lemma obj_alloc (h ds : list dict) i d :
  ds !! i = Some d → obj (h ++ ds) (length h + i)%nat = d.
Proof.
  intros Hd. unfold obj. rewrite lookup_app_r by lia.
  replace (length h + i - length h)%nat with i by lia. by rewrite Hd.
Qed.

Lemma wp_keep_young E ls w :
  (E ∨ -999999999 ≤ max_age_days self ≤ 999999999) →
  wp E (keep_young self ls) (keep_young_post self ls w) w.
Proof.
  intros HE. revert w. induction ls as [|l ls IH]; intros w.
  - apply wp_ret. split_and!; [by exists 0%nat|done|].
    intros ? Hin. by apply elem_of_nil in Hin.
  - cbn [keep_young]. apply wp_bind, wp_is_listing_too_old; [|done].
    intros j b Hj _ Hv. apply wp_bind.
    eapply wp_mono; [|apply IH].
    intros kept w' ([j' ->] & Hsub & Hkept).
    rewrite heap_ticks, clock_ticks in Hkept.
    apply wp_ret. split_and!.
    + exists (j' + j)%nat. by rewrite ticks_ticks.
    + destruct b; [by apply sublist_cons|by apply sublist_skip].
    + intros l' Hl'.
      assert ((l' = l ∧ b = false) ∨ l' ∈ kept) as [[-> ->]|Hin].
      { destruct b; [by right|].
        apply elem_of_cons in Hl' as [->|?]; [by left|by right]. }
      * by exists (reads w).
      * by apply Hkept.
Qed.

(** C5, as the code has it.  Inside [compare_listings] age never removes
    a record that is re-seen: when a new record has the id of a stored one,
    the ids of the stored records being pairwise distinct, [all_current] has
    a record with that id and with the [first_seen] of the stored record,
    however old.  [clean_old_listings], which [main] calls before the crawl,
    looks at age alone: once it has written the store back, no record older
    than the maximum age at every reading of the clock is left, and no
    request has been made. *)
Theorem eviction_spares_reseen_in_compare_only :
  (∀ new existing w added updated all_current w' n e k,
     compare_listings self new existing w
       = (Ok (added, updated, all_current), w') →
     NoDup (listing_id (heap w) <$> existing) →
     n ∈ new → e ∈ existing →
     listing_id (heap w) n = Some k → listing_id (heap w) e = Some k →
     ∃ l, l ∈ all_current ∧ listing_id (heap w') l = Some k ∧
          obj (heap w') l !! "first_seen"
            = obj (heap w) e !! "first_seen") ∧
  (∀ w stored,
     listings_file w = Content stored →
     -999999999 ≤ max_age_days self ≤ 999999999 →
     write_ok w (writes w) = true →
     ∃ removed w' kept,
       clean_old_listings self w = (Ok removed, w') ∧
       listings_file w' = Content kept ∧
       requests w' = requests w ∧
       ∀ d s fs, d ∈ stored →
         d !! "first_seen" = Some (VStr s) →
         fromisoformat s = Some (Naive fs) →
         (∀ n, max_age_days self * 86400000000 < clock w n - fs) →
         d ∉ kept).
Proof.
  split.
  - intros new existing w a u c w' n e k Hrun Hnde Hn He Hnk Hek.
    destruct (compare_listings_partial _ _ _ _ _ _ Hrun)
      as (eb & nb0 & nb & w1 & pl & Heb & Hnb0 & HI & Hpl & Hc).
    csimpl in *. subst c.
    destruct HI as [Hclock Hreads Hid Hframe Hkeys Hentries Htodo Hadded
                    Hupdated Hvisited Hclassified Hkept].
    destruct Hpl as ([j ->] & _). csimpl in *.
    assert (Hle : (k, e) ∈ eb) by (by eapply index_of_complete).
    apply od_elem_get in Hle; [|by eapply index_of_NoDup_nil].
    destruct (index_of_covers _ _ _ _ _ Hnb0 Hn) as (k' & Hk' & Hin).
    assert (k' = k) as -> by congruence.
    unfold od_keys in Hin.
    apply list_elem_of_fmap in Hin as ([k1 n'] & Heq & Hin).
    csimpl in Heq. subst k1.
    destruct (index_of_sound _ _ _ _ _ Hnb0 Hin) as [Hn' Hn'k].
    pose proof (Hclassified k n' Hin) as Hcl. unfold classified in Hcl.
    rewrite Hle in Hcl.
    destruct (is_updated (obj (heap w) n') (obj (heap w) e)) eqn:Hupd.
    + destruct (Hupdated n' Hcl)
        as (_ & k2 & e2 & fs & m & Hk2 & Hge & Hgn & _ & Hfs & _ & Hobj).
      assert (k2 = k) as -> by congruence.
      assert (e2 = e) as -> by congruence.
      exists n'. split_and!.
      * apply elem_of_app. left. unfold od_values. apply list_elem_of_fmap.
        exists (k, n'). split; [done|]. by apply od_get_Some_elem.
      * unfold listing_id. by rewrite heap_ticks, Hid.
      * rewrite heap_ticks, Hobj, Hfs.
        by rewrite lookup_insert_ne, lookup_insert_eq.
    + exists e. split_and!.
      * apply elem_of_app. left. unfold od_values. apply list_elem_of_fmap.
        exists (k, e). split; [done|]. by apply od_get_Some_elem.
      * unfold listing_id. by rewrite heap_ticks, Hid.
      * rewrite heap_ticks. by rewrite (Hkept k n' e).
  - intros w stored Hfile Hbound Hwrite.
    unfold clean_old_listings, load_listings.
    unfold bind at 1. rewrite Hfile, alloc_all_run.
    set (ls := seq (length (heap w)) (length stored)).
    set (w1 := set_heap (fun h => h ++ stored) w).
    pose proof (wp_keep_young False ls w1 (or_intror Hbound)) as Hwp.
    apply wp_total in Hwp as (kept & w2 & Hrun & ([j ->] & Hsub & Hkept)).
    unfold bind at 1. rewrite Hrun.
    assert (Hold : ∀ d s fs l, d !! "first_seen" = Some (VStr s) →
              fromisoformat s = Some (Naive fs) →
              (∀ n, max_age_days self * 86400000000 < clock w n - fs) →
              l ∈ kept → obj (heap w1) l ≠ d).
    { intros d s fs l Hd Hs Hage Hl Hobj.
      destruct (Hkept l Hl) as [n Hv]. rewrite Hobj in Hv.
      by eapply too_old_verdict_old. }
    case_bool_decide as Hrem.
    + unfold bind, save_listings, ret.
      rewrite !heap_ticks.
      assert (write (ticks j w1) (writes (ticks j w1)) = Written) as ->.
      { apply bool_decide_eq_true in Hwrite.
        clear -Hwrite. induction j; [done|]. by csimpl. }
      eexists _, _, _. split_and!; [done|done| |].
      * csimpl. clear. induction j; [done|]. by csimpl.
      * intros d s fs _ Hd Hs Hage Hin.
        apply list_elem_of_fmap in Hin as (l & Hobj & Hl).
        by eapply (Hold d s fs l).
    + unfold ret. eexists _, _, stored. split_and!; [done| | |].
      * clear -Hfile. induction j; [done|]. by csimpl.
      * clear. induction j; [done|]. by csimpl.
      * intros d s fs Hin Hd Hs Hage _.
        assert (kept = ls) as ->.
        { apply sublist_same_length; [done|].
          apply sublist_length in Hsub. lia. }
        apply list_elem_of_lookup in Hin as [i Hi].
        apply (Hold d s fs (length (heap w) + i)%nat Hd Hs Hage).
        -- subst ls. apply list_elem_of_lookup. exists i.
           apply lookup_seq. split; [done|]. by eapply lookup_lt_Some.
        -- subst w1. csimpl. by apply obj_alloc.
Qed.

End Eviction.

(** ** Failed writes and the exit code *)

Section ExitCode.
Context `{DateTime, Markup}.

Lemma run_split cfg w :
  run cfg w = bind (reconcile cfg) persist_and_notify w.
Proof.
  unfold run, reconcile, bind.
  repeat match goal with
  | |- context [match ?m ?w with _ => _ end] =>
      lazymatch m with
      | ListingStorage_init _ => destruct (m w) as [[?|?] ?]
      | clean_old_listings _ => destruct (m w) as [[?|?] ?]
      | load_listings => destruct (m w) as [[?|?] ?]
      | scrape_all_cities _ => destruct (m w) as [[?|?] ?]
      | save_latest_listings _ => destruct (m w) as [[?|?] ?]
      | alloc_all _ => destruct (m w) as [[?|?] ?]
      | compare_listings _ _ _ => destruct (m w) as [[[[? ?] ?]|?] ?]
      end
  end; try done.
Qed.

(** C9, as the code has it.  A write of the store that fails makes
    [save_listings] answer [False], with the listings in memory as they
    were; the file is as it was when the [open] is refused, and is left cut
    short when the failure comes after the [open].  [main] does not look at
    the answer: once [compare_listings] has returned, [main] returns 0
    whether or not the write works, the listings in memory are untouched and
    the notification sink is given the same [added] and [updated]; only the
    file differs. *)
Theorem failed_write_is_not_surfaced :
  (∀ listings w, write_ok w (writes w) = false →
     ∃ w', save_listings listings w = (Ok false, w') ∧
           heap w' = heap w ∧
           listings_file w' =
             match write w (writes w) with
             | Cut => Corrupt
             | _ => listings_file w
             end) ∧
  (∀ w cfg added updated all_current w1,
     config_file w = Some cfg →
     reconcile cfg (tick w) = (Ok (added, updated, all_current), w1) →
     ∃ w2, main w = (Ok 0, w2) ∧
           heap w2 = heap w1 ∧
           notified w2
             = notified w1 ++ notification (heap w1) added updated ∧
           listings_file w2 =
             match write w1 (writes w1) with
             | Written => Content (obj (heap w1) <$> all_current)
             | Refused => listings_file w1
             | Cut => Corrupt
             end).
Proof.
  split.
  - intros listings w Hw. apply bool_decide_eq_false in Hw.
    unfold save_listings.
    destruct (write w (writes w)); [done|by eexists..].
  - intros w cfg a u c w1 Hcfg Hrec.
    unfold main. unfold bind at 1. unfold now at 1.
    unfold bind at 1. unfold try_except.
    replace (config_file (tick w)) with (config_file w) by done.
    rewrite Hcfg, run_split. unfold bind at 1. rewrite Hrec.
    unfold persist_and_notify, bind, save_listings, send_notification,
      save_run_stats, now, modify, ret.
    destruct (write w1 (writes w1)), a as [|? ?], u as [|? ?]; csimpl;
      eexists; split_and!; try done; by rewrite ?app_nil_r.
Qed.

End ExitCode.

(** * What the code leaves alone

    [keeps f m] for the functions of the pipeline, whatever part [f] of the
    world is, given the operations on the world that [f] does not see. *)

Section Keeps.
Context `{DateTime, Markup}.
Context {B : Type} (f : world → B).

Lemma keeps_ret {A} (a : A) : keeps f (ret a).
Proof. done. Qed.

Lemma keeps_raise {A} e : keeps f (raise (A := A) e).
Proof. done. Qed.

Lemma keeps_gets {A} (g : world → A) : keeps f (gets g).
Proof. done. Qed.

Lemma keeps_bind {A C} (m : M A) (k : A → M C) :
  keeps f m → (∀ a, keeps f (k a)) → keeps f (bind m k).
Proof.
  intros Hm Hk w. unfold bind. specialize (Hm w).
  destruct (m w) as [[a|e] w1]; csimpl in *; [|done].
  by rewrite Hk.
Qed.

Lemma keeps_try_except {A} (m : M A) (k : exn → M A) :
  keeps f m → (∀ e, keeps f (k e)) → keeps f (try_except m k).
Proof.
  intros Hm Hk w. unfold try_except. specialize (Hm w).
  destruct (m w) as [[a|e] w1]; csimpl in *; [done|].
  by rewrite Hk.
Qed.

Lemma keeps_getitem l k : keeps f (getitem l k).
Proof. intros w. unfold getitem. by destruct (_ !! _). Qed.

Lemma keeps_get l k : keeps f (get l k).
Proof. done. Qed.

Lemma keeps_get_default l k d : keeps f (get_default l k d).
Proof. done. Qed.

Hypothesis Htick : ∀ w, f (tick w) = f w.
Hypothesis Hheap : ∀ g w, f (set_heap g w) = f w.

Lemma keeps_now : keeps f now.
Proof. intros w. apply Htick. Qed.

Lemma keeps_setitem l k v : keeps f (setitem l k v).
Proof. intros w. apply Hheap. Qed.

Lemma keeps_alloc d : keeps f (alloc d).
Proof. intros w. apply Hheap. Qed.

End Keeps.

Create HintDb keeps.

Ltac keeps_step :=
  first
    [ apply keeps_ret | apply keeps_raise | apply keeps_gets
    | apply keeps_getitem | apply keeps_get | apply keeps_get_default
    | apply keeps_bind; [|intros ?]
    | apply keeps_try_except; [|intros ?]
    | match goal with
      | |- keeps _ (match ?x with _ => _ end) => destruct x
      | |- keeps _ (if ?x then _ else _) => destruct x
      end ].

Section KeepsStorage.
Context `{DateTime, Markup}.
Context {B : Type} (f : world → B).
Hypothesis Htick : ∀ w, f (tick w) = f w.
Hypothesis Hheap : ∀ g w, f (set_heap g w) = f w.
Variable self : ListingStorage.

Local Hint Resolve keeps_now keeps_setitem keeps_alloc : keeps.

Ltac keeps_storage := repeat ((by auto with keeps) || keeps_step).

Lemma keeps_alloc_all ds : keeps f (alloc_all ds).
Proof. induction ds; cbn [alloc_all]; keeps_storage. Qed.

Lemma keeps_is_listing_updated n e : keeps f (_is_listing_updated n e).
Proof. intros w. by rewrite _is_listing_updated_run. Qed.

Lemma keeps_is_listing_too_old l : keeps f (_is_listing_too_old self l).
Proof.
  intros w. destruct (_is_listing_too_old_run self l w) as (j & _ & ->).
  csimpl. clear -Htick. induction j; [done|]. cbn [ticks]. by rewrite Htick.
Qed.

Lemma keeps_index_by_id ls acc : keeps f (index_by_id ls acc).
Proof. intros w. by rewrite index_by_id_run. Qed.

Local Hint Resolve keeps_is_listing_updated keeps_is_listing_too_old
  keeps_index_by_id keeps_alloc_all : keeps.

Lemma keeps_classify eb st item : keeps f (classify eb st item).
Proof.
  destruct st as [[nb a] u], item as [k l]. unfold classify. keeps_storage.
Qed.

Local Hint Resolve keeps_classify : keeps.

Lemma keeps_classify_all eb items st : keeps f (classify_all eb items st).
Proof.
  revert st. induction items as [|item items IH]; intros st;
    cbn [classify_all]; keeps_storage.
Qed.

Lemma keeps_preserve nb items : keeps f (preserve self nb items).
Proof.
  induction items as [|[k l] items IH]; cbn [preserve]; keeps_storage.
Qed.

Local Hint Resolve keeps_classify_all keeps_preserve : keeps.

Lemma keeps_compare_listings new existing :
  keeps f (compare_listings self new existing).
Proof.
  unfold compare_listings. keeps_storage.
Qed.

Lemma keeps_keep_young ls : keeps f (keep_young self ls).
Proof. induction ls as [|l ls IH]; cbn [keep_young]; keeps_storage. Qed.

End KeepsStorage.

(** * More about the reconciler *)

Section ReconcilerMore.
Context `{DateTime, Markup}.
Variable self : ListingStorage.

Lemma index_of_None h ls acc l :
  l ∈ ls → obj h l !! "id" = None → index_of h ls acc = None.
Proof.
  revert acc. induction ls as [|l' ls IH]; intros acc Hin Hid.
  - by apply elem_of_nil in Hin.
  - cbn [index_of]. apply elem_of_cons in Hin as [<-|Hin].
    + by rewrite Hid.
    + destruct (obj h l' !! "id"); [by apply IH|done].
Qed.

(** X1.  A record without ['id'], stored or new, makes [compare_listings]
    raise [KeyError('id')] before it has changed or read anything. *)
Theorem compare_listings_missing_id new existing w l :
  l ∈ existing ++ new → obj (heap w) l !! "id" = None →
  compare_listings self new existing w = (Raise (KeyError "id"), w).
Proof.
  intros Hin Hid. unfold compare_listings.
  unfold bind at 1. rewrite index_by_id_run.
  destruct (index_of (heap w) existing []) as [eb|] eqn:Heb; [|done].
  apply elem_of_app in Hin as [Hin|Hin].
  { by rewrite (index_of_None _ _ _ _ Hin Hid) in Heb. }
  unfold bind at 1. rewrite index_by_id_run.
  by rewrite (index_of_None _ _ _ _ Hin Hid).
Qed.


Lemma index_of_last h ls acc d k l :
  index_of h ls acc = Some d → NoDup (od_keys acc) → (k, l) ∈ d →
  ((k, l) ∈ acc ∧ ∀ x, x ∈ ls → listing_id h x ≠ Some k) ∨
  ∃ pre post, ls = pre ++ l :: post ∧
              ∀ x, x ∈ post → listing_id h x ≠ Some k.
Proof.
  revert acc. induction ls as [|l' ls IH]; intros acc; cbn [index_of].
  - intros [= ->] _ Hin. left. split; [done|].
    intros x Hx. by apply elem_of_nil in Hx.
  - destruct (obj h l' !! "id") as [i|] eqn:Hi; [|done].
    intros Hd Hnd Hin.
    destruct (IH _ Hd (od_set_NoDup _ _ _ Hnd) Hin)
      as [[Hset Hls]|(pre & post & -> & Hpost)].
    + apply od_set_elem in Hset as [[-> ->]|[Hne Hacc]]; [| |done].
      * right. by exists [], ls.
      * left. split; [done|].
        intros x [->|Hx]%elem_of_cons; [|by apply Hls].
        unfold listing_id. rewrite Hi. csimpl. congruence.
    + right. by exists (l' :: pre), post.
Qed.

Lemma index_of_length h ls acc d :
  index_of h ls acc = Some d → (length d ≤ length acc + length ls)%nat.
Proof.
  revert acc. induction ls as [|l ls IH]; intros acc; cbn [index_of].
  - intros [= ->]. lia.
  - destruct (obj h l !! "id") as [i|]; [|done].
    intros Hd%IH. cbn [length].
    assert (length (od_set (hash_key i) l acc) ≤ S (length acc))%nat; [|lia].
    clear. induction acc as [|[k' l'] acc IH]; csimpl; [lia|].
    case_decide; csimpl; lia.
Qed.

(** Where the entry of a key of the new index went, at the end of the
    classification loop: a record in [added] or [updated] is the entry the
    index had for its id. *)
Lemma Inv_announced new existing w eb nb0 nb a u w1 l :
  index_of (heap w) new [] = Some nb0 →
  Inv new existing w eb nb0 nb0 (nb, a, u) w1 →
  l ∈ a ++ u → ∃ k, (k, l) ∈ nb0.
Proof.
  intros Hnb0 HI Hl.
  destruct HI as [Hclock Hreads Hid Hframe Hkeys Hentries Htodo Hadded
                  Hupdated Hvisited Hclassified Hkept].
  csimpl in *.
  assert (Hfind : ∀ k, od_get k nb = Some l → ∃ l0, (k, l0) ∈ nb0).
  { intros k Hg. apply od_get_Some_elem in Hg.
    assert (k ∈ od_keys nb0) as Hk.
    { rewrite <- Hkeys. unfold od_keys. apply list_elem_of_fmap.
      by exists (k, l). }
    unfold od_keys in Hk. apply list_elem_of_fmap in Hk as ([k' l0] & -> & ?).
    by exists l0. }
  apply elem_of_app in Hl as [Hl|Hl].
  - destruct (Hadded l Hl) as (_ & k & Hk & Hnone & Hg & _).
    destruct (Hfind k Hg) as [l0 Hl0]. exists k.
    pose proof (Hclassified k l0 Hl0) as Hcl. unfold classified in Hcl.
    rewrite Hnone in Hcl.
    destruct (Hadded l0 Hcl) as (_ & k0 & Hk0 & _ & Hg0 & _).
    destruct (index_of_sound _ _ _ _ _ Hnb0 Hl0) as [_ Hk0'].
    assert (k0 = k) as -> by congruence.
    assert (l0 = l) as -> by congruence. done.
  - destruct (Hupdated l Hl) as (_ & k & e & fs & n & Hk & Hge & Hg & Hupd & _).
    destruct (Hfind k Hg) as [l0 Hl0]. exists k.
    pose proof (Hclassified k l0 Hl0) as Hcl. unfold classified in Hcl.
    rewrite Hge in Hcl.
    destruct (is_updated (obj (heap w) l0) (obj (heap w) e)) eqn:Hupd0.
    + destruct (Hupdated l0 Hcl) as (_ & k0 & ? & ? & ? & Hk0 & _ & Hg0 & _).
      destruct (index_of_sound _ _ _ _ _ Hnb0 Hl0) as [_ Hk0'].
      assert (k0 = k) as -> by congruence.
      assert (l0 = l) as -> by congruence. done.
    + assert (e = l) as -> by congruence.
      by rewrite (is_updated_self _ _ Hupd) in Hupd0.
Qed.

(** X2.  When several new records have the same id, the last of them is the
    one that counts: a record in [added] or in [updated] is followed in the
    new list by no record with its id. *)
Theorem compare_listings_last_duplicate_wins
    new existing w added updated all_current w' l :
  compare_listings self new existing w
    = (Ok (added, updated, all_current), w') →
  l ∈ added ++ updated →
  ∃ pre post, new = pre ++ l :: post ∧
    ∀ x, x ∈ post → listing_id (heap w) x ≠ listing_id (heap w) l.
Proof.
  intros Hrun Hl.
  destruct (compare_listings_partial _ _ _ _ _ _ Hrun)
    as (eb & nb0 & nb & w1 & pl & Heb & Hnb0 & HI & Hpl & Hc).
  csimpl in *.
  destruct (Inv_announced _ _ _ _ _ _ _ _ _ _ Hnb0 HI Hl) as [k Hin].
  destruct (index_of_sound _ _ _ _ _ Hnb0 Hin) as [_ Hk].
  destruct (index_of_last _ _ _ _ _ _ Hnb0 (NoDup_nil_2) Hin)
    as [[Hnil _]|(pre & post & -> & Hpost)].
  { by apply elem_of_nil in Hnil. }
  exists pre, post. split; [done|]. intros x Hx. rewrite Hk. by apply Hpost.
Qed.

(** X3.  No crawled record is lost and none is invented: every new record has
    its id in [all_current], every record of [all_current] is one of the
    records passed in, a record in [added] is in [all_current] as the crawl
    made it and is not in [updated], and [all_current] is no longer than the
    two inputs together. *)
Theorem compare_listings_covers
    new existing w added updated all_current w' :
  compare_listings self new existing w
    = (Ok (added, updated, all_current), w') →
  (∀ n, n ∈ new →
     ∃ l, l ∈ all_current ∧ listing_id (heap w') l = listing_id (heap w) n) ∧
  (∀ l, l ∈ all_current → l ∈ new ∨ l ∈ existing) ∧
  (∀ l, l ∈ added →
     l ∈ new ∧ l ∈ all_current ∧ (l ∉ updated) ∧
     obj (heap w') l = obj (heap w) l) ∧
  (length all_current ≤ length new + length existing)%nat.
Proof.
  intros Hrun.
  destruct (compare_listings_partial _ _ _ _ _ _ Hrun)
    as (eb & nb0 & nb & w1 & pl & Heb & Hnb0 & HI & Hpl & Hc).
  csimpl in *. subst all_current.
  destruct HI as [Hclock Hreads Hid Hframe Hkeys Hentries Htodo Hadded
                  Hupdated Hvisited Hclassified Hkept].
  destruct Hpl as ([j ->] & (sub & -> & Hsub & Hsubk) & _ & _).
  csimpl in *. split_and!.
  - intros n Hn.
    destruct (index_of_covers _ _ _ _ _ Hnb0 Hn) as (k & Hk & Hin).
    rewrite <- Hkeys in Hin. unfold od_keys in Hin.
    apply list_elem_of_fmap in Hin as ([k' l] & -> & Hin). csimpl in *.
    exists l. split.
    + apply elem_of_app. left. unfold od_values. apply list_elem_of_fmap.
      by exists (k', l).
    + destruct (Hentries k' l Hin) as [Hl _].
      unfold listing_id in *. rewrite heap_ticks, Hid. congruence.
  - intros l [Hl|Hl]%elem_of_app; unfold od_values in Hl;
      apply list_elem_of_fmap in Hl as ([k l'] & -> & Hin); csimpl.
    + by destruct (Hentries k l' Hin).
    + right. eapply index_of_sound; [exact Heb|]. by eapply elem_of_sublist.
  - intros l Hl.
    destruct (Hadded l Hl) as (Hnew & k & Hk & Hnone & Hg & Hobj).
    split_and!; [done| | |by rewrite heap_ticks].
    + apply elem_of_app. left. unfold od_values. apply list_elem_of_fmap.
      exists (k, l). split; [done|]. by apply od_get_Some_elem.
    + intros Hu.
      destruct (Hupdated l Hu) as (_ & k' & e & ? & ? & Hk' & Hge & _).
      congruence.
  - rewrite length_app. unfold od_values. rewrite !length_fmap.
    pose proof (index_of_length _ _ _ _ Hnb0) as Hn.
    pose proof (index_of_length _ _ _ _ Heb) as He.
    pose proof (sublist_length _ _ Hsub) as Hs.
    assert (length nb = length nb0) as ->.
    { rewrite <- (length_fmap fst nb), <- (length_fmap fst nb0).
      by f_equal. }
    csimpl in *. lia.
Qed.


(** X4.  A new record with the id of a stored record and the same price,
    availability and description is dropped in favour of the stored one: the
    stored object is in [all_current], unchanged, and the new one is announced
    nowhere and, unless it is that very object, stored nowhere; whatever else
    the crawl found for it (title, size, location) is lost. *)
Theorem compare_listings_unchanged_keeps_stored
    new existing w added updated all_current w' n e :
  compare_listings self new existing w
    = (Ok (added, updated, all_current), w') →
  NoDup (listing_id (heap w) <$> new) →
  NoDup (listing_id (heap w) <$> existing) →
  n ∈ new → e ∈ existing →
  is_Some (listing_id (heap w) n) →
  listing_id (heap w) n = listing_id (heap w) e →
  is_updated (obj (heap w) n) (obj (heap w) e) = false →
  e ∈ all_current ∧ obj (heap w') e = obj (heap w) e ∧
  (n ∉ added) ∧ (n ∉ updated) ∧ (n ≠ e → n ∉ all_current).
Proof.
  intros Hrun Hndn Hnde Hn He [k Hk] Hsame Hupd.
  destruct (compare_listings_partial _ _ _ _ _ _ Hrun)
    as (eb & nb0 & nb & w1 & pl & Heb & Hnb0 & HI & Hpl & Hc).
  csimpl in *. subst all_current.
  destruct HI as [Hclock Hreads Hid Hframe Hkeys Hentries Htodo Hadded
                  Hupdated Hvisited Hclassified Hkept].
  destruct Hpl as ([j ->] & (sub & -> & Hsub & Hsubk) & _ & _).
  csimpl in *.
  assert (Hln : (k, n) ∈ nb0) by (by eapply index_of_complete).
  assert (Hle : (k, e) ∈ eb).
  { eapply index_of_complete; [exact Heb|done..|congruence]. }
  assert (Hge : od_get k eb = Some e).
  { apply od_elem_get; [by eapply index_of_NoDup_nil|done]. }
  pose proof (Hclassified k n Hln) as Hcl. unfold classified in Hcl.
  rewrite Hge, Hupd in Hcl.
  split_and!.
  - apply elem_of_app. left. unfold od_values. apply list_elem_of_fmap.
    exists (k, e). split; [done|]. by apply od_get_Some_elem.
  - rewrite heap_ticks. by apply (Hkept k n e).
  - intros Ha. destruct (Hadded n Ha) as (_ & k' & Hk' & Hnone & _).
    congruence.
  - intros Hu.
    destruct (Hupdated n Hu) as (_ & k' & e' & ? & ? & Hk' & Hge' & _ & Hupd' & _).
    assert (k' = k) as -> by congruence.
    assert (e' = e) as -> by congruence. congruence.
  - intros Hne [Hin|Hin]%elem_of_app; unfold od_values in Hin;
      apply list_elem_of_fmap in Hin as ([k' n'] & Heq & Hin);
      csimpl in Heq; subst n'.
    + destruct (Hentries k' n Hin) as [Hk' _].
      assert (k' = k) as -> by congruence.
      apply od_elem_get in Hin; [congruence|].
      rewrite Hkeys. by eapply index_of_NoDup_nil.
    + assert ((k', n) ∈ eb) as Hin' by (by eapply elem_of_sublist).
      destruct (index_of_sound _ _ _ _ _ Heb Hin') as [Hne' Hk'].
      apply Hne. eapply NoDup_fmap_eq; [exact Hnde|done..].
Qed.

Lemma classify_all_first_run (items nb : odict) a w :
  (∀ k l, (k, l) ∈ items → loggable (heap w) l) →
  classify_all [] items (nb, a, []) w = (Ok (nb, a ++ od_values items, []), w).
Proof.
  revert a. induction items as [|[k l] items IH]; intros a Hlog.
  - cbn [classify_all]. unfold ret, od_values. by rewrite app_nil_r.
  - cbn [classify_all]. unfold bind at 1. unfold classify. cbn [od_get].
    destruct (Hlog k l) as [[t Ht] [u Hu]]; [apply elem_of_cons; by left|].
    unfold bind at 1. unfold getitem at 1. rewrite Ht.
    unfold bind at 1. unfold getitem at 1. rewrite Hu.
    unfold ret at 1. rewrite IH.
    + unfold od_values. csimpl. by rewrite <- app_assoc.
    + intros k' l' Hin. eapply Hlog, elem_of_cons. by right.
Qed.

(** X5.  The first run, with nothing stored: when every new record has an id,
    a title and a URL, every record the index keeps is added, none is updated,
    [all_current] is [added], and the world is left as it was, the clock
    unread.  With pairwise distinct ids [added] is the new list. *)
Theorem compare_listings_first_run new w :
  (∀ l, l ∈ new → has_id (heap w) l ∧ loggable (heap w) l) →
  ∃ added,
    compare_listings self new [] w = (Ok (added, [], added), w) ∧
    (NoDup (listing_id (heap w) <$> new) → added = new).
Proof.
  intros Hnew.
  destruct (index_of_total (heap w) new []) as [nb0 Hnb0].
  { intros l Hl. by apply Hnew. }
  exists (od_values nb0). split.
  - unfold compare_listings.
    unfold bind at 1. rewrite index_by_id_run. cbn [index_of].
    unfold bind at 1. rewrite index_by_id_run, Hnb0.
    unfold bind at 1. rewrite classify_all_first_run.
    + unfold bind, preserve, ret. csimpl. by rewrite app_nil_r.
    + intros k l Hin. apply Hnew. by eapply index_of_sound.
  - intros Hnd. by rewrite (index_of_distinct _ _ _ _ Hnb0).
Qed.

(** X6.  A crawl that found nothing: nothing is added or updated, no object is
    changed, and [all_current] is what the age test keeps of the store, in the
    order of the store when its ids are pairwise distinct. *)
Theorem compare_listings_nothing_crawled
    existing w added updated all_current w' :
  compare_listings self [] existing w
    = (Ok (added, updated, all_current), w') →
  added = [] ∧ updated = [] ∧ heap w' = heap w ∧
  (∀ l, l ∈ all_current → l ∈ existing) ∧
  (NoDup (listing_id (heap w) <$> existing) →
   all_current `sublist_of` existing).
Proof.
  intros Hrun.
  destruct (compare_listings_partial _ _ _ _ _ _ Hrun)
    as (eb & nb0 & nb & w1 & pl & Heb & Hnb0 & _ & _ & _).
  cbn [index_of] in Hnb0. injection Hnb0 as <-. clear nb w1 pl.
  unfold compare_listings in Hrun.
  unfold bind at 1 in Hrun. rewrite index_by_id_run, Heb in Hrun.
  unfold bind at 1 in Hrun. rewrite index_by_id_run in Hrun.
  cbn [index_of] in Hrun.
  unfold bind at 1 in Hrun. cbn [classify_all] in Hrun.
  unfold ret at 1 in Hrun. unfold bind in Hrun.
  pose proof (wp_preserve self True [] eb w (or_introl I)) as Hwp.
  unfold wp in Hwp.
  destruct (preserve self [] eb w) as [[pl|?] w2]; [|done].
  unfold ret in Hrun. injection Hrun as <- <- <- <-.
  destruct Hwp as ([j ->] & (sub & -> & Hsub & _) & _ & _).
  split_and!; [done|done|by rewrite heap_ticks| |].
  - intros l Hl. unfold od_values in Hl. csimpl in Hl.
    apply list_elem_of_fmap in Hl as ([k l'] & -> & Hin). csimpl.
    eapply index_of_sound; [exact Heb|]. by eapply elem_of_sublist.
  - intros Hnd. csimpl.
    pose proof (index_of_distinct _ _ _ _ Heb Hnd) as Hvals. csimpl in Hvals.
    rewrite <- Hvals. unfold od_values. by apply fmap_sublist.
Qed.

Lemma classify_mutates eb st item w :
  wp True (classify eb st item)
     (fun st' w' =>
        (∀ l, l ∈ st.2 → l ∈ st'.2) ∧
        ∀ l, l ∉ st'.2 → obj (heap w') l = obj (heap w) l) w.
Proof.
  destruct st as [[nb a] u], item as [k n]. unfold classify.
  destruct (od_get k eb) as [e|].
  - apply wp_bind. unfold wp at 1. rewrite _is_listing_updated_run.
    destruct (is_updated _ _).
    + apply wp_bind, wp_getitem; [|done]. intros fs Hfs.
      apply wp_bind, wp_setitem, wp_bind, wp_now, wp_bind, wp_setitem.
      apply wp_bind, wp_getitem; [|done]. intros t _.
      apply wp_bind, wp_getitem; [|done]. intros t' _.
      apply wp_ret. csimpl. split.
      * intros l Hl. apply elem_of_app. by left.
      * intros l Hl. rewrite !obj_insert_ne; [done| |].
        all: intros ->; apply Hl, elem_of_app; right;
          by apply list_elem_of_singleton.
    + by apply wp_ret.
  - apply wp_bind, wp_getitem; [|done]. intros t _.
    apply wp_bind, wp_getitem; [|done]. intros t' _.
    by apply wp_ret.
Qed.

Lemma classify_all_mutates eb items st w :
  wp True (classify_all eb items st)
     (fun st' w' =>
        (∀ l, l ∈ st.2 → l ∈ st'.2) ∧
        ∀ l, l ∉ st'.2 → obj (heap w') l = obj (heap w) l) w.
Proof.
  revert st w. induction items as [|item items IH]; intros st w.
  - by apply wp_ret.
  - cbn [classify_all]. apply wp_bind.
    eapply wp_mono; [|apply classify_mutates].
    intros st1 w1 [Hsub1 Hobj1]. eapply wp_mono; [|apply IH].
    intros st2 w2 [Hsub2 Hobj2]. split; [by auto|].
    intros l Hl. rewrite Hobj2 by done. apply Hobj1. by auto.
Qed.

(** X7.  What [compare_listings] touches.  Whether it returns or raises, it
    makes no request, writes no file, notifies nobody and records no run; the
    clock it reads is the same clock.  When it returns, the only objects it
    has changed are the records of [updated]. *)
Theorem compare_listings_footprint new existing w :
  let w' := (compare_listings self new existing w).2 in
  (requests w' = requests w ∧ events w' = events w ∧
   listings_file w' = listings_file w ∧ latest_file w' = latest_file w ∧
   writes w' = writes w ∧ notified w' = notified w ∧
   run_stats w' = run_stats w ∧ clock w' = clock w) ∧
  ∀ added updated all_current,
    (compare_listings self new existing w).1
      = Ok (added, updated, all_current) →
    ∀ l, l ∉ updated → obj (heap w') l = obj (heap w) l.
Proof.
  intros w'. split.
  - subst w'. split_and!;
      match goal with |- ?g _ = _ =>
        by apply (keeps_compare_listings g)
      end.
  - subst w'. intros a u c Hrun l Hl.
    unfold compare_listings in *.
    unfold bind at 1 in Hrun. unfold bind at 1. rewrite index_by_id_run in *.
    destruct (index_of (heap w) existing []) as [eb|]; [|done].
    unfold bind at 1 in Hrun. unfold bind at 1. rewrite index_by_id_run in *.
    destruct (index_of (heap w) new []) as [nb0|]; [|done].
    unfold bind at 1 in Hrun. unfold bind at 1.
    pose proof (classify_all_mutates eb nb0 (nb0, [], []) w) as Hwp.
    unfold wp in Hwp.
    destruct (classify_all eb nb0 (nb0, [], []) w) as [[[[nb a'] u']|?] w1];
      [|done].
    destruct Hwp as [_ Hobj]. csimpl in Hobj.
    unfold bind in *.
    pose proof (keeps_preserve heap (fun _ => eq_refl) self nb eb w1) as Hh.
    destruct (preserve self nb eb w1) as [[pl|?] w2]; [|done].
    csimpl in *. injection Hrun as <- <- <-. rewrite Hh. by apply Hobj.
Qed.

End ReconcilerMore.

(** * More about the age test and the files *)

Section StorageMore.
Context `{DateTime, Markup}.
Variable self : ListingStorage.

(** X8.  The age test fails open.  The only exception that leaves
    [_is_listing_too_old] is the [OverflowError] of a maximum age that
    [timedelta] refuses.  With a maximum age it takes, the test returns
    whatever the record holds, reads the clock once or twice and changes
    nothing else; for a record with a ['first_seen'] the answer is [True]
    exactly when that is the timestamp of a naive datetime that the second
    reading of the clock is more than the maximum age away from. *)
Theorem is_listing_too_old_fails_open l w :
  (∀ e, (_is_listing_too_old self l w).1 = Raise e →
     e = OverflowError ∧ ¬ (-999999999 ≤ max_age_days self ≤ 999999999)) ∧
  (-999999999 ≤ max_age_days self ≤ 999999999 →
   ∃ b j, _is_listing_too_old self l w = (Ok b, ticks j w) ∧
     (1 ≤ j ≤ 2)%nat ∧
     ∀ v, obj (heap w) l !! "first_seen" = Some v →
       (b = true ↔
        ∃ s fs, v = VStr s ∧ fromisoformat s = Some (Naive fs) ∧
          max_age_days self * 86400000000 < clock w (S (reads w)) - fs)).
Proof.
  destruct (_is_listing_too_old_run self l w) as (j & Hj & Hrun).
  rewrite Hrun. split.
  - csimpl. unfold too_old_verdict. intros e He.
    repeat case_match; simplify_eq. split; [done|].
    by eapply bool_decide_eq_false_1.
  - intros Hrange. unfold too_old_verdict.
    rewrite (bool_decide_eq_true_2 _ Hrange).
    destruct (obj (heap w) l !! "first_seen") as [v|] eqn:Hv; csimpl.
    + destruct v as [| | | |s]; csimpl.
      1-4: exists false, j; split; [done|split; [done|]];
             intros v' [= <-]; split; [done|by intros (? & ? & ? & _)].
      destruct (fromisoformat s) as [[fs|]|] eqn:Hs.
      * eexists _, j. split; [done|split; [done|]]. intros v' [= <-].
        rewrite bool_decide_eq_true. split.
        -- intros Hage. by exists s, fs.
        -- intros (s' & fs' & [= <-] & Hs' & Hage). congruence.
      * exists false, j. split; [done|split; [done|]]. intros v' [= <-].
        split; [done|]. intros (s' & fs' & [= <-] & Hs' & _). congruence.
      * exists false, j. split; [done|split; [done|]]. intros v' [= <-].
        split; [done|]. intros (s' & fs' & [= <-] & Hs' & _). congruence.
    + destruct (fromisoformat _) as [[fs|]|]; eexists _, j; (split; [done|split; [done|]]); by intros v [=].
Qed.

Lemma ticks_keeps {B} (f : world → B) j w :
  (∀ w, f (tick w) = f w) → f (ticks j w) = f w.
Proof. intros Hf. induction j; [done|]. cbn [ticks]. by rewrite Hf. Qed.

Lemma obj_alloc_seq (h ds : list dict) :
  obj (h ++ ds) <$> seq (length h) (length ds) = ds.
Proof.
  apply list_eq. intros i. rewrite list_lookup_fmap.
  destruct (ds !! i) as [d|] eqn:Hd.
  - rewrite lookup_seq_lt by (by eapply lookup_lt_Some). csimpl.
    by rewrite (obj_alloc _ _ _ _ Hd).
  - rewrite lookup_seq_ge; [done|]. by apply lookup_ge_None.
Qed.

(** The run of [clean_old_listings] on a file it can read, with a maximum
    age [timedelta] takes: what it keeps of the stored records, what it
    answers and what it writes. *)
Lemma clean_old_listings_run w :
  -999999999 ≤ max_age_days self ≤ 999999999 →
  readable (listings_file w) →
  let stored :=
    match listings_file w with Content ds => ds | _ => [] end in
  ∃ kept removed w',
    clean_old_listings self w = (Ok removed, w') ∧
    kept `sublist_of` stored ∧
    (length kept + removed)%nat = length stored ∧
    listings_file w' =
      (if bool_decide (0 < removed)%nat then
         match write w (writes w) with
         | Written => Content kept
         | Refused => listings_file w
         | Cut => Corrupt
         end
       else listings_file w) ∧
    writes w' =
      (if bool_decide (0 < removed)%nat then S (writes w) else writes w).
Proof.
  intros Hrange [Hund Hsca] stored.
  assert (∃ ls w1, load_listings w = (Ok ls, w1) ∧
            obj (heap w1) <$> ls = stored ∧
            listings_file w1 = listings_file w ∧ writes w1 = writes w ∧
            write w1 = write w) as (ls & w1 & Hload & Hobj & Hf1 & Hw1 & Hok1).
  { unfold load_listings. subst stored.
    destruct (listings_file w) as [| | | |ds] eqn:Hfile;
      try done; try (by exists [], w).
    rewrite alloc_all_run. eexists _, _. split; [done|]. csimpl.
    split_and!; try done. apply obj_alloc_seq. }
  unfold clean_old_listings. unfold bind at 1. rewrite Hload.
  pose proof (wp_keep_young self False ls w1 (or_intror Hrange)) as Hwp.
  apply wp_total in Hwp as (kept & w2 & Hrun & ([j ->] & Hsub & _)).
  unfold bind at 1. rewrite Hrun.
  pose proof (sublist_length _ _ Hsub) as Hlen.
  assert (length ls = length stored) as Hls by (by rewrite <- Hobj, length_fmap).
  assert (Hf2 : listings_file (ticks j w1) = listings_file w)
    by (by rewrite ticks_keeps).
  assert (Hw2 : writes (ticks j w1) = writes w) by (by rewrite ticks_keeps).
  assert (Hok2 : write (ticks j w1) = write w) by (by rewrite ticks_keeps).
  exists (obj (heap w1) <$> kept), (length ls - length kept)%nat.
  assert (Hkept : (obj (heap w1) <$> kept) `sublist_of` stored).
  { rewrite <- Hobj. by apply fmap_sublist. }
  case_bool_decide as Hrem.
  - unfold bind, save_listings, ret. rewrite Hok2, Hw2, heap_ticks.
    destruct (write w (writes w)) eqn:Hwok; csimpl;
      (eexists; split; [done|]); csimpl; rewrite length_fmap, ?Hw2, ?Hf2;
      split_and!; try done; lia.
  - unfold ret. eexists. split; [done|]. rewrite length_fmap, ?Hw2, ?Hf2.
    split_and!; try done. lia.
Qed.


End StorageMore.

Section KeepsScraper.
Context `{DateTime, Markup}.
Context {B : Type} (f : world → B).
Hypothesis Htick : ∀ w, f (tick w) = f w.
Hypothesis Hlog : ∀ e w, f (log_event e w) = f w.
Hypothesis Hreq : ∀ w, f (count_request w) = f w.
Variable self : ParariusScraper.

Local Hint Resolve keeps_now : keeps.

Ltac keeps_scraper := repeat ((by auto with keeps) || keeps_step).

Lemma keeps_requests_get url : keeps f (requests_get url).
Proof.
  intros w. unfold requests_get.
  destruct (transport w (requests w) url); csimpl; by rewrite Hreq, Hlog.
Qed.

Lemma keeps_sleep d : keeps f (sleep d).
Proof.
  intros w. unfold sleep. case_bool_decide; [done|]. apply Hlog.
Qed.

Local Hint Resolve keeps_requests_get keeps_sleep : keeps.

Lemma keeps_attempts url remaining attempt :
  keeps f (attempts self url remaining attempt).
Proof.
  revert attempt. induction remaining as [|m IH]; intros attempt;
    cbn [attempts]; keeps_scraper.
Qed.

Lemma keeps_make_request url : keeps f (_make_request self url).
Proof. apply keeps_attempts. Qed.

Lemma keeps_feature features item : keeps f (feature features item).
Proof. unfold feature. keeps_scraper. Qed.

Local Hint Resolve keeps_make_request keeps_feature : keeps.

Lemma keeps_features_of items features : keeps f (features_of items features).
Proof.
  revert features. induction items as [|item items IH]; intros features;
    cbn [features_of]; keeps_scraper.
Qed.

Local Hint Resolve keeps_features_of : keeps.

Lemma keeps_extract_listing_data el : keeps f (_extract_listing_data el).
Proof. unfold _extract_listing_data, extract_listing. keeps_scraper. Qed.

Local Hint Resolve keeps_extract_listing_data : keeps.

Lemma keeps_extract_each els all_listings :
  keeps f (extract_each els all_listings).
Proof.
  revert all_listings. induction els as [|el els IH]; intros all_listings;
    cbn [extract_each]; keeps_scraper.
Qed.

Local Hint Resolve keeps_extract_each : keeps.

Lemma keeps_scrape_pages city pages all_listings :
  keeps f (scrape_pages self city pages all_listings).
Proof.
  revert all_listings. induction pages as [|page pages IH]; intros all_listings;
    cbn [scrape_pages]; keeps_scraper.
Qed.

Local Hint Resolve keeps_scrape_pages : keeps.

Lemma keeps_scrape_cities cs all_listings :
  keeps f (scrape_cities self cs all_listings).
Proof.
  revert all_listings. induction cs as [|city cs IH]; intros all_listings;
    cbn [scrape_cities]; unfold scrape_city; keeps_scraper.
Qed.

Lemma keeps_scrape_all_cities : keeps f (scrape_all_cities self).
Proof. apply keeps_scrape_cities. Qed.

End KeepsScraper.

(** * More about the scraper *)

Section FetcherMore.
Context `{DateTime, Markup}.
Variable self : ParariusScraper.

Lemma attempts_negative_delay url m w :
  request_delay self < 0 →
  (2 ≤ max_retries self ∨
   ∃ body, transport w (requests w) url = RespOk body) →
  attempts self url (S m) 0 w
  = (Raise ValueError, count_request (log_event (EvGet url) w)).
Proof.
  intros Hd Hcase. cbn [attempts]. unfold bind at 1. unfold try_except.
  unfold bind at 1. unfold requests_get.
  destruct (transport w (requests w) url) as [body|] eqn:Ht.
  - unfold bind at 1. unfold sleep.
    by rewrite bool_decide_eq_true_2 by done.
  - destruct Hcase as [Hr|[body Hb]]; [|done].
    rewrite bool_decide_eq_false_2 by lia.
    unfold bind at 1. unfold sleep.
    by rewrite bool_decide_eq_true_2 by lia.
Qed.


Lemma append_nil_inv (s t : string) : s +:+ t = s → t = "".
Proof.
  induction s as [|c s IH]; [done|].
  change (String c (s +:+ t) = String c s → t = ""). intros [= Hs]. auto.
Qed.

(** X12.  The pages of a search.  A page number of 1 or below gives the URL of
    the first page; a page number above 1 gives that URL followed by
    [/page-N].  So the pages from 1 on have pairwise distinct URLs. *)
Theorem build_search_url_pages city page :
  _build_search_url self city page =
    (if bool_decide (1 < page)
     then _build_search_url self city 1 +:+ "/page-" +:+ pretty page
     else _build_search_url self city 1) ∧
  ∀ page', 1 ≤ page → 1 ≤ page' →
    _build_search_url self city page = _build_search_url self city page' →
    page = page'.
Proof.
  assert (Hurl : ∀ p, _build_search_url self city p =
            if bool_decide (1 < p)
            then _build_search_url self city 1 +:+ "/page-" +:+ pretty p
            else _build_search_url self city 1).
  { intros p. unfold _build_search_url.
    rewrite (bool_decide_eq_false_2 (1 > 1)) by lia.
    replace (bool_decide (p > 1)) with (bool_decide (1 < p))
      by (apply bool_decide_ext; lia).
    by case_bool_decide. }
  split; [apply Hurl|].
  intros page' Hp Hp'. rewrite (Hurl page), (Hurl page').
  repeat case_bool_decide; try lia.
  - by intros Heq%(inj (String.app _))%(inj (String.app _))%(inj pretty).
  - intros Heq%append_nil_inv. done.
  - intros Heq. symmetry in Heq. by apply append_nil_inv in Heq.
Qed.

End FetcherMore.

Section ExtractorMore.
Context `{DateTime, Markup}.
Variable self : ParariusScraper.

(** X13.  Where [_extract_listing_data] gives up.  A fragment without title
    link, a title link without [href], and a price text in which the pattern
    finds a group that [float] refuses once the separators are dropped: each
    gives the empty dictionary, and the clock is not read. *)
Theorem extract_listing_data_drops listing_element w :
  (select_one "a.listing-search-item__link--title" listing_element = None →
   _extract_listing_data listing_element w = (Ok ∅, w)) ∧
  (∀ listing_link,
     select_one "a.listing-search-item__link--title" listing_element
       = Some listing_link →
     attr listing_link "href" = None →
     _extract_listing_data listing_element w = (Ok ∅, w)) ∧
  (∀ listing_link href price_elem g,
     select_one "a.listing-search-item__link--title" listing_element
       = Some listing_link →
     attr listing_link "href" = Some href →
     select_one ".listing-search-item__price" listing_element
       = Some price_elem →
     re_price (strip (text price_elem)) = Some g →
     to_number (drop_separators g) = None →
     _extract_listing_data listing_element w = (Ok ∅, w)).
Proof.
  unfold _extract_listing_data, try_except, extract_listing. split_and!.
  - by intros ->.
  - by intros link -> ->.
  - intros link href p g -> -> -> Hg Hn. unfold bind at 1. unfold ret at 1.
    unfold bind at 1. by rewrite Hg, Hn.
Qed.

Lemma extract_listing_Ok listing_element w d w' :
  extract_listing listing_element w = (Ok d, w') →
  d = ∅ ∨
  ∃ listing_link href price features,
    select_one "a.listing-search-item__link--title" listing_element
      = Some listing_link ∧
    attr listing_link "href" = Some href ∧
    (price = VNone ∨ ∃ n, price = VNum n) ∧
    w' = ticks 2 w ∧
    ∃ location image_url agency,
    d = <["id" := VStr (last_segment ("https://www.pararius.com" +:+ href))]>
        (<["url" := VStr ("https://www.pararius.com" +:+ href)]>
        (<["title" := VStr (strip (text listing_link))]>
        (<["price" := price]>
        (<["size" := dict_get features "size"]>
        (<["rooms" := dict_get features "rooms"]>
        (<["location" := VStr location]>
        (<["interior" := default (VStr "Unknown") (features !! "interior")]>
        (<["image_url" := image_url]>
        (<["agency" := VStr agency]>
        (<["first_seen" := VStr (isoformat (clock w (reads w)))]>
        (<["last_updated" := VStr (isoformat (clock w (S (reads w))))]>
         ∅))))))))))).
Proof.
  unfold extract_listing.
  destruct (select_one "a.listing-search-item__link--title" listing_element)
    as [link|] eqn:Hlink; [|intros [= <- <-]; by left].
  destruct (attr link "href") as [href|] eqn:Hhref; [|done].
  unfold bind at 1. unfold ret at 1. unfold bind at 1.
  set (price_text := match select_one ".listing-search-item__price" _ with
                     | Some p => _ | None => _ end).
  intros Hrun. right.
  assert (∃ price, (price = VNone ∨ ∃ n, price = VNum n) ∧
            match re_price price_text with
            | Some g => match to_number (drop_separators g) with
                        | Some n => ret (VNum n)
                        | None => raise ValueError
                        end
            | None => ret VNone
            end w = (Ok price, w)) as (price & Hprice & Hp).
  { destruct (re_price price_text) as [g|]; [|exists VNone; by split; [left|]].
    destruct (to_number (drop_separators g)) as [n|]; [|done].
    exists (VNum n). split; [right; by exists n|done]. }
  rewrite Hp in Hrun. unfold bind at 1 in Hrun.
  pose proof (keeps_features_of (fun w => w)
                (select ".illustrated-features__item" listing_element) ∅ w)
    as Hw.
  destruct (features_of _ ∅ w) as [[features|?] w1]; [|done].
  csimpl in Hw. subst w1.
  unfold bind, now, ret in Hrun. csimpl in Hrun.
  injection Hrun as <- <-.
  exists link, href, price, features. split_and!; try done.
  by eexists _, _, _.
Qed.

Lemma extract_listing_record listing_element w d w' :
  extract_listing listing_element w = (Ok d, w') → d = ∅ ∨ record d.
Proof.
  intros [->|(link & href & price & features & _ & _ & _ & _ &
              location & image_url & agency & ->)]%extract_listing_Ok;
    [by left|right].
  intros key. unfold listing_keys.
  rewrite !lookup_insert_is_Some', lookup_empty, !elem_of_cons, elem_of_nil.
  split; intros Hk.
  - repeat (destruct Hk as [<-|Hk]; [auto 20|]).
    by apply is_Some_None in Hk.
  - repeat (destruct Hk as [->|Hk]; [auto 20|]). done.
Qed.

Lemma extract_listing_data_run listing_element w :
  ∃ d w', _extract_listing_data listing_element w = (Ok d, w') ∧
          (d = ∅ ∨ record d).
Proof.
  unfold _extract_listing_data, try_except.
  destruct (extract_listing listing_element w) as [[d|e] w'] eqn:Hex.
  - exists d, w'. split; [done|]. by eapply extract_listing_record.
  - exists ∅, w'. split; [done|by left].
Qed.

(** X14.  The shape of a record.  A dictionary that [_extract_listing_data]
    returns and that is not empty has the twelve keys of a record and no
    other; its URL is the site followed by the [href] of the title link, its
    id the last segment of the URL, its price [None] or a number, and its
    [first_seen] and [last_updated] are two successive readings of the clock. *)
Theorem extract_listing_data_shape listing_element w d w' :
  _extract_listing_data listing_element w = (Ok d, w') → d ≠ ∅ →
  record d ∧ w' = ticks 2 w ∧
  ∃ listing_link href,
    select_one "a.listing-search-item__link--title" listing_element
      = Some listing_link ∧
    attr listing_link "href" = Some href ∧
    d !! "url" = Some (VStr ("https://www.pararius.com" +:+ href)) ∧
    d !! "id"
      = Some (VStr (last_segment ("https://www.pararius.com" +:+ href))) ∧
    d !! "title" = Some (VStr (strip (text listing_link))) ∧
    (d !! "price" = Some VNone ∨ ∃ n, d !! "price" = Some (VNum n)) ∧
    d !! "first_seen" = Some (VStr (isoformat (clock w (reads w)))) ∧
    d !! "last_updated" = Some (VStr (isoformat (clock w (S (reads w))))).
Proof.
  unfold _extract_listing_data, try_except. intros Hrun Hne.
  destruct (extract_listing listing_element w) as [[d1|e] w1] eqn:Hex;
    [|unfold ret in Hrun; congruence].
  assert (d1 = d) as -> by congruence. assert (w1 = w') as -> by congruence.
  split.
  { by destruct (extract_listing_record _ _ _ _ Hex). }
  apply extract_listing_Ok in Hex
    as [->|(link & href & price & features & Hlink & Hhref & Hprice & -> &
            location & image_url & agency & ->)]; [done|].
  split; [done|].
  - exists link, href. split_and!; try done.
    do 3 (rewrite lookup_insert_ne by done). rewrite lookup_insert_eq.
    destruct Hprice as [->|[n ->]]; [by left|right; by exists n].
Qed.


Lemma record_not_compared d key :
  d = ∅ ∨ record d → key ∉ listing_keys → dict_get d key = VNone.
Proof.
  intros [->|Hd] Hkey; unfold dict_get; [by rewrite lookup_empty|].
  destruct (d !! key) as [v|] eqn:Hv; [|done].
  exfalso. apply Hkey, Hd. by eexists.
Qed.

(** X15.  Between two dictionaries that [_extract_listing_data] made, the test
    for an update looks at the price alone: the extractor records no
    ['available'] and no ['description'], so the other two comparisons of
    [_is_listing_updated] compare [None] with [None]. *)
Theorem scraped_records_differ_by_price
    listing_element listing_element' w1 w2 d d' w1' w2' :
  _extract_listing_data listing_element w1 = (Ok d, w1') →
  _extract_listing_data listing_element' w2 = (Ok d', w2') →
  is_updated d d' = py_ne (dict_get d "price") (dict_get d' "price").
Proof.
  intros Hd Hd'.
  destruct (extract_listing_data_run listing_element w1) as (? & ? & Hr & Hrec).
  destruct (extract_listing_data_run listing_element' w2)
    as (? & ? & Hr' & Hrec').
  rewrite Hd in Hr. rewrite Hd' in Hr'.
  injection Hr as <- <-. injection Hr' as <- <-.
  assert (Hav : "available" ∉ listing_keys) by (by apply (bool_decide_unpack _)).
  assert (Hde : "description" ∉ listing_keys) by (by apply (bool_decide_unpack _)).
  unfold is_updated.
  rewrite (record_not_compared d "available"),
    (record_not_compared d' "available"),
    (record_not_compared d "description"),
    (record_not_compared d' "description") by done.
  rewrite py_ne_refl by done. by rewrite !orb_false_r.
Qed.

Lemma extract_each_records E els all_listings w :
  Forall record all_listings →
  wp E (extract_each els all_listings) (fun r _ => Forall record r) w.
Proof.
  revert all_listings w. induction els as [|el els IH]; intros acc w Hacc.
  - by apply wp_ret.
  - cbn [extract_each]. apply wp_bind. unfold wp at 1.
    destruct (extract_listing_data_run el w) as (d & w' & -> & Hd).
    case_bool_decide as Hne; [by apply IH|].
    apply IH. apply Forall_app. split; [done|].
    apply Forall_singleton. by destruct Hd.
Qed.

Lemma attempts_returns E url remaining attempt w :
  (E ∨ 0 ≤ request_delay self) →
  wp E (attempts self url remaining attempt) (fun _ _ => True) w.
Proof.
  intros [HE|Hd].
  { unfold wp. by destruct (attempts _ _ _ _ _) as [[?|?] ?]. }
  revert attempt w.
  induction remaining as [|m IH]; intros attempt w; [done|].
  destruct (transport w (requests w) url) as [body|] eqn:Ht.
  - unfold wp. by rewrite (attempts_ok_step self url m attempt w body).
  - unfold wp. rewrite (attempts_fail_step self url m attempt w) by done.
    case_bool_decide; [done|]. apply IH.
Qed.

Lemma scrape_pages_records E city pages all_listings w :
  (E ∨ 0 ≤ request_delay self) →
  Forall record all_listings →
  wp E (scrape_pages self city pages all_listings)
     (fun r _ => Forall record r) w.
Proof.
  intros HE. revert all_listings w.
  induction pages as [|page pages IH]; intros acc w Hacc.
  - by apply wp_ret.
  - cbn [scrape_pages]. apply wp_bind.
    eapply wp_mono; [|by apply attempts_returns].
    intros [soup|] w1 _; [|by apply wp_ret].
    destruct (select ".search-list__item .listing-search-item" soup)
      as [|el els] eqn:Hels; [by apply wp_ret|].
    apply wp_bind. eapply wp_mono; [|by apply extract_each_records].
    intros acc' w2 Hacc'. csimpl in *.
    destruct (select_one ".pagination__link--next" soup); [|by apply wp_ret].
    by apply IH.
Qed.

Lemma scrape_cities_records E cs all_listings w :
  (E ∨ 0 ≤ request_delay self) →
  Forall record all_listings →
  wp E (scrape_cities self cs all_listings) (fun r _ => Forall record r) w.
Proof.
  intros HE. revert all_listings w.
  induction cs as [|city cs IH]; intros acc w Hacc.
  - by apply wp_ret.
  - cbn [scrape_cities]. apply wp_bind. unfold scrape_city.
    eapply wp_mono; [|by apply scrape_pages_records].
    intros ds w1 Hds. csimpl in *. apply IH. by apply Forall_app.
Qed.


(** X17.  The requests of a crawl.  Whether it returns or raises,
    [scrape_city] makes at most [max_retries] requests for each of its
    [max_pages] pages, and [scrape_all_cities], which asks for five pages of
    each city, at most five times [max_retries] for each city. *)
Theorem scrape_requests_bound w :
  (∀ city max_pages,
     (requests (scrape_city self city max_pages w).2
      ≤ requests w + Z.to_nat max_pages * Z.to_nat (max_retries self))%nat) ∧
  (requests (scrape_all_cities self w).2
   ≤ requests w
     + length (cities (config self)) * (5 * Z.to_nat (max_retries self)))%nat.
Proof.
  assert (Hpages : ∀ city pages acc w,
    (requests (scrape_pages self city pages acc w).2
     ≤ requests w + length pages * Z.to_nat (max_retries self))%nat).
  { intros city pages. induction pages as [|page pages IH]; intros acc w0.
    - csimpl. lia.
    - cbn [scrape_pages]. unfold bind at 1.
      pose proof (attempts_bound self (_build_search_url self city page)
                    (Z.to_nat (max_retries self)) 0 w0) as Hb.
      unfold _make_request.
      destruct (attempts _ _ _ _ w0) as [[[soup|]|e] w1]; csimpl in *; try lia.
      destruct (select ".search-list__item .listing-search-item" soup)
        as [|el els]; [csimpl; lia|].
      cbn iota. generalize (el :: els). intros elems.
      unfold bind at 1.
      pose proof (keeps_extract_each requests (fun _ => eq_refl) elems
                    acc w1) as Hk.
      destruct (extract_each elems acc w1) as [[acc'|e] w2];
        csimpl in *; [|lia].
      destruct (select_one ".pagination__link--next" soup); csimpl; [|lia].
      specialize (IH acc' w2). lia. }
  split.
  - intros city max_pages. unfold scrape_city.
    specialize (Hpages city (seqZ 1 max_pages) [] w).
    by rewrite length_seqZ in Hpages.
  - unfold scrape_all_cities. generalize (@nil dict) as acc.
    revert w. induction (cities (config self)) as [|city cs IH]; intros w acc.
    + csimpl. lia.
    + cbn [scrape_cities]. unfold bind, scrape_city.
      specialize (Hpages city (seqZ 1 5) [] w).
      change (length (seqZ 1 5)) with 5%nat in Hpages.
      destruct (scrape_pages self city (seqZ 1 5) [] w) as [[ds|e] w1];
        csimpl in *; [|lia].
      specialize (IH w1 (acc ++ ds)). lia.
Qed.

End ExtractorMore.

(** ** The id of a record *)

Lemma last_segment_go_app s t acc :
  last_segment_go (s +:+ t) acc = last_segment_go t (last_segment_go s acc).
Proof.
  revert acc. induction s as [|c s IH]; intros acc; [done|].
  change (String c s +:+ t) with (String c (s +:+ t)).
  cbn [last_segment_go]. by destruct (Ascii.eqb c "/").
Qed.

Lemma contains_slash_cons c t :
  contains "/" (String c t) = false →
  Ascii.eqb c "/" = false ∧ contains "/" t = false.
Proof.
  unfold contains. rewrite !bool_decide_eq_false. intros Hnone.
  destruct (Ascii.eqb c "/") eqn:Hc.
  - apply Ascii.eqb_eq in Hc as ->. exfalso. apply Hnone.
    cbn [index String.prefix].
    destruct (ascii_dec "/" "/") as [_|Hne]; [|done].
    destruct t; cbn [String.prefix]; eauto.
  - split; [done|]. intros [i Hi]. apply Hnone.
    cbn [index String.prefix]. rewrite Ascii.eqb_sym in Hc.
    destruct (ascii_dec "/" c) as [<-|_]; [by rewrite Ascii.eqb_refl in Hc|].
    rewrite Hi. eauto.
Qed.

Lemma last_segment_go_no_slash t acc :
  contains "/" t = false → last_segment_go t acc = acc +:+ t.
Proof.
  revert acc. induction t as [|c t IH]; intros acc Ht.
  - cbn. clear. induction acc as [|a acc IH]; [done|].
    change (String a acc = String a (acc +:+ "")). by f_equal.
  - apply contains_slash_cons in Ht as [Hc Ht].
    cbn [last_segment_go]. rewrite Hc, IH by done.
    by rewrite append_assoc.
Qed.

(** X18.  The id of a record is what follows the last [/] of its URL: for a
    URL [s/t] with no [/] in [t], the id is [t].  A URL that ends in [/] gives
    the empty id, the same for every such URL. *)
Theorem last_segment_after_slash s t :
  contains "/" t = false → last_segment (s +:+ "/" +:+ t) = t.
Proof.
  intros Ht. unfold last_segment.
  rewrite last_segment_go_app.
  change ("/" +:+ t) with (String "/" t). cbn [last_segment_go].
  rewrite Ascii.eqb_refl. by rewrite last_segment_go_no_slash.
Qed.

(** ** The page of a listing *)

Lemma rstrip_colon_idemp s : rstrip_colon (rstrip_colon s) = rstrip_colon s.
Proof.
  induction s as [|c s IH]; [done|]. cbn [rstrip_colon].
  destruct (Ascii.eqb c ":" && bool_decide (rstrip_colon s = "")) eqn:Hc;
    [done|].
  cbn [rstrip_colon]. rewrite IH. by rewrite Hc.
Qed.

Section ListingDetailsProofs.
Context `{DateTime, Markup}.
Variable self : ParariusScraper.

Lemma characteristics_labels elems (acc : gmap string string) :
  (∀ label, is_Some (acc !! label) → rstrip_colon label = label) →
  ∀ label, is_Some (foldl characteristic acc elems !! label) →
    rstrip_colon label = label.
Proof.
  revert acc. induction elems as [|elem elems IH]; intros acc Hacc; [done|].
  cbn [foldl]. apply IH. unfold characteristic.
  destruct (select_one ".listing-features__label" elem) as [l|]; [|done].
  destruct (select_one ".listing-features__value" elem) as [v|]; [|done].
  intros label [<-|Hl]%lookup_insert_is_Some'; [|by apply Hacc].
  apply rstrip_colon_idemp.
Qed.

Lemma extract_details_Ok url soup w d w' :
  extract_details url soup w = (Ok d, w') →
  details_url d = url ∧
  details_scraped_at d = isoformat (clock w (reads w)) ∧
  (details_price d = VNone ∨ ∃ n, details_price d = VNum n) ∧
  details_characteristics d =
    foldl characteristic ∅
      (select ".listing-features__list .listing-features__feature" soup) ∧
  details_images d =
    omap (fun img => attr img "src")
      (select ".listing-detail-media__images img" soup) ∧
  w' = tick w.
Proof.
  unfold extract_details.
  destruct (re_price _) as [g|].
  - destruct (to_number (drop_separators g)) as [n|]; [|done].
    unfold bind, ret, now. intros [= <- <-]. csimpl.
    split_and!; try done. right. by exists n.
  - unfold bind, ret, now. intros [= <- <-]. csimpl.
    split_and!; try done. by left.
Qed.


End ListingDetailsProofs.

(** * More about the pipeline *)

Section KeepsPipeline.
Context `{DateTime, Markup}.
Context {B : Type} (f : world → B).
Hypothesis Htick : ∀ w, f (tick w) = f w.
Hypothesis Hheap : ∀ g w, f (set_heap g w) = f w.
Hypothesis Hlog : ∀ e w, f (log_event e w) = f w.
Hypothesis Hreq : ∀ w, f (count_request w) = f w.
Hypothesis Hwrite : ∀ w, f (count_write w) = f w.
Hypothesis Hfile : ∀ c w, f (set_listings_file c w) = f w.
Hypothesis Hlatest : ∀ c w, f (set_latest_file c w) = f w.

Lemma keeps_load_listings : keeps f load_listings.
Proof.
  intros w. unfold load_listings.
  destruct (listings_file w); [done..|]. by apply keeps_alloc_all.
Qed.

Lemma keeps_save_listings listings : keeps f (save_listings listings).
Proof.
  intros w. unfold save_listings.
  destruct (write w (writes w)); csimpl; by rewrite ?Hfile, Hwrite.
Qed.

Lemma keeps_save_latest_listings listings :
  keeps f (save_latest_listings listings).
Proof.
  intros w. unfold save_latest_listings.
  destruct (write w (writes w)); csimpl; by rewrite ?Hlatest, Hwrite.
Qed.

Lemma keeps_ListingStorage_init cfg : keeps f (ListingStorage_init cfg).
Proof. intros w. unfold ListingStorage_init. by destruct (data_dir w). Qed.

Local Hint Resolve keeps_load_listings keeps_save_listings
  keeps_save_latest_listings keeps_keep_young keeps_scrape_all_cities
  keeps_alloc_all keeps_compare_listings keeps_ListingStorage_init : keeps.

Ltac keeps_pipeline := repeat ((by auto with keeps) || keeps_step).

Lemma keeps_clean_old_listings self : keeps f (clean_old_listings self).
Proof. unfold clean_old_listings. keeps_pipeline. Qed.

Local Hint Resolve keeps_clean_old_listings : keeps.

Lemma keeps_reconcile cfg : keeps f (reconcile cfg).
Proof. unfold reconcile. keeps_pipeline. Qed.

End KeepsPipeline.

Section MainMore.
Context `{DateTime, Markup}.

Lemma persist_and_notify_run r w :
  ∃ sent w',
    persist_and_notify r w
    = (Ok {| success := true;
             new_listings_count := length r.1.1;
             updated_listings_count := length r.1.2;
             total_listings_count := length r.2;
             notification_sent := sent;
             errors := [] |}, w') ∧
    run_stats w' = run_stats w ∧
    notified w' = notified w ++ notification (heap w) r.1.1 r.1.2.
Proof.
  destruct r as [[a u] c].
  unfold persist_and_notify, bind, save_listings, send_notification, ret.
  destruct (write w (writes w)), a as [|? ?], u as [|? ?]; csimpl;
    eexists _, _; split_and!; try done; by rewrite ?app_nil_r.
Qed.

Lemma notification_cases h added updated :
  notification h added updated = [] ∨
  ∃ a u, notification h added updated = [(a, u)] ∧ (a ≠ [] ∨ u ≠ []).
Proof.
  destruct added as [|x a], updated as [|y u]; csimpl; [by left|right..];
    eexists _, _; (split; [done|]); auto.
Qed.

(** [main], statement by statement. *)
Lemma main_unfold w :
  main w =
  match config_file w with
  | None =>
      (Ok 1, add_run_stats (failed_run ConfigurationError) (tick (tick w)))
  | Some cfg =>
      match reconcile cfg (tick w) with
      | (Raise e, w1) =>
          (Ok 1, add_run_stats (failed_run (ExecutionError e)) (tick w1))
      | (Ok r, w1) =>
          match persist_and_notify r w1 with
          | (Ok stats, w2) =>
              (Ok (if success stats then 0 else 1),
               add_run_stats stats (tick w2))
          | (Raise e, w2) =>
              (Ok 1, add_run_stats (failed_run (ExecutionError e)) (tick w2))
          end
      end
  end.
Proof.
  unfold main. unfold bind at 1. unfold now at 1.
  unfold bind at 1. unfold try_except.
  replace (config_file (tick w)) with (config_file w) by done.
  destruct (config_file w) as [cfg|]; [|done].
  rewrite run_split. unfold bind at 1.
  destruct (reconcile cfg (tick w)) as [[r|e] w1]; [|done].
  by destruct (persist_and_notify r w1) as [[stats|e] w2].
Qed.

(** The three ways through [main]: no configuration, a run that
    raises, a run that returns. *)
Lemma main_cases w :
  (config_file w = None ∧
   main w = (Ok 1, add_run_stats (failed_run ConfigurationError)
                     (tick (tick w)))) ∨
  (∃ cfg e w1,
     config_file w = Some cfg ∧ reconcile cfg (tick w) = (Raise e, w1) ∧
     main w = (Ok 1, add_run_stats (failed_run (ExecutionError e))
                       (tick w1))) ∨
  (∃ cfg r w1 stats w2,
     config_file w = Some cfg ∧ reconcile cfg (tick w) = (Ok r, w1) ∧
     persist_and_notify r w1 = (Ok stats, w2) ∧
     success stats = true ∧ errors stats = [] ∧
     run_stats w2 = run_stats w1 ∧
     notified w2 = notified w1 ++ notification (heap w1) r.1.1 r.1.2 ∧
     main w = (Ok 0, add_run_stats stats (tick w2))).
Proof.
  rewrite main_unfold.
  destruct (config_file w) as [cfg|] eqn:Hcfg; [|by left].
  right. destruct (reconcile cfg (tick w)) as [[r|e] w1] eqn:Hrec.
  - right. destruct (persist_and_notify_run r w1) as (sent & w2 & Hp & Hst & Hn).
    rewrite Hp. eexists cfg, r, w1, _, w2. by split_and!.
  - left. by exists cfg, e, w1.
Qed.

Lemma reconcile_run_stats cfg w : run_stats (reconcile cfg w).2 = run_stats w.
Proof. by apply (keeps_reconcile run_stats). Qed.

Lemma reconcile_notified cfg w : notified (reconcile cfg w).2 = notified w.
Proof. by apply (keeps_reconcile notified). Qed.


(** X21.  [main] notifies at most once in a run, and never with nothing to
    announce: the sink is given one pair of lists, of which one at least is
    not empty, or nothing at all; and a run that notified exits 0. *)
Theorem main_notifies_at_most_once w :
  notified (main w).2 = notified w ∨
  ∃ added updated,
    notified (main w).2 = notified w ++ [(added, updated)] ∧
    (added ≠ [] ∨ updated ≠ []) ∧
    (main w).1 = Ok 0.
Proof.
  destruct (main_cases w)
    as [[Hcfg ->]|[(cfg & e & w1 & Hcfg & Hrec & ->)
                  |(cfg & r & w1 & stats & w2 & Hcfg & Hrec & _ & _ & _ &
                    _ & Hn & ->)]].
  - by left.
  - pose proof (reconcile_notified cfg (tick w)) as Hk.
    rewrite Hrec in Hk. by left.
  - pose proof (reconcile_notified cfg (tick w)) as Hk.
    rewrite Hrec in Hk. csimpl in *. rewrite Hn, Hk.
    destruct (notification_cases (heap w1) r.1.1 r.1.2)
      as [->|(a & u & -> & Hne)].
    + left. by rewrite app_nil_r.
    + right. by exists a, u.
Qed.


Lemma elem_of_seq_alloc (h ds : list dict) l :
  l ∈ seq (length h) (length ds) →
  ∃ d, d ∈ ds ∧ obj (h ++ ds) l = d.
Proof.
  intros [Hl1 Hl2]%elem_of_seq.
  destruct (lookup_lt_is_Some_2 ds (l - length h)) as [d Hd]; [lia|].
  exists d. split; [by eapply list_elem_of_lookup_2|].
  replace l with (length h + (l - length h))%nat at 1 by lia.
  by apply obj_alloc.
Qed.

Lemma usable_readable f : usable_store f → readable f.
Proof. by destruct f. Qed.

Lemma load_listings_usable w :
  usable_store (listings_file w) →
  ∃ existing w',
    load_listings w = (Ok existing, w') ∧
    ∀ l, l ∈ existing →
      (l < length (heap w'))%nat ∧
      is_Some (obj (heap w') l !! "id") ∧
      is_Some (obj (heap w') l !! "first_seen").
Proof.
  intros Hfile. unfold load_listings.
  destruct (listings_file w) as [| | | |stored] eqn:Hf; try done.
  1-2: exists [], w; split; [done|]; intros l Hl; by apply elem_of_nil in Hl.
  rewrite alloc_all_run. eexists _, _. split; [done|]. csimpl.
  intros l Hl. split.
  - apply elem_of_seq in Hl. rewrite length_app. lia.
  - destruct (elem_of_seq_alloc _ _ _ Hl) as (d & Hd & ->).
    by apply Hfile.
Qed.

Lemma wp_keeps {A B} E (f : world → B) (m : M A) Q w :
  keeps f m → wp E m Q w → wp E m (fun a w' => Q a w' ∧ f w' = f w) w.
Proof.
  intros Hk. specialize (Hk w). unfold wp.
  by destruct (m w) as [[a|e] w'].
Qed.

Lemma record_key d key : record d → key ∈ listing_keys → is_Some (d !! key).
Proof. intros Hd Hkey. by apply Hd. Qed.

Lemma reconcile_returns cfg w :
  0 ≤ default 5 (request_delay_cfg cfg) →
  -999999999 ≤ default 30 (max_listings_age_days cfg) ≤ 999999999 →
  data_dir w = true →
  usable_store (listings_file w) →
  ∃ r w', reconcile cfg w = (Ok r, w').
Proof.
  intros Hdelay Hrange Hdir Hstore.
  set (storage := {| max_age_days := default 30 (max_listings_age_days cfg) |}).
  assert (wp False (reconcile cfg) (fun _ _ => True) w) as Hwp.
  2:{ apply wp_total in Hwp as (r & w' & Hrun & _). by exists r, w'. }
  unfold reconcile.
  apply wp_bind. unfold wp at 1, ListingStorage_init. rewrite Hdir.
  fold storage.
  apply wp_bind. unfold wp at 1.
  destruct (clean_old_listings_run storage w Hrange (usable_readable _ Hstore))
    as (kept & removed & w1 & -> & Hsub & _ & Hfile & _).
  assert (Hstore1 : usable_store (listings_file w1)).
  { rewrite Hfile. case_bool_decide; [|done].
    destruct (write w (writes w)); [|done..].
    intros d Hd.
    destruct (listings_file w) as [| | | |stored0] eqn:Hf; try done.
    1-2: apply sublist_nil_r in Hsub; subst kept; by apply elem_of_nil in Hd.
    apply Hstore. by eapply elem_of_sublist. }
  apply wp_bind. unfold wp at 1.
  destruct (load_listings_usable w1 Hstore1) as (existing & w2 & -> & Hex).
  apply wp_bind.
  eapply wp_mono;
    [|apply (wp_keeps False heap), (scrape_cities_records _ False)].
  2:{ by apply keeps_scrape_all_cities. }
  2:{ by right. }
  2:{ done. }
  intros ds w3 [Hds Hh3]. csimpl in *.
  apply wp_bind. unfold wp at 1.
  assert (∃ b w4, save_latest_listings ds w3 = (Ok b, w4) ∧ heap w4 = heap w3)
    as (b & w4 & -> & Hh4).
  { unfold save_latest_listings. destruct (write w3 (writes w3));
      by eexists _, _. }
  apply wp_bind. unfold wp at 1. rewrite alloc_all_run.
  eapply wp_mono; [|apply (compare_listings_wp storage False); right].
  { done. }
  csimpl. rewrite Hh4, Hh3.
  assert (Hnew : ∀ l, l ∈ seq (length (heap w2)) (length ds) →
            ∀ key, key ∈ listing_keys →
              is_Some (obj (heap w2 ++ ds) l !! key)).
  { intros l Hl key Hkey.
    destruct (elem_of_seq_alloc _ _ _ Hl) as (d & Hd & ->).
    apply record_key; [|done]. by apply (proj1 (Forall_forall _ _) Hds). }
  assert (Hold : ∀ l, l ∈ existing →
            obj (heap w2 ++ ds) l = obj (heap w2) l).
  { intros l Hl. destruct (Hex l Hl) as [Hlt _].
    unfold obj. by rewrite lookup_app_l. }
  split; [|split; [|done]].
  - intros l [Hl|Hl]%elem_of_app.
    + apply Hnew; [done|]. by apply (bool_decide_unpack _).
    + unfold has_id. rewrite Hold by done. by apply Hex.
  - split.
    + intros l Hl. split; (apply Hnew; [done|by apply (bool_decide_unpack _)]).
    + intros l Hl. rewrite Hold by done. by apply Hex.
Qed.

(** The run of [main] when the store cannot be read: the exception of
    [load_listings] leaves [clean_old_listings] and is caught at the top. *)
Lemma main_unreadable w cfg e :
  config_file w = Some cfg → data_dir w = true →
  load_listings (tick w) = (Raise e, tick w) →
  main w = (Ok 1, add_run_stats (failed_run (ExecutionError e))
                    (tick (tick w))).
Proof.
  intros Hcfg Hdir Hload. rewrite main_unfold, Hcfg.
  unfold reconcile. unfold bind at 1. unfold ListingStorage_init.
  replace (data_dir (tick w)) with (data_dir w) by done. rewrite Hdir.
  unfold bind at 1. unfold clean_old_listings. unfold bind at 1.
  by rewrite Hload.
Qed.


End MainMore.

(** * Concrete runs *)

Module Run.
Import Inputs.

Lemma run_result {A} (m : M A) (w : world) r :
  (m w).1 = Ok r → m w = (Ok r, (m w).2).
Proof. destruct (m w) as [r' w']. by intros [= ->]. Qed.

Ltac members H :=
  csimpl in H;
  repeat (apply elem_of_cons in H as [->|H]);
  [..|by apply elem_of_nil in H].

Ltac decided := apply (bool_decide_unpack _); vm_compute; exact I.

Lemma memory_reconcilable :
  reconcilable storage (heap memory) [2; 3]%nat [0; 1]%nat.
Proof.
  split_and!.
  - intros l Hl. members Hl; vm_compute; by eexists.
  - split.
    + intros l Hl. members Hl; split; vm_compute; by eexists.
    + intros l Hl. members Hl; vm_compute; by eexists.
  - by vm_compute.
  - by vm_compute.
Qed.

Lemma compare_listings_ids_witness :
  reconcilable storage (heap memory) [2; 3]%nat [0; 1]%nat ∧
  ∃ r w',
    compare_listings storage [2; 3]%nat [0; 1]%nat memory = (Ok r, w') ∧
    NoDup (listing_id (heap w') <$> r.2).
Proof.
  destruct (compare_listings_ids storage [2; 3]%nat [0; 1]%nat memory)
    as [Hpart Htot].
  split; [exact memory_reconcilable|].
  destruct (Htot memory_reconcilable) as ([[a u] c] & w' & Hrun).
  exists (a, u, c), w'. split; [exact Hrun|].
  apply (Hpart a u c w' Hrun).
Defined.

Lemma compare_listings_idempotent_witness :
  Forall (has_id (heap memory)) [0; 1]%nat ∧
  NoDup (listing_id (heap memory) <$> [0; 1]%nat) ∧
  Forall (fun l => comparable (obj (heap memory) l)) [0; 1]%nat ∧
  compare_listings storage [0; 1]%nat [0; 1]%nat memory
    = (Ok ([], [], [0; 1]%nat), memory).
Proof.
  assert (Hid : Forall (has_id (heap memory)) [0; 1]%nat).
  { repeat constructor; vm_compute; by eexists. }
  assert (Hnd : NoDup (listing_id (heap memory) <$> [0; 1]%nat))
    by decided.
  assert (Hcmp : Forall (fun l => comparable (obj (heap memory) l))
                   [0; 1]%nat).
  { repeat constructor; by vm_compute. }
  split_and!; [exact Hid|exact Hnd|exact Hcmp|].
  exact (proj1 (proj1 (compare_listings_idempotent storage [0; 1]%nat memory
                         Hid Hnd) Hcmp)).
Defined.

(** C2, as stated, fails on [priced_nan]: the price of its record is NaN,
    which differs from itself, so the record reconciled with itself is
    updated. *)
Lemma compare_listings_nan_is_updated :
  Forall (has_id (heap priced_nan)) [0%nat] ∧
  NoDup (listing_id (heap priced_nan) <$> [0%nat]) ∧
  obj (heap priced_nan) 0%nat !! "price" = Some VNaN ∧
  (compare_listings storage [0%nat] [0%nat] priced_nan).1
    = Ok ([], [0%nat], [0%nat]) ∧
  ¬ reconciles_to_itself priced_nan [0%nat].
Proof.
  assert (Hid : Forall (has_id (heap priced_nan)) [0%nat]).
  { repeat constructor; vm_compute; by eexists. }
  assert (Hnd : NoDup (listing_id (heap priced_nan) <$> [0%nat]))
    by decided.
  split_and!; [exact Hid|exact Hnd|vm_compute; reflexivity
              |vm_compute; reflexivity|].
  intros Hclaim. destruct (Hclaim Hid Hnd) as (c & Hrun & _).
  vm_compute in Hrun. discriminate Hrun.
Qed.

Lemma memory_run :
  compare_listings storage [2; 3]%nat [0; 1]%nat memory
  = (Ok ([3]%nat, [2]%nat, [2; 3; 1]%nat), reconciled).
Proof. unfold reconciled. apply run_result. vm_compute. reflexivity. Qed.

Lemma compare_listings_update_keeps_first_seen_witness :
  compare_listings storage [2; 3]%nat [0; 1]%nat memory
    = (Ok ([3]%nat, [2]%nat, [2; 3; 1]%nat), reconciled) ∧
  obj (heap memory) 0%nat !! "first_seen"
    = Some (VStr "2023-12-20T08:00:00") ∧
  ∃ e fs n,
    e ∈ [0; 1]%nat ∧
    listing_id (heap memory) e = listing_id (heap memory) 2%nat ∧
    is_updated (obj (heap memory) 2%nat) (obj (heap memory) e) = true ∧
    obj (heap memory) e !! "first_seen" = Some fs ∧
    (reads memory ≤ n < reads reconciled)%nat ∧
    obj (heap reconciled) 2%nat !! "first_seen" = Some fs ∧
    obj (heap reconciled) 2%nat !! "last_updated"
      = Some (VStr (isoformat (clock memory n))) ∧
    ∀ key, key ≠ "first_seen" → key ≠ "last_updated" →
      obj (heap reconciled) 2%nat !! key = obj (heap memory) 2%nat !! key.
Proof.
  split; [exact memory_run|]. split; [by vm_compute|].
  destruct (proj1 (compare_listings_update_keeps_first_seen storage
                     _ _ _ _ _ _ _ memory_run) 2%nat)
    as (_ & _ & He); [apply list_elem_of_here|].
  exact He.
Defined.

Lemma compare_listings_keeps_young_witness :
  compare_listings storage [2; 3]%nat [0; 1]%nat memory
    = (Ok ([3]%nat, [2]%nat, [2; 3; 1]%nat), reconciled) ∧
  NoDup (listing_id (heap memory) <$> [0; 1]%nat) ∧
  listing_id (heap memory) 1%nat = Some (VStr "b") ∧
  Forall (fun n => listing_id (heap memory) n ≠ Some (VStr "b"))
    [2; 3]%nat ∧
  obj (heap memory) 1%nat !! "first_seen"
    = Some (VStr "2023-12-25T08:00:00") ∧
  fromisoformat "2023-12-25T08:00:00" = Some (Naive 1703491200000000) ∧
  (1%nat ∈ [2; 3; 1]%nat →
   obj (heap reconciled) 1%nat = obj (heap memory) 1%nat) ∧
  ∃ n, (reads memory < n < reads reconciled)%nat ∧
       (1%nat ∈ [2; 3; 1]%nat ↔
        clock memory n - 1703491200000000
        ≤ max_age_days storage * 86400000000).
Proof.
  assert (Hnd : NoDup (listing_id (heap memory) <$> [0; 1]%nat))
    by decided.
  assert (Hid : listing_id (heap memory) 1%nat = Some (VStr "b"))
    by (by vm_compute).
  assert (Hnew : Forall (fun n => listing_id (heap memory) n
                                  ≠ Some (VStr "b")) [2; 3]%nat).
  { repeat constructor; by vm_compute. }
  assert (Hfs : obj (heap memory) 1%nat !! "first_seen"
                = Some (VStr "2023-12-25T08:00:00"))
    by (vm_compute; reflexivity).
  assert (Hs : fromisoformat "2023-12-25T08:00:00"
               = Some (Naive 1703491200000000))
    by (vm_compute; reflexivity).
  assert (He : 1%nat ∈ [0; 1]%nat)
    by apply list_elem_of_further, list_elem_of_here.
  destruct (compare_listings_keeps_young storage _ _ _ _ _ _ _
              1%nat (VStr "b") memory_run Hnd He Hid Hnew)
    as (Hsame & Hage & _).
  split_and!; [exact memory_run|exact Hnd|exact Hid|exact Hnew|exact Hfs
              |exact Hs|exact Hsame|].
  exact (Hage _ _ Hfs Hs).
Defined.

(** C4, as stated, fails: the store of [stale] loses its record to age —
    one eviction — and the empty store loses none, yet [compare_listings]
    returns the same three lists for both, so no eviction count can be read
    from what it returns. *)
Lemma compare_listings_keeps_no_count :
  ¬ ∃ count : list loc * list loc * list loc → nat,
      ∀ existing r w',
        compare_listings storage [] existing stale = (Ok r, w') →
        count r = (length existing - length r.2)%nat.
Proof.
  intros [count Hcount].
  assert (H1 : count ([], [], []) = 1%nat).
  { apply (Hcount [0%nat] ([], [], [])
             (compare_listings storage [] [0%nat] stale).2).
    apply run_result. vm_compute. reflexivity. }
  assert (H0 : count ([], [], []) = 0%nat).
  { apply (Hcount [] ([], [], []) (compare_listings storage [] [] stale).2).
    apply run_result. vm_compute. reflexivity. }
  rewrite H1 in H0. discriminate H0.
Qed.

Lemma eviction_spares_reseen_in_compare_only_witness :
  compare_listings storage [2; 3]%nat [0; 1]%nat memory
    = (Ok ([3]%nat, [2]%nat, [2; 3; 1]%nat), reconciled) ∧
  NoDup (listing_id (heap memory) <$> [0; 1]%nat) ∧
  listing_id (heap memory) 2%nat = Some (VStr "a") ∧
  listing_id (heap memory) 0%nat = Some (VStr "a") ∧
  ∃ l, l ∈ [2; 3; 1]%nat ∧
       listing_id (heap reconciled) l = Some (VStr "a") ∧
       obj (heap reconciled) l !! "first_seen"
         = obj (heap memory) 0%nat !! "first_seen".
Proof.
  assert (Hnd : NoDup (listing_id (heap memory) <$> [0; 1]%nat))
    by decided.
  assert (Hn : listing_id (heap memory) 2%nat = Some (VStr "a"))
    by (by vm_compute).
  assert (He : listing_id (heap memory) 0%nat = Some (VStr "a"))
    by (by vm_compute).
  split_and!; [exact memory_run|exact Hnd|exact Hn|exact He|].
  refine (proj1 (eviction_spares_reseen_in_compare_only storage)
            _ _ _ _ _ _ _ 2%nat 0%nat (VStr "a") memory_run Hnd _ _ Hn He).
  - apply list_elem_of_here.
  - apply list_elem_of_here.
Defined.

(** C5, as stated, fails on [revisited]: [clean_old_listings] removes [a]
    before the crawl, the crawl brings it back as a new record, and the
    store ends with [a] first seen at the time of the crawl. *)
Lemma main_drops_old_reseen_record :
  (main revisited).1 = Ok 0 ∧
  (∃ d, listings_file (main revisited).2 = Content [d] ∧
        d !! "id" = Some (VStr "a") ∧
        d !! "first_seen" = Some (VStr "2024-01-01T00:00:00.000003")) ∧
  ¬ reseen_keeps_first_seen revisited.
Proof.
  set (kept := match listings_file (main revisited).2 with
               | Content [d] => d
               | _ => ∅
               end).
  set (seen := match latest_file (main revisited).2 with
               | Content [f] => f
               | _ => ∅
               end).
  assert (Hfile : listings_file (main revisited).2 = Content [kept])
    by (vm_compute; reflexivity).
  assert (Hlatest : latest_file (main revisited).2 = Content [seen])
    by (vm_compute; reflexivity).
  assert (Hfs : kept !! "first_seen"
                = Some (VStr "2024-01-01T00:00:00.000003"))
    by (vm_compute; reflexivity).
  split_and!.
  - vm_compute. reflexivity.
  - exists kept. split_and!; [exact Hfile| |exact Hfs]. vm_compute. reflexivity.
  - intros Hclaim.
    destruct (Hclaim [listing "a" 1000 "2023-01-01T00:00:00"] [seen]
                (listing "a" 1000 "2023-01-01T00:00:00") seen)
      as (stored' & d' & Hfile' & Hd' & _ & Hfs').
    + reflexivity.
    + apply list_elem_of_here.
    + exact Hlatest.
    + apply list_elem_of_here.
    + vm_compute. reflexivity.
    + rewrite Hfile in Hfile'. injection Hfile' as <-.
      apply list_elem_of_singleton in Hd' as ->.
      rewrite Hfs in Hfs'. vm_compute in Hfs'. discriminate Hfs'.
Qed.

Lemma build_search_url_segments_witness :
  _build_search_url example_scraper "rotterdam" 1 =
    "https://www.pararius.com/apartments/rotterdam/800-1500/2-bedrooms/50-m2"
  ∧ _build_search_url example_scraper "rotterdam" 3 =
    "https://www.pararius.com/apartments/rotterdam/800-1500/2-bedrooms/50-m2/page-3".
Proof.
  exact (proj2 (build_search_url_segments example_scraper "rotterdam" 1)
           eq_refl eq_refl eq_refl eq_refl).
Defined.

(** C6, as stated, fails: with [min_bedrooms] set to 0 there is no
    [0-bedrooms] segment, and with only a minimum price, set to 0, there is
    no [0+] segment. *)
Lemma zero_settings_have_no_segment :
  _build_search_url zero_bedrooms "rotterdam" 1
    = "https://www.pararius.com/apartments/rotterdam" ∧
  spec_search_url (config zero_bedrooms) "rotterdam" 1
    = "https://www.pararius.com/apartments/rotterdam/0-bedrooms" ∧
  _build_search_url zero_bedrooms "rotterdam" 1
    ≠ spec_search_url (config zero_bedrooms) "rotterdam" 1 ∧
  _build_search_url zero_minimum_price "rotterdam" 1
    = "https://www.pararius.com/apartments/rotterdam" ∧
  spec_search_url (config zero_minimum_price) "rotterdam" 1
    = "https://www.pararius.com/apartments/rotterdam/0+".
Proof.
  split_and!; try (vm_compute; reflexivity).
  intros Heq. vm_compute in Heq. discriminate Heq.
Qed.



Lemma extract_listing_data_price_null_witness :
  select_one "a.listing-search-item__link--title" priceless
    = Some priceless_link ∧
  attr priceless_link "href" = Some "/apartment-for-rent/rotterdam/p1" ∧
  select_one ".listing-search-item__price" priceless = None ∧
  ∃ d, _extract_listing_data priceless stale = (Ok d, ticks 2 stale) ∧
       d !! "price" = Some VNone ∧ d !! "id" = Some (VStr "p1").
Proof.
  assert (Hlink : select_one "a.listing-search-item__link--title" priceless
                  = Some priceless_link) by (vm_compute; reflexivity).
  assert (Hhref : attr priceless_link "href"
                  = Some "/apartment-for-rent/rotterdam/p1")
    by (vm_compute; reflexivity).
  assert (Hprice : select_one ".listing-search-item__price" priceless
                   = None) by (vm_compute; reflexivity).
  split_and!; [exact Hlink|exact Hhref|exact Hprice|].
  destruct (proj2 (@extract_listing_data_price_null iso8601 html html_laws
                     priceless stale)
              priceless_link "/apartment-for-rent/rotterdam/p1" Hlink Hhref)
    as (d & Hrun & Hnull & Hid).
  - by rewrite Hprice.
  - exists d. split_and!; [exact Hrun|exact Hnull|exact Hid].
Defined.

Lemma failed_write_is_not_surfaced_witness :
  write_ok read_only (writes read_only) = false ∧
  ∃ w', save_listings [] read_only = (Ok false, w') ∧
        heap w' = heap read_only ∧
        listings_file w' = listings_file read_only.
Proof.
  split; [reflexivity|].
  exact (proj1 failed_write_is_not_surfaced [] read_only eq_refl).
Defined.

(** C9, as stated, fails on [read_only]: the merged set has one record,
    writing it fails, the file is still missing after the run, and [main]
    returns 0 and records a successful run. *)
Lemma main_succeeds_when_write_fails :
  (∀ n, write_ok read_only n = false) ∧
  (main read_only).1 = Ok 0 ∧
  listings_file (main read_only).2 = Missing ∧
  (success <$> run_stats (main read_only).2) = [true] ∧
  (total_listings_count <$> run_stats (main read_only).2) = [1%nat] ∧
  ¬ write_failure_surfaces read_only.
Proof.
  split_and!; try (vm_compute; reflexivity).
  intros Hclaim. apply Hclaim; [done|]. vm_compute. reflexivity.
Qed.

Lemma compare_listings_missing_first_seen_witness :
  obj (heap undated) 0%nat !! "first_seen" = None ∧
  compare_listings storage [1%nat] [0%nat] undated
    = (Raise (KeyError "first_seen"), undated) ∧
  ∀ key, (_is_listing_too_old storage 0%nat undated).1
         ≠ Raise (KeyError key).
Proof.
  assert (Hnone : obj (heap undated) 0%nat !! "first_seen" = None)
    by (vm_compute; reflexivity).
  destruct (compare_listings_missing_first_seen storage undated)
    as [Hraise Hage].
  split_and!; [exact Hnone| |].
  - apply (Hraise 1%nat 0%nat (VStr "a") (VStr "a"));
      vm_compute; reflexivity.
  - exact (proj2 (Hage 0%nat Hnone)).
Defined.

(** ** Further runs *)

Lemma compare_listings_missing_id_witness :
  0%nat ∈ [] ++ [0%nat] ∧
  obj (heap anonymous) 0%nat !! "id" = None ∧
  compare_listings storage [0%nat] [] anonymous
    = (Raise (KeyError "id"), anonymous).
Proof.
  assert (Hin : 0%nat ∈ [] ++ [0%nat]) by apply list_elem_of_here.
  assert (Hid : obj (heap anonymous) 0%nat !! "id" = None)
    by (vm_compute; reflexivity).
  split_and!; [exact Hin|exact Hid|].
  exact (compare_listings_missing_id storage [0%nat] [] anonymous 0%nat
           Hin Hid).
Defined.

Lemma duplicated_run :
  compare_listings storage [0; 1]%nat [] duplicated
  = (Ok ([1]%nat, [], [1]%nat),
     (compare_listings storage [0; 1]%nat [] duplicated).2).
Proof. apply run_result. vm_compute. reflexivity. Qed.

Lemma compare_listings_last_duplicate_wins_witness :
  compare_listings storage [0; 1]%nat [] duplicated
    = (Ok ([1]%nat, [], [1]%nat),
       (compare_listings storage [0; 1]%nat [] duplicated).2) ∧
  1%nat ∈ [1%nat] ++ [] ∧
  ∃ pre post, [0; 1]%nat = pre ++ 1%nat :: post ∧
    ∀ x, x ∈ post →
      listing_id (heap duplicated) x ≠ listing_id (heap duplicated) 1%nat.
Proof.
  assert (Hin : 1%nat ∈ [1%nat] ++ []) by apply list_elem_of_here.
  split_and!; [exact duplicated_run|exact Hin|].
  exact (compare_listings_last_duplicate_wins storage _ _ _ _ _ _ _ 1%nat
           duplicated_run Hin).
Defined.

Lemma compare_listings_covers_witness :
  compare_listings storage [2; 3]%nat [0; 1]%nat memory
    = (Ok ([3]%nat, [2]%nat, [2; 3; 1]%nat), reconciled) ∧
  (∀ n, n ∈ [2; 3]%nat →
     ∃ l, l ∈ [2; 3; 1]%nat ∧
          listing_id (heap reconciled) l = listing_id (heap memory) n) ∧
  (length [2; 3; 1]%nat ≤ length [2; 3]%nat + length [0; 1]%nat)%nat.
Proof.
  split; [exact memory_run|].
  destruct (compare_listings_covers storage _ _ _ _ _ _ _ memory_run)
    as (Hcov & _ & _ & Hlen).
  split; [exact Hcov|exact Hlen].
Defined.

Lemma retitled_run :
  compare_listings storage [1%nat] [0%nat] retitled
  = (Ok ([], [], [0%nat]),
     (compare_listings storage [1%nat] [0%nat] retitled).2).
Proof. apply run_result. vm_compute. reflexivity. Qed.

Lemma compare_listings_unchanged_keeps_stored_witness :
  compare_listings storage [1%nat] [0%nat] retitled
    = (Ok ([], [], [0%nat]),
       (compare_listings storage [1%nat] [0%nat] retitled).2) ∧
  obj (heap retitled) 1%nat !! "title" = Some (VStr "Loft") ∧
  obj (heap retitled) 0%nat !! "title" = Some (VStr "Flat") ∧
  is_updated (obj (heap retitled) 1%nat) (obj (heap retitled) 0%nat) = false ∧
  0%nat ∈ [0%nat] ∧ (1%nat ≠ 0%nat → 1%nat ∉ [0%nat]).
Proof.
  assert (Hupd : is_updated (obj (heap retitled) 1%nat)
                   (obj (heap retitled) 0%nat) = false)
    by (vm_compute; reflexivity).
  split_and!; [exact retitled_run|vm_compute; reflexivity
              |vm_compute; reflexivity|exact Hupd| |].
  all: destruct (compare_listings_unchanged_keeps_stored storage _ _ _ _ _ _ _
                   1%nat 0%nat retitled_run) as (Hin & _ & _ & _ & Hout);
    [decided|decided|apply list_elem_of_here|apply list_elem_of_here
    |vm_compute; by eexists|vm_compute; reflexivity|exact Hupd| ].
  - exact Hin.
  - exact Hout.
Defined.

Lemma compare_listings_first_run_witness :
  (∀ l, l ∈ [2; 3]%nat →
     has_id (heap memory) l ∧ loggable (heap memory) l) ∧
  NoDup (listing_id (heap memory) <$> [2; 3]%nat) ∧
  compare_listings storage [2; 3]%nat [] memory
    = (Ok ([2; 3]%nat, [], [2; 3]%nat), memory).
Proof.
  assert (Hnew : ∀ l, l ∈ [2; 3]%nat →
            has_id (heap memory) l ∧ loggable (heap memory) l).
  { intros l Hl. members Hl; (split; [|split]); vm_compute; by eexists. }
  assert (Hnd : NoDup (listing_id (heap memory) <$> [2; 3]%nat)) by decided.
  split_and!; [exact Hnew|exact Hnd|].
  destruct (compare_listings_first_run storage [2; 3]%nat memory Hnew)
    as (added & Hrun & Hadded).
  rewrite (Hadded Hnd) in Hrun. exact Hrun.
Defined.

Lemma stale_run :
  compare_listings storage [] [0%nat] stale
  = (Ok ([], [], []), (compare_listings storage [] [0%nat] stale).2).
Proof. apply run_result. vm_compute. reflexivity. Qed.

Lemma compare_listings_nothing_crawled_witness :
  compare_listings storage [] [0%nat] stale
    = (Ok ([], [], []), (compare_listings storage [] [0%nat] stale).2) ∧
  heap (compare_listings storage [] [0%nat] stale).2 = heap stale.
Proof.
  split; [exact stale_run|].
  destruct (compare_listings_nothing_crawled storage _ _ _ _ _ _ stale_run)
    as (_ & _ & Hheap & _).
  exact Hheap.
Defined.

Lemma compare_listings_footprint_witness :
  (compare_listings storage [2; 3]%nat [0; 1]%nat memory).1
    = Ok ([3]%nat, [2]%nat, [2; 3; 1]%nat) ∧
  (3%nat ∉ [2%nat]) ∧
  obj (heap (compare_listings storage [2; 3]%nat [0; 1]%nat memory).2) 3%nat
    = obj (heap memory) 3%nat.
Proof.
  assert (Hrun : (compare_listings storage [2; 3]%nat [0; 1]%nat memory).1
                 = Ok ([3]%nat, [2]%nat, [2; 3; 1]%nat))
    by (by rewrite memory_run).
  assert (Hout : 3%nat ∉ [2%nat]) by decided.
  split_and!; [exact Hrun|exact Hout|].
  exact (proj2 (compare_listings_footprint storage [2; 3]%nat [0; 1]%nat
                  memory) _ _ _ Hrun 3%nat Hout).
Defined.

Lemma is_listing_too_old_fails_open_witness :
  -999999999 ≤ max_age_days storage ≤ 999999999 ∧
  ∃ b j, _is_listing_too_old storage 0%nat stale = (Ok b, ticks j stale) ∧
         (1 ≤ j ≤ 2)%nat.
Proof.
  assert (Hrange : -999999999 ≤ max_age_days storage ≤ 999999999)
    by (by vm_compute).
  split; [exact Hrange|].
  destruct (proj2 (is_listing_too_old_fails_open storage 0%nat stale) Hrange)
    as (b & j & Hrun & Hj & _).
  by exists b, j.
Defined.



Lemma build_search_url_pages_witness :
  1 ≤ 2 ∧ 1 ≤ 3 ∧
  (_build_search_url default_scraper "rotterdam" 2
   = _build_search_url default_scraper "rotterdam" 3 → 2 = 3).
Proof.
  assert (H2 : 1 ≤ 2) by (by vm_compute).
  assert (H3 : 1 ≤ 3) by (by vm_compute).
  split_and!; [exact H2|exact H3|].
  exact (proj2 (build_search_url_pages default_scraper "rotterdam" 2) 3 H2 H3).
Defined.

Lemma extract_listing_data_drops_witness :
  select_one "a.listing-search-item__link--title" linkless = None ∧
  _extract_listing_data linkless stale = (Ok ∅, stale) ∧
  (∃ link, select_one "a.listing-search-item__link--title" hrefless
             = Some link ∧ attr link "href" = None) ∧
  _extract_listing_data hrefless stale = (Ok ∅, stale) ∧
  (∃ p, select_one ".listing-search-item__price" garbled = Some p ∧
        re_price (strip (text p)) = Some "," ∧
        to_number (drop_separators ",") = None) ∧
  _extract_listing_data garbled stale = (Ok ∅, stale).
Proof.
  assert (H1 : select_one "a.listing-search-item__link--title" linkless = None)
    by (vm_compute; reflexivity).
  assert (∃ link, select_one "a.listing-search-item__link--title" hrefless
                    = Some link ∧ attr link "href" = None)
    as Hhrefless.
  { eexists. split; vm_compute; reflexivity. }
  assert (∃ link href p,
            select_one "a.listing-search-item__link--title" garbled
              = Some link ∧
            attr link "href" = Some href ∧
            select_one ".listing-search-item__price" garbled = Some p ∧
            re_price (strip (text p)) = Some "," ∧
            to_number (drop_separators ",") = None) as Hgarbled.
  { eexists _, _, _. split_and!; vm_compute; reflexivity. }
  split_and!; [exact H1| |exact Hhrefless| | |].
  - exact (proj1 (extract_listing_data_drops linkless stale) H1).
  - destruct Hhrefless as (link & Hlink & Hhref).
    exact (proj1 (proj2 (extract_listing_data_drops hrefless stale))
             link Hlink Hhref).
  - destruct Hgarbled as (_ & _ & p & _ & _ & Hp & Hg & Hn). by exists p.
  - destruct Hgarbled as (link & href & p & Hlink & Hhref & Hp & Hg & Hn).
    exact (proj2 (proj2 (extract_listing_data_drops garbled stale))
             link href p "," Hlink Hhref Hp Hg Hn).
Defined.

Lemma extract_listing_data_shape_witness :
  ∃ d w',
    _extract_listing_data priceless stale = (Ok d, w') ∧ d ≠ ∅ ∧
    record d ∧ w' = ticks 2 stale.
Proof.
  set (d := match (@_extract_listing_data iso8601 html priceless stale).1 with
            | Ok d => d
            | Raise _ => ∅
            end).
  assert (Hrun : _extract_listing_data priceless stale
                 = (Ok d, (_extract_listing_data priceless stale).2)).
  { apply run_result. vm_compute. reflexivity. }
  assert (Hne : d ≠ ∅).
  { intros Heq. assert (Hid : d !! "id" = None) by (by rewrite Heq).
    vm_compute in Hid. discriminate Hid. }
  exists d, (@_extract_listing_data iso8601 html priceless stale).2.
  split_and!; [exact Hrun|exact Hne|..].
  all: destruct (@extract_listing_data_shape iso8601 html priceless stale d _
                   Hrun Hne)
         as (Hrec & Hw & _).
  - exact Hrec.
  - exact Hw.
Defined.

Lemma scraped_records_differ_by_price_witness :
  ∃ d d' w1 w2,
    _extract_listing_data priceless stale = (Ok d, w1) ∧
    _extract_listing_data linkless stale = (Ok d', w2) ∧
    is_updated d d' = py_ne (dict_get d "price") (dict_get d' "price").
Proof.
  destruct (@_extract_listing_data iso8601 html priceless stale)
    as [[d|e] w1] eqn:Hd.
  2:{ exfalso. revert Hd. unfold _extract_listing_data, try_except.
      by destruct (@extract_listing iso8601 html priceless stale) as [[?|?] ?]. }
  destruct (@_extract_listing_data iso8601 html linkless stale)
    as [[d'|e] w2] eqn:Hd'.
  2:{ exfalso. revert Hd'. unfold _extract_listing_data, try_except.
      by destruct (@extract_listing iso8601 html linkless stale) as [[?|?] ?]. }
  exists d, d', w1, w2. split_and!; [done|done|].
  exact (@scraped_records_differ_by_price iso8601 html _ _ _ _ _ _ _ _ Hd Hd').
Defined.




Lemma last_segment_after_slash_witness :
  contains "/" "a1" = false ∧
  last_segment ("https://www.pararius.com/apartment-for-rent/rotterdam"
                +:+ "/" +:+ "a1") = "a1" ∧
  contains "/" "" = false ∧
  last_segment ("https://www.pararius.com/apartment-for-rent/rotterdam/a1"
                +:+ "/" +:+ "") = "".
Proof.
  assert (H1 : contains "/" "a1" = false) by (vm_compute; reflexivity).
  assert (H2 : contains "/" "" = false) by (vm_compute; reflexivity).
  split_and!; [exact H1| |exact H2|].
  - exact (last_segment_after_slash _ "a1" H1).
  - exact (last_segment_after_slash _ "" H2).
Defined.


End Run.
